(** * Transcriber: the transcription / translation pipeline, embedded in Rocq

    The development follows the TypeScript route handlers of the repository:
    the transcription route (identifier resolver, language detector, progress
    map, result cache, POST handler, subtitle cleaning and its similarity
    measure), the remote-provider translation route (text chunker, per-chunk
    endpoint fallback, POST handler), the local-model translation route
    (progress entry life cycle), the cleanup route and the download route.

    Conventions of the embedding.
    - A JavaScript string is the list of its UTF-16 code units ([jsstring]).
    - [null] / [undefined] is [None].
    - A plain object used as a dictionary is a [gmap] (or, for a literal,
      an association list) of its own properties; a read of [obj[key]] goes
      through [read], which also sees the properties that every such
      object inherits from [Object.prototype].
    - Numbers that hold identifiers, sizes and clock readings are exact
      integers.
    - Every reading of the clock, of the random source and of an external
      tool is an explicit argument (an oracle), never a constant. *)

From Stdlib Require Import NArith ZArith Lia Bool DecimalString DecimalN.
From stdpp Require Import base option list strings gmap.

Local Open Scope nat_scope.

(** ** JavaScript strings *)

Module JS.

Definition jsstring : Type := list N.

(** An ASCII literal as a JavaScript string. *)
Fixpoint js (s : string) : jsstring :=
  match s with
  | EmptyString => []
  | String a t => Ascii.N_of_ascii a :: js t
  end.

(** [!x] for a value that is a string or null. *)
Definition falsy (x : option jsstring) : bool :=
  match x with
  | None => true
  | Some [] => true
  | Some (_ :: _) => false
  end.

(** [s.substring(a, b)] for [a <= b]; out-of-range indices are clamped. *)
Definition substring (a b : nat) (s : jsstring) : jsstring :=
  take (b - a) (drop a s).

(** [xs.join(sep)] *)
Fixpoint join (sep : jsstring) (xs : list jsstring) : jsstring :=
  match xs with
  | [] => []
  | [x] => x
  | x :: rest => x ++ sep ++ join sep rest
  end.

(** [haystack.includes(needle)] *)
Fixpoint is_prefix (p s : jsstring) : bool :=
  match p, s with
  | [], _ => true
  | a :: p', b :: s' => N.eqb a b && is_prefix p' s'
  | _ :: _, [] => false
  end.

Fixpoint includes (needle s : jsstring) : bool :=
  is_prefix needle s ||
  match s with
  | [] => false
  | _ :: s' => includes needle s'
  end.

(** [s.endsWith(suffix)] *)
Definition endsWith (suffix s : jsstring) : bool :=
  is_prefix (rev suffix) (rev s).

(** The decimal rendering of an integer, as template literals and
    [toString()] produce it for integral numbers. *)
Definition dec (z : Z) : jsstring :=
  if (z <? 0)%Z
  then js "-" ++ js (NilZero.string_of_uint (N.to_uint (Z.abs_N z)))
  else js (NilZero.string_of_uint (N.to_uint (Z.to_N z))).

(** Character classes of the regular-expression dialect. *)
Definition in_range (lo hi c : N) : bool := (N.leb lo c && N.leb c hi)%bool.
Definition is_digit (c : N) : bool := in_range 48 57 c.
Definition is_upper (c : N) : bool := in_range 65 90 c.
Definition is_lower (c : N) : bool := in_range 97 122 c.
(** [\w] *)
Definition is_word (c : N) : bool :=
  is_digit c || is_upper c || is_lower c || N.eqb c 95.
(** line terminators: [.] matches anything else *)
Definition is_newline (c : N) : bool :=
  N.eqb c 10 || N.eqb c 13 || N.eqb c 0x2028 || N.eqb c 0x2029.
(** [\s]: white space and line terminators *)
Definition is_space (c : N) : bool :=
  in_range 9 13 c || N.eqb c 32 || N.eqb c 0xA0 || N.eqb c 0x1680 ||
  in_range 0x2000 0x200A c || N.eqb c 0x2028 || N.eqb c 0x2029 ||
  N.eqb c 0x202F || N.eqb c 0x205F || N.eqb c 0x3000 || N.eqb c 0xFEFF.

(** [s.trim()] is empty *)
Definition blank (s : jsstring) : bool := forallb is_space s.

(** *** Plain objects

    An object written as a literal, [{}] included, has [Object.prototype]
    as its prototype: [obj[key]] and [key in obj] see the properties of the
    prototype besides the own ones. *)

(** the own property [key] of a literal object *)
Fixpoint lookup_key {V : Type} (key : jsstring) (obj : list (jsstring * V)) : option V :=
  match obj with
  | [] => None
  | (k, v) :: rest => if decide (k = key) then Some v else lookup_key key rest
  end.

(** the names of the properties of [Object.prototype] *)
Definition object_prototype : list jsstring :=
  [js "constructor"; js "__defineGetter__"; js "__defineSetter__";
   js "hasOwnProperty"; js "__lookupGetter__"; js "__lookupSetter__";
   js "isPrototypeOf"; js "propertyIsEnumerable"; js "toString"; js "valueOf";
   js "__proto__"; js "toLocaleString"].

Definition inherited (key : jsstring) : bool :=
  existsb (fun name => bool_decide (name = key)) object_prototype.

(** What [obj[key]] evaluates to when it is not undefined: the own property,
    or the property of that name of [Object.prototype] (a function; under
    [__proto__], the prototype itself). An inherited value is truthy and is
    neither a string nor a number. *)
Inductive jsval (V : Type) : Type :=
| Val (v : V)
| Inherited (name : jsstring).

Arguments Val {V} v.
Arguments Inherited {V} name.

(** [obj[key]], given the own property of that name when there is one;
    [None] is undefined. [key in obj] holds exactly when the result is not
    [None]. *)
Definition read {V : Type} (own : option V) (key : jsstring) : option (jsval V) :=
  match own with
  | Some v => Some (Val v)
  | None => if inherited key then Some (Inherited key) else None
  end.

(** [x] when it is truthy, for a string, an inherited value or undefined *)
Definition truthy_value (x : option (jsval jsstring)) : option (jsval jsstring) :=
  match x with
  | Some (Val []) | None => None
  | Some v => Some v
  end.

End JS.

Import JS.

(** ** A backtracking matcher for the regular expressions of the source

    Only the constructs that occur in the repository's patterns are present.
    The matcher is written in continuation-passing style, as the
    specification of the language describes it: alternatives are tried
    left to right, a greedy quantifier tries one more iteration before the
    continuation, a lazy one the continuation first, an iteration that
    consumes nothing is rejected, and the captures of a quantified group are
    cleared at the start of each iteration. *)

Module Regex.

Inductive regex : Type :=
| Eps : regex                        (* the empty pattern *)
| Chr : (N -> bool) -> regex         (* one character of a class *)
| Seq : regex -> regex -> regex      (* r1 r2 *)
| Alt : regex -> regex -> regex      (* r1 | r2 *)
| Star : bool -> regex -> regex      (* r* when the flag is set, the lazy r*? otherwise *)
| Group : nat -> regex -> regex      (* the capturing group of that number *)
| Bol : regex                        (* ^ *)
| Eol : regex                        (* $ *)
| WordB : regex                      (* \b *)
| Behind : (N -> bool) -> regex.     (* a look-behind for one character of a class *)

(** [r+] *)
Definition Plus (r : regex) : regex := Seq r (Star true r).

Definition lit (a : N) : regex := Chr (N.eqb a).

(** a literal run of characters *)
Fixpoint lits_of (s : jsstring) : regex :=
  match s with
  | [] => Eps
  | [a] => lit a
  | a :: t => Seq (lit a) (lits_of t)
  end.

Definition lits (s : string) : regex := lits_of (js s).

Fixpoint seqs (rs : list regex) : regex :=
  match rs with
  | [] => Eps
  | [r] => r
  | r :: rest => Seq r (seqs rest)
  end.

Fixpoint alts (rs : list regex) : regex :=
  match rs with
  | [] => Chr (fun _ => false)
  | [r] => r
  | r :: rest => Alt r (alts rest)
  end.

(** [.] *)
Definition dot : regex := Chr (fun c => negb (is_newline c)).
(** [[...]] and [[^...]] over a literal set *)
Definition oneof (s : string) : N -> bool := fun c => existsb (N.eqb c) (js s).
Definition noneof (s : string) : N -> bool := fun c => negb (oneof s c).

Definition caps : Type := nat -> option (nat * nat).

Definition no_caps : caps := fun _ => None.

Definition set_cap (g : nat) (v : nat * nat) (c : caps) : caps :=
  fun g' => if Nat.eqb g' g then Some v else c g'.

Fixpoint groups (r : regex) : list nat :=
  match r with
  | Seq r1 r2 | Alt r1 r2 => groups r1 ++ groups r2
  | Star _ r' => groups r'
  | Group g r' => g :: groups r'
  | _ => []
  end.

Definition clear (gs : list nat) (c : caps) : caps :=
  fun g => if existsb (Nat.eqb g) gs then None else c g.

Section Matcher.

Variable s : jsstring.

Definition word_at (i : nat) : bool :=
  match s !! i with
  | Some ch => is_word ch
  | None => false
  end.

(** [\b] at position [i]: exactly one side is a word character. *)
Definition boundary (i : nat) : bool :=
  xorb (match i with O => false | S i' => word_at i' end) (word_at i).

Variable A : Type.

(** The iterations of a quantified [body] from position [i] on. At most
    [length s - i] iterations consume a character, which bounds the
    recursion. *)
Fixpoint star_loop (body : nat -> caps -> (nat -> caps -> option A) -> option A)
  (greedy : bool) (k : nat -> caps -> option A) (fuel i : nat) (c : caps)
  {struct fuel} : option A :=
  match fuel with
  | O => k i c
  | S fuel' =>
      let again :=
        body i c (fun j c' => if Nat.eqb j i then None else star_loop body greedy k fuel' j c') in
      if greedy
      then match again with
           | Some x => Some x
           | None => k i c
           end
      else match k i c with
           | Some x => Some x
           | None => again
           end
  end.

Fixpoint m (r : regex) (i : nat) (c : caps) (k : nat -> caps -> option A)
  {struct r} : option A :=
  match r with
  | Eps => k i c
  | Chr p =>
      match s !! i with
      | Some ch => if p ch then k (S i) c else None
      | None => None
      end
  | Seq r1 r2 => m r1 i c (fun j c' => m r2 j c' k)
  | Alt r1 r2 =>
      match m r1 i c k with
      | Some x => Some x
      | None => m r2 i c k
      end
  | Star greedy r' =>
      star_loop (fun i c k => m r' i (clear (groups r') c) k) greedy k
        (S (length s - i)) i c
  | Group g r' => m r' i c (fun j c' => k j (set_cap g (i, j) c'))
  | Bol => if Nat.eqb i 0 then k i c else None
  | Eol => if Nat.eqb i (length s) then k i c else None
  | WordB => if boundary i then k i c else None
  | Behind p =>
      match i with
      | O => None
      | S i' =>
          match s !! i' with
          | Some ch => if p ch then k i c else None
          | None => None
          end
      end
  end.

End Matcher.

Arguments star_loop {A} body greedy k fuel i c.
Arguments m s {A} r i c k.

(** One attempt at position [i]: the end of the match and its captures. *)
Definition match_at (s : jsstring) (r : regex) (i : nat) : option (nat * caps) :=
  m s r i no_caps (fun j c => Some (j, c)).

(** The leftmost match at or after [i], trying [S n] positions. *)
Fixpoint search (s : jsstring) (r : regex) (n i : nat) : option (nat * nat * caps) :=
  match match_at s r i with
  | Some (j, c) => Some (i, j, c)
  | None =>
      match n with
      | O => None
      | S n' => search s r n' (S i)
      end
  end.

(** [s.match(r)] / [r.exec(s)] for a pattern without the g and y flags. *)
Definition exec (r : regex) (s : jsstring) : option (nat * nat * caps) :=
  search s r (length s) 0.

(** [match[g]]: the text of group [g], undefined when it took no part. *)
Definition group (s : jsstring) (c : caps) (g : nat) : option jsstring :=
  match c g with
  | Some (a, b) => Some (substring a b s)
  | None => None
  end.

(** [r.test(s)] *)
Definition test (r : regex) (s : jsstring) : bool :=
  match exec r s with
  | Some _ => true
  | None => false
  end.

End Regex.

Import Regex.

(** ** The video identifier resolver (transcription route) *)

Module Resolver.

Local Open Scope N_scope.

(** What one call reads from the environment: [Date.now()] and
    [Math.random().toString(36)]. *)
Record env : Type := { now : Z; random36 : jsstring }.

(** [Buffer.from(url)]: the UTF-8 bytes of a string of UTF-16 code units;
    an unpaired surrogate becomes U+FFFD. Code units are 16 bits wide, the
    masks keep every byte in range. *)
Definition is_high (c : N) : bool := in_range 0xD800 0xDBFF c.
Definition is_low (c : N) : bool := in_range 0xDC00 0xDFFF c.
Definition replacement : list N := [0xEF; 0xBF; 0xBD].
Definition cont (x : N) : N := N.lor 0x80 (N.land x 0x3F).

Fixpoint utf8 (s : jsstring) : list N :=
  match s with
  | [] => []
  | c :: t =>
      if c <? 0x80 then c :: utf8 t
      else if c <? 0x800 then
        N.lor 0xC0 (N.land (N.shiftr c 6) 0x1F) :: cont c :: utf8 t
      else if is_high c then
        match t with
        | lo :: t' =>
            if is_low lo then
              let cp := 0x10000 + N.shiftl (c - 0xD800) 10 + (lo - 0xDC00) in
              N.lor 0xF0 (N.land (N.shiftr cp 18) 0x07)
                :: cont (N.shiftr cp 12) :: cont (N.shiftr cp 6) :: cont cp
                :: utf8 t'
            else replacement ++ utf8 t
        | [] => replacement
        end
      else if is_low c then replacement ++ utf8 t
      else
        N.lor 0xE0 (N.land (N.shiftr c 12) 0x0F)
          :: cont (N.shiftr c 6) :: cont c :: utf8 t
  end.

(** [.toString('base64')] *)
Definition b64char (n : N) : N :=
  if n <? 26 then 65 + n
  else if n <? 52 then 97 + (n - 26)
  else if n <? 62 then 48 + (n - 52)
  else if n =? 62 then 43
  else 47.

Definition pad : N := 61.

Fixpoint base64 (bs : list N) : jsstring :=
  match bs with
  | [] => []
  | [a] =>
      [b64char (N.shiftr a 2); b64char (N.shiftl (N.land a 3) 4); pad; pad]
  | [a; b] =>
      [b64char (N.shiftr a 2);
       b64char (N.lor (N.shiftl (N.land a 3) 4) (N.shiftr b 4));
       b64char (N.shiftl (N.land b 15) 2); pad]
  | a :: b :: c :: t =>
      b64char (N.shiftr a 2)
        :: b64char (N.lor (N.shiftl (N.land a 3) 4) (N.shiftr b 4))
        :: b64char (N.lor (N.shiftl (N.land b 15) 2) (N.shiftr c 6))
        :: b64char (N.land c 63)
        :: base64 t
  end.

(** [/[^a-zA-Z0-9]/g] replaced by the empty string *)
Definition is_alnum (c : N) : bool := is_lower c || is_upper c || is_digit c.
Definition strip_non_alnum (s : jsstring) : jsstring := List.filter is_alnum s.

(** The source pattern, group by group:
    [^.*] [(youtu.be\/|v\/|e\/|u\/\w+\/|embed\/|v=)] [([^#\&\?]* )] [.*]
    (the dot of [youtu.be] is not escaped in the source). *)
Definition youtubeRegExp : regex :=
  seqs [Bol; Star true dot;
        Group 1 (alts [seqs [lits "youtu"; dot; lits "be/"];
                       lits "v/";
                       lits "e/";
                       seqs [lits "u/"; Plus (Chr is_word); lits "/"];
                       lits "embed/";
                       lits "v="]);
        Group 2 (Star true (Chr (noneof "#&?")));
        Star true dot].

(** [/facebook\.com\/(?:watch\/\?v=|.*?\/videos\/|video\.php\?v=|watch\?v=)(\d+)/] *)
Definition fbRegex : regex :=
  seqs [lits "facebook.com/";
        alts [lits "watch/?v=";
              seqs [Star false dot; lits "/videos/"];
              lits "video.php?v=";
              lits "watch?v="];
        Group 1 (Plus (Chr is_digit))].

(** [/tiktok\.com\/@[\w.-]+\/video\/(\d+)/] *)
Definition ttRegex : regex :=
  seqs [lits "tiktok.com/@";
        Plus (Chr (fun c => is_word c || oneof ".-" c));
        lits "/video/";
        Group 1 (Plus (Chr is_digit))].

(** [/instagram\.com\/(?:p|reel)\/([A-Za-z0-9_-]+)/] *)
Definition igRegex : regex :=
  seqs [lits "instagram.com/";
        alts [lits "p"; lits "reel"];
        lits "/";
        Group 1 (Plus (Chr (fun c => is_upper c || is_lower c || is_digit c || oneof "_-" c)))].

(** [/vimeo\.com\/(\d+)/] *)
Definition vimeoRegex : regex :=
  seqs [lits "vimeo.com/"; Group 1 (Plus (Chr is_digit))].

(** [m ? m[g] : null] *)
Definition capture (r : regex) (g : nat) (url : jsstring) : option jsstring :=
  match exec r url with
  | Some (_, _, c) => group url c g
  | None => None
  end.

Definition extractYouTubeVideoId (e : env) (url : option jsstring) : jsstring :=
  match url with
  | None | Some [] => js "youtube-" ++ dec (now e)
  | Some u =>
      let fallback :=
        js "youtube-" ++ dec (now e) ++ js "-" ++ substring 2 7 (random36 e) in
      match capture youtubeRegExp 2 u with
      | Some id => if Nat.eqb (length id) 11 then id else fallback
      | None => fallback
      end
  end.

Definition extractVideoId (e : env) (url : option jsstring) (platform : jsstring)
  : option jsstring :=
  match url with
  | None | Some [] => None
  | Some u =>
      if decide (platform = js "youtube") then Some (extractYouTubeVideoId e url)
      else if decide (platform = js "facebook") then capture fbRegex 1 u
      else if decide (platform = js "tiktok") then capture ttRegex 1 u
      else if decide (platform = js "instagram") then capture igRegex 1 u
      else if decide (platform = js "vimeo") then capture vimeoRegex 1 u
      else if decide (platform = js "other")
           then Some (substring 0 16 (strip_non_alnum (base64 (utf8 u))))
      else None
  end.

(** The pattern of the platforms whose identifier is group 1 of one
    pattern. *)
Definition platform_regex (platform : jsstring) : option regex :=
  if decide (platform = js "facebook") then Some fbRegex
  else if decide (platform = js "tiktok") then Some ttRegex
  else if decide (platform = js "instagram") then Some igRegex
  else if decide (platform = js "vimeo") then Some vimeoRegex
  else None.

(** The YouTube pattern matches with an 11-character identifier. *)
Definition youtube_matches (u : jsstring) : bool :=
  match capture youtubeRegExp 2 u with
  | Some id => Nat.eqb (length id) 11
  | None => false
  end.

End Resolver.

(** ** The language detector (transcription route) *)

Module LangDetect.

Local Open Scope N_scope.

(** Canonicalize of a pattern with the i flag and without the u flag: the
    upper-case mapping of one code unit, kept when it is again one code unit
    and does not turn a non-ASCII character into an ASCII one. The table
    covers Basic Latin, Latin-1, Cyrillic and Cyrillic Extended-C: the blocks
    of the letters that occur in the patterns and of every character that
    folds onto one of them. Arabic letters have no case. *)
Definition canonicalize (c : N) : N :=
  if is_lower c then c - 32
  else if in_range 0xE0 0xFE c && negb (c =? 0xF7) then c - 32
  else if c =? 0xFF then 0x178
  else if c =? 0xB5 then 0x39C
  else if in_range 0x430 0x44F c then c - 32
  else if in_range 0x450 0x45F c then c - 80
  else if c =? 0x1C80 then 0x412
  else if c =? 0x1C81 then 0x414
  else if c =? 0x1C82 then 0x41E
  else if c =? 0x1C83 then 0x421
  else if in_range 0x1C84 0x1C85 c then 0x422
  else if c =? 0x1C86 then 0x42A
  else if c =? 0x1C87 then 0x462
  else if c =? 0x1C88 then 0xA64A
  else c.

(** one pattern character under the i flag *)
Definition ci (a : N) : regex := Chr (fun c => canonicalize c =? canonicalize a).

(** [/\bword\b/i] *)
Definition word_pattern (w : jsstring) : regex :=
  seqs (WordB :: map ci w ++ [WordB]).

Definition languagePatterns : list (jsstring * list regex) :=
  [ (js "en", map word_pattern
       [js "the"; js "and"; js "to"; js "for"; js "with"; js "it"]);
    (js "es", map word_pattern
       [js "el"; js "la"; js "los"; js "las"; js "y"; js "para"; js "por"]);
    (js "fr", map word_pattern
       [js "le"; js "la"; js "les"; js "et"; js "pour"; js "avec"; js "une"]);
    (js "de", map word_pattern
       [js "der"; js "die"; js "das"; js "und"; [102; 0xFC; 114]; js "mit"]);
    (js "it", map word_pattern
       [js "il"; js "la"; js "i"; js "le"; js "e"; js "per"; js "con"]);
    (js "ru", map word_pattern
       [[0x438]; [0x432]; [0x43D; 0x430]; [0x441]; [0x43F; 0x43E]; [0x43E; 0x442]]);
    (js "ar", map word_pattern
       [[0x641; 0x64A]; [0x645; 0x646]; [0x625; 0x644; 0x649];
        [0x639; 0x644; 0x649]; [0x648]; [0x623; 0x646]]) ].

(** [(text.match(pattern) || []).length]: the match array of a pattern
    without the g flag holds the matched text and one slot per group. *)
Definition match_array_length (pattern : regex) (text : jsstring) : nat :=
  match exec pattern text with
  | Some _ => S (length (groups pattern))
  | None => O
  end.

(** [scores[lang]] after the inner loop *)
Definition score (text : jsstring) (patterns : list regex) : nat :=
  fold_left (fun acc pattern => (acc + match_array_length pattern text)%nat) patterns O.

(** the entries of [scores], in insertion order *)
Definition scores (text : jsstring) : list (jsstring * nat) :=
  map (fun lp => (fst lp, score text (snd lp))) languagePatterns.

(** one step of the second loop on the pair (detectedLang, maxScore) *)
Definition pick (best entry : jsstring * nat) : jsstring * nat :=
  if (snd best <? snd entry)%nat then entry else best.

Definition detectLanguage (text : jsstring) : jsstring :=
  fst (fold_left pick (scores text) (js "en", O)).

End LangDetect.

(** ** The text chunker (remote-provider translation route) *)

Module Chunker.

(** [s.split(sep)] for a pattern separator without groups: the scan of
    String.prototype.split, the pattern being tried at each position [q]
    only there. [p] is the start of the piece being collected. *)
Section Split.

Variable sep : regex.
Variable s : jsstring.

Fixpoint split_loop (fuel p q : nat) : list jsstring :=
  match fuel with
  | O => [substring p (length s) s]
  | S fuel' =>
      if length s <=? q then [substring p (length s) s]
      else
        match match_at s sep q with
        | None => split_loop fuel' p (S q)
        | Some (e0, _) =>
            let e := Nat.min e0 (length s) in
            if e =? p then split_loop fuel' p (S q)
            else substring p q s :: split_loop fuel' e e
        end
  end.

Definition split : list jsstring :=
  match s with
  | [] =>
      match match_at s sep 0 with
      | Some _ => []
      | None => [s]
      end
  | _ => split_loop (2 * length s + 1) 0 0
  end.

End Split.

(** sentence ends: a dot, an exclamation mark or a question mark, looked
    behind, followed by white space which is the separator *)
Definition sentence_sep : regex := Seq (Behind (oneof ".!?")) (Plus (Chr is_space)).
(** clause ends: a comma or a semicolon looked behind, then white space *)
Definition clause_sep : regex := Seq (Behind (oneof ",;")) (Plus (Chr is_space)).

Definition space : jsstring := js " ".

(** [acc += (acc ? ' ' : '') + piece] *)
Definition glue (acc piece : jsstring) : jsstring :=
  match acc with
  | [] => piece
  | _ => acc ++ space ++ piece
  end.

(** [if (part) parts.push(part)] *)
Definition push_nonempty (parts : list jsstring) (part : jsstring) : list jsstring :=
  match part with
  | [] => parts
  | _ => parts ++ [part]
  end.

(** [for (i = 0; i < sub.length; i += maxLength) parts.push(sub.slice(i, i + maxLength))]:
    the slice is the first [maxLength] characters of what is left.
    With [maxLength = 0] the source loop never ends; the chunker is called
    with [MAX_CHUNK_SIZE] only, and the model is meant for [maxLength >= 1]. *)
Fixpoint slices (maxLength fuel : nat) (sub : jsstring) : list jsstring :=
  match fuel with
  | O => []
  | S fuel' =>
      match sub with
      | [] => []
      | _ => take maxLength sub :: slices maxLength fuel' (drop maxLength sub)
      end
  end.

(** the body of the inner loop on (parts, subPart) *)
Definition sub_step (maxLength : nat) (st : list jsstring * jsstring) (subSentence : jsstring)
  : list jsstring * jsstring :=
  let '(parts, subPart) := st in
  if maxLength <? length subSentence then
    (push_nonempty parts subPart ++ slices maxLength (length subSentence) subSentence, [])
  else if maxLength <? length subPart + length subSentence + 1 then
    (parts ++ [subPart], subSentence)
  else (parts, glue subPart subSentence).

(** the body of the outer loop on (parts, currentPart) *)
Definition sentence_step (maxLength : nat) (st : list jsstring * jsstring) (sentence : jsstring)
  : list jsstring * jsstring :=
  let '(parts, currentPart) := st in
  if maxLength <? length sentence then
    let parts1 := push_nonempty parts currentPart in
    let '(parts2, subPart) :=
      fold_left (sub_step maxLength) (split clause_sep sentence) (parts1, []) in
    (push_nonempty parts2 subPart, [])
  else if maxLength <? length currentPart + length sentence + 1 then
    (parts ++ [currentPart], sentence)
  else (parts, glue currentPart sentence).

Definition splitText (text : jsstring) (maxLength : nat) : list jsstring :=
  if length text <=? maxLength then [text]
  else
    let '(parts, currentPart) :=
      fold_left (sentence_step maxLength) (split sentence_sep text) ([], []) in
    push_nonempty parts currentPart.

(** The words of a text: its maximal runs of characters that are not white
    space. [cur] is the word being read, reversed. *)
Fixpoint words_from (cur : jsstring) (s : jsstring) : list jsstring :=
  match s with
  | [] => match cur with [] => [] | _ => [rev cur] end
  | c :: t =>
      if is_space c
      then match cur with [] => words_from [] t | _ => rev cur :: words_from [] t end
      else words_from (c :: cur) t
  end.

Definition words (s : jsstring) : list jsstring := words_from [] s.

(** the characters of a text that are not white space *)
Definition ink (s : jsstring) : jsstring := List.filter (fun c => negb (is_space c)) s.

(** every clause-level segment fits: no fixed-length slicing takes place *)
Definition no_slicing (text : jsstring) (maxLength : nat) : Prop :=
  Forall (fun sentence =>
            maxLength < length sentence ->
            Forall (fun sub => length sub <= maxLength) (split clause_sep sentence))
         (split sentence_sep text).

End Chunker.

(** ** File paths, as the runtime's path module (POSIX) handles them *)

Module Path.

Local Open Scope N_scope.

(** [s.split(c)] for a one-character separator; [cur] is the piece being
    read, reversed *)
Fixpoint split_on (c : N) (cur s : jsstring) : list jsstring :=
  match s with
  | [] => [rev cur]
  | x :: t => if x =? c then rev cur :: split_on c [] t else split_on c (x :: cur) t
  end.

Definition split_char (c : N) (s : jsstring) : list jsstring := split_on c [] s.

(** The segments of a path after the removal of empty and [.] segments and
    the resolution of [..] segments; [res] is the result so far, reversed. A
    [..] that has nothing to cancel is kept in a relative path only. *)
Fixpoint normalize_segments (allowAboveRoot : bool) (segs res : list jsstring)
  : list jsstring :=
  match segs with
  | [] => rev res
  | seg :: rest =>
      if decide (seg = [] \/ seg = js ".") then normalize_segments allowAboveRoot rest res
      else if decide (seg = js "..") then
        match res with
        | top :: below =>
            if decide (top = js "..")
            then normalize_segments allowAboveRoot rest (if allowAboveRoot then seg :: res else res)
            else normalize_segments allowAboveRoot rest below
        | [] => normalize_segments allowAboveRoot rest (if allowAboveRoot then [seg] else [])
        end
      else normalize_segments allowAboveRoot rest (seg :: res)
  end.

(** [path.normalize(p)] *)
Definition normalize (p : jsstring) : jsstring :=
  match p with
  | [] => js "."
  | c :: _ =>
      let isAbsolute := c =? 47 in
      let trailingSeparator := match last p with Some 47 => true | _ => false end in
      let body := join (js "/") (normalize_segments (negb isAbsolute) (split_char 47 p) []) in
      match body with
      | [] => if isAbsolute then js "/" else if trailingSeparator then js "./" else js "."
      | _ =>
          let body' := if trailingSeparator then body ++ js "/" else body in
          if isAbsolute then js "/" ++ body' else body'
      end
  end.

(** [path.join(a, b)] *)
Definition path_join (a b : jsstring) : jsstring :=
  match a, b with
  | [], [] => js "."
  | [], _ => normalize b
  | _, [] => normalize a
  | _, _ => normalize (a ++ js "/" ++ b)
  end.

(** [path.basename(p)]: the last segment that is not empty *)
Definition basename (p : jsstring) : jsstring :=
  default [] (last (List.filter (fun seg => negb (Nat.eqb (length seg) 0)) (split_char 47 p))).

(** [path.extname(p)]: from the last dot of the base name, when that dot is
    not its first character *)
Fixpoint last_dot (s : jsstring) (i : nat) (found : option nat) : option nat :=
  match s with
  | [] => found
  | c :: t => last_dot t (S i) (if c =? 46 then Some i else found)
  end.

Definition extname (p : jsstring) : jsstring :=
  let b := basename p in
  if decide (b = js "..") then []
  else match last_dot b O None with
       | Some (S i) => drop (S i) b
       | _ => []
       end.

(** [s.toLowerCase()] on the ASCII letters *)
Definition toLowerCase (s : jsstring) : jsstring :=
  map (fun c => if is_upper c then c + 32 else c) s.

End Path.

(** ** The remote-provider translation path *)

Module GoogleTranslate.

Import Chunker.

Definition MAX_CHUNK_SIZE : nat := 5000.

Definition languageMap : list (jsstring * jsstring) :=
  [ (js "en", js "en"); (js "he", js "iw"); (js "ar", js "ar"); (js "ru", js "ru");
    (js "fr", js "fr"); (js "es", js "es"); (js "de", js "de"); (js "it", js "it");
    (js "zh", js "zh-CN"); (js "ja", js "ja"); (js "ko", js "ko"); (js "pt", js "pt");
    (js "hi", js "hi"); (js "tr", js "tr"); (js "nl", js "nl") ].

(** [languageMap[langCode] || langCode]: for a name that the map inherits
    the result is the inherited value, not a language code *)
Definition getGoogleLanguageCode (langCode : jsstring) : jsval jsstring :=
  default (Val langCode) (truthy_value (read (lookup_key langCode languageMap) langCode)).

(** a request sent to one of the two endpoints, with the two language
    arguments as the handler passes them, or the pause between chunks *)
Inductive call : Type :=
| Official (i : nat) (chunk : jsstring) (sl tl : jsval jsstring)
| Alternative (i : nat) (chunk : jsstring) (sl tl : jsval jsstring)
| Pause.

(** [setTextDirection] *)
Definition RLM : N := 0x200F.

Definition setTextDirection (text targetLang : jsstring) : jsstring * jsstring :=
  if decide (targetLang = js "he" \/ targetLang = js "ar") then
    (join [10%N] (map (fun p => if blank p then p else RLM :: p) (Path.split_char 10 text)),
     js "rtl")
  else (text, js "ltr").

Section Endpoints.

(** The answer of each endpoint to the request for chunk number [i];
    [None] when the call throws (network error, status that is not ok). *)
Variable official : nat -> jsstring -> jsval jsstring -> jsval jsstring -> option jsstring.
Variable alternative : nat -> jsstring -> jsval jsstring -> jsval jsstring -> option jsstring.
(** The punctuation pass applied to a Hebrew target text. *)
Variable addHebrewPunctuation : jsstring -> jsstring.

(** the body of the loop for chunk [i]: the text pushed on
    [translatedChunks] and the requests made *)
Definition translate_chunk (sl tl : jsval jsstring) (i : nat) (chunk : jsstring)
  : jsstring * list call :=
  match official i chunk sl tl with
  | Some translatedText => (translatedText, [Official i chunk sl tl])
  | None =>
      match alternative i chunk sl tl with
      | Some translatedText =>
          (translatedText, [Official i chunk sl tl; Alternative i chunk sl tl])
      | None => (chunk, [Official i chunk sl tl; Alternative i chunk sl tl])
      end
  end.

(** the loop over [chunks], from index [i] on *)
Fixpoint translate_from (sl tl : jsval jsstring) (i : nat) (chunks : list jsstring)
  : list jsstring * list call :=
  match chunks with
  | [] => ([], [])
  | chunk :: rest =>
      let '(t, cs) := translate_chunk sl tl i chunk in
      let pause := match rest with [] => [] | _ => [Pause] end in
      let '(ts, cs') := translate_from sl tl (S i) rest in
      (t :: ts, cs ++ pause ++ cs')
  end.

Record translation_run : Type := {
  chunks : list jsstring;
  translatedChunks : list jsstring;
  mergedTranslation : jsstring;
  translation : jsstring;
  direction : jsstring;
  requests : list call
}.

Definition translateWithGoogle (text sourceLang targetLang : jsstring) : translation_run :=
  let chunks := splitText text MAX_CHUNK_SIZE in
  let googleSourceLang := getGoogleLanguageCode sourceLang in
  let googleTargetLang := getGoogleLanguageCode targetLang in
  let '(translated, reqs) := translate_from googleSourceLang googleTargetLang 0 chunks in
  let merged := join (js " ") translated in
  let punctuated :=
    if decide (targetLang = js "he") then addHebrewPunctuation merged else merged in
  let '(formattedText, dir) := setTextDirection punctuated targetLang in
  {| chunks := chunks;
     translatedChunks := translated;
     mergedTranslation := merged;
     translation := formattedText;
     direction := dir;
     requests := reqs |}.

End Endpoints.

End GoogleTranslate.

(** ** The transcription route: progress map, result cache, POST handler *)

Module Transcribe.

Import Resolver LangDetect Path.

Local Open Scope Z_scope.

Definition CACHE_DURATION : Z := 24 * 60 * 60 * 1000.

Module TARGET_LANGUAGES.
Definition HEBREW : jsstring := js "he".
End TARGET_LANGUAGES.

Module PlatformType.
Definition YOUTUBE : jsstring := js "youtube".
End PlatformType.

(** *** Constant texts of the source, as code units *)

(** knownVideos.example123.transcript *)
Definition known_transcript : jsstring :=
  js "This is an example transcript of a known video.".

(** knownVideos.example123.translations.he *)
Definition known_he : jsstring :=
  [1494; 1493; 1492; 1497; 32; 1491; 1493; 1490; 1502; 1492; 32; 1500; 1514; 1502; 1500;
  1493; 1500; 32; 1513; 1500; 32; 1505; 1512; 1496; 1493; 1503; 32; 1497; 1491; 1493;
  1506; 46]%N.

(** knownVideos.example123.translations.ar *)
Definition known_ar : jsstring :=
  [1607; 1584; 1575; 32; 1605; 1579; 1575; 1604; 32; 1593; 1604; 1609; 32; 1575; 1604;
  1606; 1589; 32; 1575; 1604; 1605; 1603; 1578; 1608; 1576; 32; 1604; 1601; 1610; 1583;
  1610; 1608; 32; 1605; 1593; 1585; 1608; 1601; 46]%N.

(** knownVideos.example123.translations.ru *)
Definition known_ru : jsstring :=
  [1069; 1090; 1086; 32; 1087; 1088; 1080; 1084; 1077; 1088; 32; 1090; 1088; 1072; 1085;
  1089; 1082; 1088; 1080; 1087; 1094; 1080; 1080; 32; 1080; 1079; 1074; 1077; 1089; 1090;
  1085; 1086; 1075; 1086; 32; 1074; 1080; 1076; 1077; 1086; 46]%N.

(** knownVideos.example123.translations.es *)
Definition known_es : jsstring :=
  [69; 115; 116; 101; 32; 101; 115; 32; 117; 110; 32; 101; 106; 101; 109; 112; 108; 111;
  32; 100; 101; 32; 116; 114; 97; 110; 115; 99; 114; 105; 112; 99; 105; 243; 110; 32; 100;
  101; 32; 117; 110; 32; 118; 105; 100; 101; 111; 32; 99; 111; 110; 111; 99; 105; 100;
  111; 46]%N.

(** knownVideos.example123.translations.fr *)
Definition known_fr : jsstring :=
  [86; 111; 105; 99; 105; 32; 117; 110; 32; 101; 120; 101; 109; 112; 108; 101; 32; 100;
  101; 32; 116; 114; 97; 110; 115; 99; 114; 105; 112; 116; 105; 111; 110; 32; 100; 39;
  117; 110; 101; 32; 118; 105; 100; 233; 111; 32; 99; 111; 110; 110; 117; 101; 46]%N.

(** knownVideos.example123.translations.de *)
Definition known_de : jsstring :=
  [68; 105; 101; 115; 32; 105; 115; 116; 32; 101; 105; 110; 32; 66; 101; 105; 115; 112;
  105; 101; 108; 32; 102; 252; 114; 32; 100; 105; 101; 32; 84; 114; 97; 110; 115; 107;
  114; 105; 112; 116; 105; 111; 110; 32; 101; 105; 110; 101; 115; 32; 98; 101; 107; 97;
  110; 110; 116; 101; 110; 32; 86; 105; 100; 101; 111; 115; 46]%N.

(** fallbackResponses[0].transcript *)
Definition fallback_transcript : jsstring :=
  [84; 104; 101; 32; 119; 97; 121; 32; 116; 111; 32; 103; 101; 116; 32; 115; 116; 97; 114;
  116; 101; 100; 32; 105; 115; 32; 116; 111; 32; 113; 117; 105; 116; 32; 116; 97; 108;
  107; 105; 110; 103; 32; 97; 110; 100; 32; 98; 101; 103; 105; 110; 32; 100; 111; 105;
  110; 103; 46; 32; 87; 97; 108; 116; 32; 68; 105; 115; 110; 101; 121; 10; 10; 83; 117;
  99; 99; 101; 115; 115; 32; 105; 115; 32; 110; 111; 116; 32; 102; 105; 110; 97; 108; 44;
  32; 102; 97; 105; 108; 117; 114; 101; 32; 105; 115; 32; 110; 111; 116; 32; 102; 97; 116;
  97; 108; 58; 32; 73; 116; 32; 105; 115; 32; 116; 104; 101; 32; 99; 111; 117; 114; 97;
  103; 101; 32; 116; 111; 32; 99; 111; 110; 116; 105; 110; 117; 101; 32; 116; 104; 97;
  116; 32; 99; 111; 117; 110; 116; 115; 46; 32; 87; 105; 110; 115; 116; 111; 110; 32; 67;
  104; 117; 114; 99; 104; 105; 108; 108; 10; 10; 84; 104; 101; 32; 102; 117; 116; 117;
  114; 101; 32; 98; 101; 108; 111; 110; 103; 115; 32; 116; 111; 32; 116; 104; 111; 115;
  101; 32; 119; 104; 111; 32; 98; 101; 108; 105; 101; 118; 101; 32; 105; 110; 32; 116;
  104; 101; 32; 98; 101; 97; 117; 116; 121; 32; 111; 102; 32; 116; 104; 101; 105; 114; 32;
  100; 114; 101; 97; 109; 115; 46; 32; 69; 108; 101; 97; 110; 111; 114; 32; 82; 111; 111;
  115; 101; 118; 101; 108; 116; 10; 10; 76; 105; 102; 101; 32; 105; 115; 32; 119; 104; 97;
  116; 32; 104; 97; 112; 112; 101; 110; 115; 32; 119; 104; 101; 110; 32; 121; 111; 117;
  39; 114; 101; 32; 98; 117; 115; 121; 32; 109; 97; 107; 105; 110; 103; 32; 111; 116; 104;
  101; 114; 32; 112; 108; 97; 110; 115; 46; 32; 74; 111; 104; 110; 32; 76; 101; 110; 110;
  111; 110]%N.

(** fallbackResponses[0].translations.he *)
Definition fallback_he : jsstring :=
  [1492; 1491; 1512; 1498; 32; 1500; 1492; 1514; 1495; 1497; 1500; 32; 1492; 1497; 1488;
  32; 1500; 1492; 1508; 1505; 1497; 1511; 32; 1500; 1491; 1489; 1512; 32; 1493; 1500;
  1492; 1514; 1495; 1497; 1500; 32; 1500; 1506; 1513; 1493; 1514; 46; 32; 1493; 1493;
  1500; 1496; 32; 1491; 1497; 1505; 1504; 1497; 10; 10; 1492; 1492; 1510; 1500; 1495;
  1492; 32; 1488; 1497; 1504; 1492; 32; 1505; 1493; 1508; 1497; 1514; 44; 32; 1492; 1499;
  1497; 1513; 1500; 1493; 1503; 32; 1488; 1497; 1504; 1493; 32; 1511; 1496; 1500; 1504;
  1497; 58; 32; 1494; 1493; 32; 1492; 1488; 1493; 1502; 1509; 32; 1500; 1492; 1502; 1513;
  1497; 1498; 32; 1513; 1504; 1495; 1513; 1489; 46; 32; 1493; 1497; 1504; 1505; 1496;
  1493; 1503; 32; 1510; 39; 1512; 1510; 39; 1497; 1500; 10; 10; 1492; 1506; 1514; 1497;
  1491; 32; 1513; 1497; 1497; 1498; 32; 1500; 1488; 1500; 1492; 32; 1492; 1502; 1488;
  1502; 1497; 1504; 1497; 1501; 32; 1489; 1497; 1493; 1508; 1497; 32; 1513; 1500; 32;
  1495; 1500; 1493; 1502; 1493; 1514; 1497; 1492; 1501; 46; 32; 1488; 1500; 1497; 1504;
  1493; 1512; 32; 1512; 1493; 1494; 1493; 1493; 1500; 1496; 10; 10; 1492; 1495; 1497;
  1497; 1501; 32; 1492; 1501; 32; 1502; 1492; 32; 1513; 1511; 1493; 1512; 1492; 32; 1499;
  1513; 1488; 1514; 1492; 32; 1506; 1505; 1493; 1511; 32; 1489; 1506; 1513; 1497; 1497;
  1514; 32; 1514; 1493; 1499; 1504; 1497; 1493; 1514; 32; 1488; 1495; 1512; 1493; 1514;
  46; 32; 1490; 39; 1493; 1503; 32; 1500; 1504; 1493; 1503]%N.

(** the placeholder of translateWithLocalAI for he *)
Definition placeholder_he : jsstring :=
  [1500; 1488; 32; 1504; 1497; 1514; 1503; 32; 1500; 1514; 1512; 1490; 1501; 32; 1488;
  1514; 32; 1492; 1496; 1511; 1505; 1496; 32; 1499; 1506; 1514; 46; 32; 1504; 1488; 32;
  1500; 1504; 1505; 1493; 1514; 32; 1513; 1493; 1489; 32; 1502; 1488; 1493; 1495; 1512;
  32; 1497; 1493; 1514; 1512; 46]%N.

(** the placeholder of translateWithLocalAI for ar *)
Definition placeholder_ar : jsstring :=
  [1604; 1575; 32; 1610; 1605; 1603; 1606; 32; 1578; 1585; 1580; 1605; 1577; 32; 1575;
  1604; 1606; 1589; 32; 1581; 1575; 1604; 1610; 1611; 1575; 46; 32; 1575; 1604; 1585;
  1580; 1575; 1569; 32; 1575; 1604; 1605; 1581; 1575; 1608; 1604; 1577; 32; 1605; 1585;
  1577; 32; 1571; 1582; 1585; 1609; 32; 1604; 1575; 1581; 1602; 1611; 1575; 46]%N.

(** the placeholder of translateWithLocalAI otherwise *)
Definition placeholder_en : jsstring :=
  js "Unable to translate text at this time. Please try again later.".

Record KnownVideo : Type := {
  kv_transcript : jsstring;
  kv_translations : list (jsstring * jsstring)
}.

Definition knownVideos : list (jsstring * KnownVideo) :=
  [ (js "example123",
     {| kv_transcript := known_transcript;
        kv_translations :=
          [ (js "he", known_he); (js "ar", known_ar); (js "ru", known_ru);
            (js "es", known_es); (js "fr", known_fr); (js "de", known_de) ] |}) ].

(** [fallbackResponses[0]] *)
Definition defaultResponse : KnownVideo :=
  {| kv_transcript := fallback_transcript;
     kv_translations := [ (js "he", fallback_he) ] |}.

Definition fallbackResponses : list KnownVideo := [ defaultResponse ].

(** *** The progress map *)

Record progress_entry : Type := {
  progress : Z;
  step : jsstring;
  p_title : option jsstring;
  p_videoId : option jsstring;
  p_url : option jsstring;
  p_error : option jsstring
}.

(** [{ progress, step }] *)
Definition entry (pr : Z) (st : jsstring) : progress_entry :=
  {| progress := pr; step := st; p_title := None; p_videoId := None;
     p_url := None; p_error := None |}.

(** the optional fourth argument of [updateProgress]: the fields it sets *)
Record progress_data : Type := {
  d_progress : option Z;
  d_step : option jsstring;
  d_title : option jsstring;
  d_videoId : option jsstring;
  d_url : option jsstring;
  d_error : option jsstring
}.

Definition or_else {X : Type} (a b : option X) : option X :=
  match a with
  | Some _ => a
  | None => b
  end.

(** [{ ...old, progress, step, ...data }] *)
Definition merge_entry (old : option progress_entry) (pr : Z) (st : jsstring)
  (data : option progress_data) : progress_entry :=
  let base :=
    match old with
    | Some o => {| progress := pr; step := st; p_title := p_title o;
                   p_videoId := p_videoId o; p_url := p_url o; p_error := p_error o |}
    | None => entry pr st
    end in
  match data with
  | None => base
  | Some d =>
      {| progress := default (progress base) (d_progress d);
         step := default (step base) (d_step d);
         p_title := or_else (d_title d) (p_title base);
         p_videoId := or_else (d_videoId d) (p_videoId base);
         p_url := or_else (d_url d) (p_url base);
         p_error := or_else (d_error d) (p_error base) |}
  end.

(** [parseInt(id)]: leading white space, a sign, an optional hexadecimal
    prefix, then the longest run of digits; [None] is NaN. The value is kept
    exact (identifiers are clock readings, far below 2^53). *)
Definition digit_value (radix : Z) (c : N) : option Z :=
  let v :=
    if is_digit c then Some (Z.of_N c - 48)
    else if is_lower c then Some (Z.of_N c - 97 + 10)
    else if is_upper c then Some (Z.of_N c - 65 + 10)
    else None in
  match v with
  | Some d => if d <? radix then Some d else None
  | None => None
  end.

Fixpoint digits_value (radix : Z) (acc : option Z) (s : jsstring) : option Z :=
  match s with
  | [] => acc
  | c :: t =>
      match digit_value radix c with
      | Some d => digits_value radix (Some (default 0 acc * radix + d)) t
      | None => acc
      end
  end.

Fixpoint skip_space (s : jsstring) : jsstring :=
  match s with
  | c :: t => if is_space c then skip_space t else s
  | [] => []
  end.

Definition parseInt (str : jsstring) : option Z :=
  let s := skip_space str in
  let '(sign, s1) :=
    match s with
    | 45%N :: t => (-1, t)
    | 43%N :: t => (1, t)
    | _ => (1, s)
    end in
  let '(radix, s2) :=
    match s1 with
    | 48%N :: 120%N :: t => (16, t)
    | 48%N :: 88%N :: t => (16, t)
    | _ => (10, s1)
    end in
  match digits_value radix None s2 with
  | Some v => Some (sign * v)
  | None => None
  end.

Definition DAY : Z := 24 * 60 * 60 * 1000.

(** [parseInt(id) < now - 24 * 60 * 60 * 1000] *)
Definition expired (now : Z) (id : jsstring) : bool :=
  match parseInt id with
  | Some t => t <? now - DAY
  | None => false
  end.

(** [updateProgress(requestId, progress, step, data)]; [now] is the clock
    reading of the sweep. *)
Definition updateProgress (now : Z) (requestId : jsstring) (pr : Z) (st : jsstring)
  (data : option progress_data) (m : gmap (list N) progress_entry)
  : gmap (list N) progress_entry :=
  let m1 := <[requestId := merge_entry (m !! requestId) pr st data]> m in
  filter (fun kv => expired now (fst kv) = false) m1.

(** *** The server state and the outside world *)

Inductive tool : Type :=
| GetTitle | YtDlp | PythonDownloader | PythonShellTranscriber | DirectTranscriber
| NllbApi | GoogleApi.

(** [translation] is a string on every path but two: the table of known
    videos and the prepared translations are plain objects read with the
    requested language as the key. *)
Record result : Type := {
  success : bool;
  transcript : jsstring;
  translation : jsval jsstring;
  detectedLanguage : jsstring;
  title : jsstring;
  audioPath : option jsstring
}.

Record server : Type := {
  transcriptionProgress : gmap (list N) progress_entry;
  transcriptionCache : gmap (list N) (result * Z);
  tempVideoId : option jsstring;
  calls : list tool
}.

Inductive payload : Type :=
| Result (r : result)
| Failure (error : jsstring).

Record response : Type := { status : nat; body : payload }.

(** what the transcriber prints, parsed: a falsy value is [None] *)
Record tresult : Type := {
  tr_success : bool;
  tr_transcript : option jsstring;
  tr_language : option jsstring;
  tr_error : option jsstring
}.

(** Everything one request reads from outside the process. An option
    stands for a call that can throw ([None]); the clock is read once at
    each of the places named. *)
Record world : Type := {
  (* os.tmpdir() *)
  tmpdir : jsstring;
  (* Date.now() at the entry of the handler: the request identifier *)
  t_request : Z;
  (* Date.now() in the test of the cached entry *)
  t_cache : Z;
  (* the clock and the random source read by extractYouTubeVideoId in POST *)
  id_env : env;
  (* the same, read by extractVideoId in processYouTubeVideo *)
  id_env2 : env;
  (* Date.now() in the identifier unknown_... *)
  t_unknown : Z;
  (* Date.now() when a result is stored in the cache *)
  t_store : Z;
  (* fs.promises.mkdir(tempDir): the message of the error, if it throws *)
  mkdir_error : option jsstring;
  (* the trimmed output of the title command; None: the command fails *)
  title_stdout : option jsstring;
  (* the first download command succeeds *)
  ytdlp_ok : bool;
  (* the fallback downloader script is on disk *)
  script_exists : bool;
  (* the fallback downloader: None, it throws; Some None, its output is not
     JSON; Some (Some (success, audioPath)), its parsed output *)
  python_download : option (option (bool * option jsstring));
  (* fs.existsSync after the download attempts *)
  file_exists : jsstring -> bool;
  (* fs.readdirSync(tempDir), and the message of its error *)
  readdir : option (list jsstring);
  readdir_error : jsstring;
  (* PythonShell.run('transcriber.py'): the parsed results *)
  python_shell : option (list (option tresult));
  (* the direct run of the transcriber: None, it throws; Some None, its
     output is not JSON; Some (Some v), its parsed output *)
  direct_exec : option (option (option tresult));
  (* the two translation routes called by translateWithLocalAI, on a text
     and a target language: the translation, when the call succeeds *)
  nllb_api : jsstring -> jsstring -> option jsstring;
  google_api : jsstring -> jsstring -> option jsstring;
  (* the message of the TypeError that the runtime raises when the property
     named by the argument is read from undefined *)
  type_error : jsstring -> jsstring
}.

Record request : Type := {
  url : option jsstring;
  targetLanguage : option jsstring;
  platformType : option jsstring
}.

(** [transcriptionProgress[requestId] = e]; on every path from the handler
    [requestId] is the decimal rendering of the clock *)
Definition set_progress (requestId : jsstring) (e : progress_entry) (s : server) : server :=
  {| transcriptionProgress := <[requestId := e]> (transcriptionProgress s);
     transcriptionCache := transcriptionCache s;
     tempVideoId := tempVideoId s;
     calls := calls s |}.

Definition set_cache (key : jsstring) (data : result) (timestamp : Z) (s : server) : server :=
  {| transcriptionProgress := transcriptionProgress s;
     transcriptionCache := <[key := (data, timestamp)]> (transcriptionCache s);
     tempVideoId := tempVideoId s;
     calls := calls s |}.

Definition set_tempVideoId (id : jsstring) (s : server) : server :=
  {| transcriptionProgress := transcriptionProgress s;
     transcriptionCache := transcriptionCache s;
     tempVideoId := Some id;
     calls := calls s |}.

Definition invoke (t : tool) (s : server) : server :=
  {| transcriptionProgress := transcriptionProgress s;
     transcriptionCache := transcriptionCache s;
     tempVideoId := tempVideoId s;
     calls := calls s ++ [t] |}.

(** a string that is not empty, or nothing: the operand of [x || y] *)
Definition truthy (x : option jsstring) : option jsstring :=
  match x with
  | Some (_ :: _) => x
  | _ => None
  end.

(** [GET]: the progress of a request,
    [NextResponse.json(transcriptionProgress[requestId] || { progress: 0, step: ... })].
    Handed an entry, the call answers 200 with it. Handed a value that the
    map inherits, which is not an entry, what it answers is left to the
    framework: [json_status name] is the status in that case. *)
Definition GET (json_status : jsstring -> nat) (requestId : option jsstring) (s : server)
  : nat * option (jsval progress_entry) :=
  match truthy requestId with
  | None => (400%nat, None)
  | Some id =>
      match read (transcriptionProgress s !! id) id with
      | Some (Val e) => (200%nat, Some (Val e))
      | Some (Inherited name) => (json_status name, Some (Inherited name))
      | None =>
          (200%nat, Some (Val (entry 0 [1500; 1488; 32; 1492; 1514; 1495; 1497; 1500]%N)))
      end
  end.

(** *** Translation of the transcript by the local-model route, then the
    remote-provider route, then a placeholder. Each oracle answers with
    the translation when the request succeeds with a translation that is
    not empty. *)

Definition placeholder (targetLang : jsstring) : jsstring :=
  if decide (targetLang = js "he") then placeholder_he
  else if decide (targetLang = js "ar") then placeholder_ar
  else placeholder_en.

Definition translateWithLocalAI (w : world) (text targetLang : jsstring) (s : server)
  : jsstring * server :=
  let s1 := invoke NllbApi s in
  match truthy (nllb_api w text targetLang) with
  | Some t => (t, s1)
  | None =>
      let s2 := invoke GoogleApi s1 in
      match truthy (google_api w text targetLang) with
      | Some t => (t, s2)
      | None => (placeholder targetLang, s2)
      end
  end.

(** *** Content extraction for a YouTube URL *)

Record presult : Type := {
  r_success : bool;
  r_transcript : option jsstring;
  r_title : option jsstring;
  r_language : option jsstring;
  r_error : option jsstring;
  r_audioPath : jsstring
}.

Definition failed (error audio : jsstring) : presult :=
  {| r_success := false; r_transcript := None; r_title := None; r_language := None;
     r_error := Some error; r_audioPath := audio |}.

Definition possibleExtensions : list jsstring :=
  [js ".mp3"; js ".m4a"; js ".wav"; js ".opus"].

(** [getTitleAsync(url) || `Video ${videoId}`]; the oracle is the trimmed
    output of the title command *)
Definition get_title (w : world) (videoId : jsstring) : jsstring :=
  match title_stdout w with
  | Some [] => js "Video " ++ videoId
  | Some t => t
  | None => js "YouTube Video"
  end.

(** the download attempts: the audio path after them, and the tools run *)
Definition download (w : world) (audioFilePath : jsstring) (s : server) : jsstring * server :=
  let s1 := invoke YtDlp s in
  if ytdlp_ok w then (audioFilePath, s1)
  else if script_exists w then
    let s2 := invoke PythonDownloader s1 in
    match python_download w with
    | Some (Some (true, Some (c :: p))) => (c :: p, s2)
    | _ => (audioFilePath, s2)
    end
  else (audioFilePath, s1).

(** the first expected path that exists *)
Definition find_expected (w : world) (audioPathBase : jsstring) : option jsstring :=
  List.find (file_exists w) (map (fun ext => audioPathBase ++ ext) possibleExtensions).

(** the files of the directory that carry the identifier and an audio extension *)
Definition possibleAudioFiles (tempDir videoId : jsstring) (files : list jsstring)
  : list jsstring :=
  map (path_join tempDir)
      (List.filter (fun file =>
                 includes videoId file && existsb (fun ext => endsWith ext file) possibleExtensions)
              files).

(** the two ways of running the transcriber *)
Definition transcribe (w : world) (s : server) : option tresult * server :=
  let s1 := invoke PythonShellTranscriber s in
  match python_shell w with
  | Some (r0 :: _) => (r0, s1)
  | Some [] => (None, s1)
  | None =>
      let s2 := invoke DirectTranscriber s1 in
      match direct_exec w with
      | Some (Some r) => (r, s2)
      | _ => (None, s2)
      end
  end.

(** the part of [processYouTubeVideo] after the audio file was found *)
Definition transcribe_found (w : world) (requestId title audioFilePath : jsstring) (s : server)
  : presult * server :=
  let s1 := set_progress requestId (entry 40 (js "Transcribing audio")) s in
  let '(tr, s2) := transcribe w s1 in
  match tr with
  | Some {| tr_success := true; tr_transcript := Some (c :: t); tr_language := lang |} =>
      ({| r_success := true; r_transcript := Some (c :: t); r_title := Some title;
          r_language := Some (default (js "en") (truthy lang));
          r_error := None; r_audioPath := audioFilePath |},
       set_progress requestId (entry 80 (js "Finalizing transcript")) s2)
  | _ =>
      (failed (default (js "Transcription failed")
                       (truthy (match tr with Some r => tr_error r | None => None end)))
              audioFilePath,
       s2)
  end.

(** [processYouTubeVideo(url, tempDir, requestId)]. The directory exists
    when the function is entered (the caller created it). *)
Definition processYouTubeVideo (w : world) (url tempDir requestId : jsstring) (s : server)
  : presult * server :=
  let videoId :=
    default (js "unknown_" ++ dec (t_unknown w))
            (truthy (extractVideoId (id_env2 w) (Some url) PlatformType.YOUTUBE)) in
  let audioPathBase := path_join tempDir videoId in
  let title := get_title w videoId in
  let s1 := invoke GetTitle s in
  let s2 := set_progress requestId (entry 10 (js "Downloading YouTube audio")) s1 in
  let '(audioFilePath, s3) := download w (audioPathBase ++ js ".mp3") s2 in
  match find_expected w audioPathBase with
  | Some found => transcribe_found w requestId title found s3
  | None =>
      match readdir w with
      | None =>
          (* readdirSync throws: the catch of the function *)
          (failed (readdir_error w) audioFilePath,
           match requestId with
           | [] => s3
           | _ =>
               set_progress requestId
                 {| progress := 0; step := js "Failed"; p_title := None; p_videoId := None;
                    p_url := None; p_error := Some (readdir_error w) |} s3
           end)
      | Some files =>
          match possibleAudioFiles tempDir videoId files with
          | found :: _ => transcribe_found w requestId title found s3
          | [] => (failed (js "Failed to download audio file") audioFilePath, s3)
          end
      end
  end.

(** *** The fallback answer *)

(** [fallbackResponses[Math.floor(Math.random() * fallbackResponses.length)]]:
    the index is 0 whatever the random number, the list having one element *)
Definition getRandomFallbackResponse : KnownVideo :=
  default defaultResponse (fallbackResponses !! 0%nat).

(** the prepared translation of the first fallback response:
    [targetLanguage in translations ? translations[targetLanguage]
                                    : translations['he'] || transcript] *)
Definition prepared (transcript targetLanguage : jsstring) : jsval jsstring :=
  let translations := kv_translations defaultResponse in
  match read (lookup_key targetLanguage translations) targetLanguage with
  | Some v => v
  | None =>
      default (Val transcript)
              (truthy_value (read (lookup_key (js "he") translations) (js "he")))
  end.

(** [translateFallback(transcript, targetLanguage)]; [None]: it throws.
    When [knownVideos[currentVideoId]] is an inherited value, its
    [translations] is undefined and the read of [targetLanguage] from it
    raises a TypeError. *)
Definition translateFallback (transcript targetLanguage : jsstring) (s : server)
  : option (jsval jsstring) :=
  match truthy (tempVideoId s) with
  | Some currentVideoId =>
      match read (lookup_key currentVideoId knownVideos) currentVideoId with
      | Some (Val kv) =>
          match truthy_value (read (lookup_key targetLanguage (kv_translations kv))
                                   targetLanguage) with
          | Some v => Some v
          | None => Some (prepared transcript targetLanguage)
          end
      | Some (Inherited _) => None
      | None => Some (prepared transcript targetLanguage)
      end
  | None => Some (prepared transcript targetLanguage)
  end.

(** *** The POST handler *)

Definition reply (code : nat) (r : result) : response := {| status := code; body := Result r |}.
Definition refuse (code : nat) (msg : jsstring) : response :=
  {| status := code; body := Failure msg |}.

(** the part of the handler after content extraction *)
Definition finish (w : world) (requestId cacheKey : jsstring) (req : request)
  (tr : presult) (s : server) : response * server :=
  let target := default TARGET_LANGUAGES.HEBREW (truthy (targetLanguage req)) in
  if negb (r_success tr) then
    let fallback := getRandomFallbackResponse in
    let s1 := set_progress requestId (entry 100 (js "Completed with fallback")) s in
    match translateFallback (kv_transcript fallback) target s1 with
    | Some translated =>
        (reply 200
           {| success := true;
              transcript := kv_transcript fallback;
              translation := translated;
              detectedLanguage := js "en";
              title := js "Could not extract video content - using fallback";
              audioPath := Some (r_audioPath tr) |},
         s1)
    | None =>
        (* the catch of the handler *)
        (refuse 500 (type_error w target), s1)
    end
  else
    let s1 := set_progress requestId (entry 70 (js "Detecting language")) s in
    let text := default [] (truthy (r_transcript tr)) in
    let detected := default (detectLanguage text) (truthy (r_language tr)) in
    let '(translated, s3) :=
      match truthy (targetLanguage req) with
      | Some tl =>
          if decide (tl = detected) then ([], s1)
          else
            let s2 := set_progress requestId (entry 80 (js "Translating content")) s1 in
            match text with
            | [] => ([], s2)
            | _ => translateWithLocalAI w text tl s2
            end
      | None => ([], s1)
      end in
    let s4 := set_progress requestId (entry 100 (js "Process completed")) s3 in
    let r :=
      {| success := true; transcript := text; translation := Val translated;
         detectedLanguage := detected;
         title := default (js "Video Transcription") (truthy (r_title tr));
         audioPath := None |} in
    (reply 200 r, set_cache cacheKey r (t_store w) s4).

(** the part of the handler after the cache test. [knownVideos[videoId]]
    is read with the identifier of the URL as the key: an own entry of the
    table is served; an inherited value is truthy as well, but its
    [translations] is undefined, and the read of the target language from it
    raises a TypeError, which the catch of the handler answers with 500. *)
Definition run (w : world) (requestId cacheKey u : jsstring) (req : request) (s : server)
  : response * server :=
  let target := default TARGET_LANGUAGES.HEBREW (truthy (targetLanguage req)) in
  let youtube := bool_decide (platformType req = Some PlatformType.YOUTUBE) in
  let videoId := extractYouTubeVideoId (id_env w) (Some u) in
  let s1 := if youtube then set_tempVideoId videoId s else s in
  match (if youtube then read (lookup_key videoId knownVideos) videoId else None) with
  | Some (Val knownVideo) =>
      let r :=
        {| success := true;
           transcript := kv_transcript knownVideo;
           translation :=
             default (Val [])
                     (truthy_value (read (lookup_key target (kv_translations knownVideo))
                                         target));
           detectedLanguage := js "en";
           title := js "Known Video (" ++ videoId ++ js ")";
           audioPath := None |} in
      (reply 200 r,
       set_progress requestId (entry 100 (js "Retrieved known video"))
         (set_cache cacheKey r (t_store w) s1))
  | Some (Inherited _) => (refuse 500 (type_error w target), s1)
  | None =>
      let s2 := set_progress requestId (entry 10 (js "Starting download process")) s1 in
      let tempDir := path_join (tmpdir w) (js "video_transcriptions") in
      match mkdir_error w with
      | Some msg => (refuse 500 msg, s2)
      | None =>
          let s3 := set_progress requestId (entry 15 (js "Extracting content")) s2 in
          if youtube then
            let '(tr, s4) := processYouTubeVideo w u tempDir requestId s3 in
            finish w requestId cacheKey req tr s4
          else
            (refuse 500 (js "Unsupported platform: "
                           ++ default (js "undefined") (platformType req)),
             s3)
      end
  end.

(** [POST(req)]; [None] is a body that is not JSON ([json_error] is the
    message of the exception). *)
Definition POST (w : world) (json_error : jsstring) (parsed : option request) (s : server)
  : response * server :=
  let requestId := dec (t_request w) in
  match parsed with
  | None => (refuse 500 json_error, s)
  | Some req =>
      match truthy (url req) with
      | None => (refuse 400 (js "URL is required"), s)
      | Some u =>
          match requestId with
          | [] => (refuse 400 (js "Request ID is required"), s)
          | _ =>
              let s1 := set_progress requestId (entry 1 (js "Starting process")) s in
              let target := default TARGET_LANGUAGES.HEBREW (truthy (targetLanguage req)) in
              let cacheKey := u ++ js "_" ++ target in
              match transcriptionCache s1 !! cacheKey with
              | Some (data, timestamp) =>
                  if t_cache w - timestamp <? CACHE_DURATION then
                    (reply 200 data,
                     set_progress requestId (entry 100 (js "Retrieved from cache")) s1)
                  else run w requestId cacheKey u req s1
              | None => run w requestId cacheKey u req s1
              end
          end
      end
  end.

End Transcribe.

(** ** The cleanup route *)

Module Cleanup.

Local Open Scope Z_scope.

(** A directory entry: what [readdir] and [stat] tell about it. Sizes are
    in bytes, times in milliseconds. *)
Record file : Type := {
  name : jsstring;
  isDirectory : bool;
  size : Z;
  mtimeMs : Z
}.

(** The two directories the route looks at; [None]: the directory is
    missing. *)
Record disk : Type := {
  videoTempDir : option (list file);
  appTempDir : option (list file)
}.

Record result : Type := { deletedFiles : nat; freedSpace : Z }.

Inductive payload : Type :=
| Cleaned (r : result)
| Failure (error : jsstring).

Record response : Type := { status : nat; body : payload }.

Definition mediaExtensions : list jsstring :=
  [js ".mp3"; js ".mp4"; js ".wav"; js ".webm"; js ".m4a"; js ".ogg"; js ".flac";
   js ".txt"; js ".vtt"; js ".srt"; js ".json"].

Definition isTemporaryMediaFile (filename : jsstring) : bool :=
  existsb (fun ext => endsWith ext filename) mediaExtensions.

(** [result.deletedFiles++; result.freedSpace += fileSize] *)
Definition count (f : file) (r : result) : result :=
  {| deletedFiles := S (deletedFiles r); freedSpace := freedSpace r + size f |}.

(** the test of the first loop, directories excluded *)
Definition video_doomed (requestId : jsstring) (f : file) : bool :=
  (includes requestId (name f) || isTemporaryMediaFile (name f)) && negb (isDirectory f).

(** one round of the first loop: the entries kept so far and the counters *)
Definition video_step (requestId : jsstring) (st : list file * result) (f : file)
  : list file * result :=
  let '(kept, r) := st in
  if video_doomed requestId f then (kept, count f r) else (kept ++ [f], r).

(** the test of the second loop; [now] is the clock reading of the round.
    Unlinking a directory throws, which the loop catches. *)
Definition app_doomed (now : Z) (f : file) : bool :=
  (60 * 60 * 1000 <? now - mtimeMs f) && negb (isDirectory f).

(** one round of the second loop; round [k] reads the clock at [clock k] *)
Definition app_step (clock : nat -> Z) (st : nat * list file * result) (f : file)
  : nat * list file * result :=
  let '(k, kept, r) := st in
  if app_doomed (clock k) f then (S k, kept, count f r) else (S k, kept ++ [f], r).

(** [POST(req)]; [parsed = None]: the body is not JSON. *)
Definition POST (clock : nat -> Z) (parsed : option (option jsstring)) (d : disk)
  : response * disk :=
  match parsed with
  | None =>
      ({| status := 500; body := Failure (js "Server error during cleanup") |}, d)
  | Some rid =>
      match rid with
      | None | Some [] =>
          ({| status := 400; body := Failure (js "Missing requestId parameter") |}, d)
      | Some requestId =>
          let zero := {| deletedFiles := 0; freedSpace := 0 |} in
          match videoTempDir d with
          | None => ({| status := 200; body := Cleaned zero |}, d)
          | Some files =>
              let '(kept, r1) := fold_left (video_step requestId) files ([], zero) in
              match appTempDir d with
              | None =>
                  ({| status := 200; body := Cleaned r1 |},
                   {| videoTempDir := Some kept; appTempDir := None |})
              | Some tempFiles =>
                  let '(_, kept2, r2) :=
                    fold_left (app_step clock) tempFiles (O, [], r1) in
                  ({| status := 200; body := Cleaned r2 |},
                   {| videoTempDir := Some kept; appTempDir := Some kept2 |})
              end
          end
      end
  end.

End Cleanup.

(** ** The download route *)

Module Download.

Import Path.

(** What the route reads from the file system. [inl msg]: the call throws
    with that message. *)
Record fsys : Type := {
  existsSync : jsstring -> bool;
  stat_isFile : jsstring -> jsstring + bool;
  readFile : jsstring -> jsstring + list N
}.

Inductive payload : Type :=
| Json (error : jsstring)
| Bytes (data : list N).

Record response : Type := {
  status : nat;
  contentType : jsstring;
  disposition : option jsstring;
  body : payload
}.

Definition json_error (code : nat) (msg : jsstring) : response :=
  {| status := code; contentType := js "application/json"; disposition := None;
     body := Json msg |}.

Definition quote : jsstring := [34%N].

Definition attachment (fileName : jsstring) : option jsstring :=
  Some (js "attachment; filename=" ++ quote ++ fileName ++ quote).

(** the pattern of the path check: at the start, one or more of two dots
    followed by a slash, a backslash or the end *)
Definition leading_dotdot : regex :=
  Seq Bol (Plus (Group 1 (Seq (lits "..") (Group 2 (alts [lits "/"; lit 92; Eol]))))).

(** [s.replace(pattern, '')] for a pattern without the g flag *)
Definition remove_first (pattern : regex) (s : jsstring) : jsstring :=
  match exec pattern s with
  | Some (i, j, _) => take i s ++ drop j s
  | None => s
  end.

Definition normalizedPath (filePath : jsstring) : jsstring :=
  remove_first leading_dotdot (normalize filePath).

Definition emptyMp3Buffer : list N :=
  [0xFF; 0xFB; 0x90; 0x44; 0; 0; 0; 0; 0; 0; 0; 0; 0; 0; 0; 0]%N.

(** [fileName.split('.')[0]] *)
Definition possibleYouTubeId (p : jsstring) : jsstring :=
  default [] (head (split_char 46 (basename p))).

(** the alternative path, when the name looks like an identifier *)
Definition alternativePath (p : jsstring) : option jsstring :=
  let id := possibleYouTubeId p in
  if (8 <? length id)%nat && (length id <? 20)%nat
  then Some (path_join (js "/tmp/video_transcriptions") (id ++ js ".mp3"))
  else None.

Definition content_type (p : jsstring) : jsstring :=
  let extension := toLowerCase (extname p) in
  if decide (extension = js ".mp3") then js "audio/mpeg"
  else if decide (extension = js ".wav") then js "audio/wav"
  else if decide (extension = js ".txt") then js "text/plain"
  else if decide (extension = js ".json") then js "application/json"
  else js "application/octet-stream".

(** a string that is not empty, or nothing *)
Definition given (x : option jsstring) : option jsstring :=
  match x with
  | Some (_ :: _) => x
  | _ => None
  end.

Definition serve (fs : fsys) (p : jsstring) (ctype : jsstring) (fileName : jsstring) : response :=
  match readFile fs p with
  | inl msg => json_error 500 (js "Error downloading file")
  | inr data =>
      {| status := 200; contentType := ctype; disposition := attachment fileName;
         body := Bytes data |}
  end.

(** [GET(request)] with the two query parameters *)
Definition GET (fs : fsys) (path filename : option jsstring) : response :=
  match given path with
  | None => json_error 400 (js "File path is required")
  | Some filePath =>
      let p := normalizedPath filePath in
      if includes (js "..") p then json_error 400 (js "Invalid file path")
      else if negb (existsSync fs p) then
        match alternativePath p with
        | Some alt =>
            if existsSync fs alt
            then serve fs alt (js "audio/mpeg") (default (basename alt) (given filename))
            else {| status := 200; contentType := js "audio/mpeg";
                    disposition := attachment (js "empty_audio.mp3");
                    body := Bytes emptyMp3Buffer |}
        | None =>
            {| status := 200; contentType := js "audio/mpeg";
               disposition := attachment (js "empty_audio.mp3");
               body := Bytes emptyMp3Buffer |}
        end
      else
        match stat_isFile fs p with
        | inl msg => json_error 500 (js "Error downloading file")
        | inr false => json_error 400 (js "Path is not a file")
        | inr true => serve fs p (content_type p) (default (basename p) (given filename))
        end
  end.

End Download.

(** ** The local-model translation route: the progress entry of a request *)

Module LocalTranslate.

Local Open Scope Z_scope.

(** what the translation script prints on its last line, parsed *)
Record pyresult : Type := {
  success_is_false : bool;
  py_error : option jsstring;
  py_translation : option jsstring
}.

Inductive payload : Type :=
| Translated (r : pyresult)
| Failure (error : jsstring).

Record response : Type := { status : nat; body : payload }.

(** The process of the route: the progress map, and for the request being
    served the last message of the script and the response once resolved. *)
Record node : Type := {
  translationProgress : gmap (list N) Z;
  result : jsstring;
  resolved : option response
}.

(** what the script's process emits *)
Inductive event : Type :=
| Stderr (line : jsstring)
| Message (message : jsstring)
| Error (message : jsstring)
| Close.

(** the pattern of a progress line: the words Translation progress, a
    colon, a space, digits (group 1) and a percent sign *)
Definition progress_line : regex :=
  seqs [lits "Translation progress: "; Group 1 (Plus (Chr is_digit)); lits "%"].

(** [resolve(r)]: a promise keeps its first resolution *)
Definition resolve (r : response) (n : node) : node :=
  match resolved n with
  | Some _ => n
  | None =>
      {| translationProgress := translationProgress n; result := result n;
         resolved := Some r |}
  end.

(** [translationProgress[requestId] = v] for a number [v]: under the name
    [__proto__] the assignment reaches the setter of the prototype, which
    ignores a number, and no entry is written *)
Definition set_entry (requestId : jsstring) (v : Z) (n : node) : node :=
  if decide (requestId = js "__proto__") then n
  else
    {| translationProgress := <[requestId := v]> (translationProgress n);
       result := result n; resolved := resolved n |}.

(** [delete translationProgress[requestId]] *)
Definition delete_entry (requestId : jsstring) (n : node) : node :=
  {| translationProgress := delete requestId (translationProgress n);
     result := result n; resolved := resolved n |}.

Definition no_result : pyresult :=
  {| success_is_false := true; py_error := Some (js "No result"); py_translation := None |}.

Section Handlers.

(** [JSON.parse] on the script's output; [None]: it throws *)
Variable JSON_parse : jsstring -> option pyresult.

(** [JSON.parse] of the output of the script; an empty output stands for
    the failure object whose error is No result *)
Definition parse_output (out : jsstring) : option pyresult :=
  match out with
  | [] => Some no_result
  | _ => JSON_parse out
  end.

(** the four listeners of the script's process *)
Definition on_event (requestId : jsstring) (ev : event) (n : node) : node :=
  match ev with
  | Stderr line =>
      match Resolver.capture progress_line 1 line with
      | Some (c :: ds) =>
          set_entry requestId (default 0 (Transcribe.digits_value 10 None (c :: ds))) n
      | _ => n
      end
  | Message message =>
      {| translationProgress := translationProgress n; result := message;
         resolved := resolved n |}
  | Error message =>
      resolve {| status := 500; body := Failure (js "Translation failed") |}
              (delete_entry requestId n)
  | Close =>
      match parse_output (result n) with
      | Some parsedResult =>
          if success_is_false parsedResult then
            resolve {| status := 500;
                       body := Failure (default (js "Translation failed")
                                                (Transcribe.truthy (py_error parsedResult))) |}
                    (delete_entry requestId n)
          else
            resolve {| status := 200; body := Translated parsedResult |}
                    (delete_entry requestId n)
      | None =>
          resolve {| status := 500; body := Failure (js "Failed to parse translation result") |}
                  (delete_entry requestId n)
      end
  end.

(** the body of a translation request *)
Record request : Type := {
  text : option jsstring;
  requestId : option jsstring
}.

(** [requestId = Date.now().toString()] when the body has none *)
Definition request_id (now : Z) (req : request) : jsstring :=
  default (dec now) (requestId req).

(** The handler up to the start of the script. [script_exists]: the
    translator script is on disk; [spawn_ok]: creating the process does not
    throw. The route serves one request on a fresh promise. *)
Definition start (now : Z) (script_exists spawn_ok : bool) (req : request) (n : node) : node :=
  let fresh :=
    {| translationProgress := translationProgress n; result := []; resolved := None |} in
  match Transcribe.truthy (text req) with
  | None => resolve {| status := 400; body := Failure (js "Text is required") |} fresh
  | Some _ =>
      if negb script_exists
      then resolve {| status := 500; body := Failure (js "Translation script not found") |} fresh
      else
        let n1 := set_entry (request_id now req) 1 fresh in
        if spawn_ok then n1
        else resolve {| status := 500; body := Failure (js "Internal server error") |} n1
  end.

(** [POST(req)] followed by the events of the script's process, in order *)
Definition POST (now : Z) (script_exists spawn_ok : bool) (req : request)
  (events : list event) (n : node) : node :=
  let n1 := start now script_exists spawn_ok req n in
  match resolved n1 with
  | Some _ => n1
  | None => fold_left (fun st ev => on_event (request_id now req) ev st) events n1
  end.

End Handlers.

(** [GET]: the progress of a request, [translationProgress[requestId] || 0];
    an entry that holds 0 and a missing entry both give 0, a name that the
    map inherits gives the inherited value *)
Definition GET (requestId : option jsstring) (n : node) : nat * option (jsval Z) :=
  match Transcribe.truthy requestId with
  | None => (400%nat, None)
  | Some id => (200%nat, Some (default (Val 0) (read (translationProgress n !! id) id)))
  end.

(** the events that end a request *)
Definition terminal (ev : event) : bool :=
  match ev with
  | Error _ | Close => true
  | _ => false
  end.

End LocalTranslate.

(** ** Cleaning of a transcript (transcription route) *)

Module Transcript.

(** The value of [calculateSimilarity]: the quotient
    [matches / longer.length], kept as an exact fraction. The source only
    compares it with 0.7; on the fractions that occur (a denominator below
    2^53) the comparison of the rounded quotient with the rounded 0.7 and
    the comparison of the exact values agree. *)
Record ratio : Type := { matches : nat; out_of : nat }.

(** [x > 0.7] and [x < 0.7] *)
Definition above_0_7 (x : ratio) : bool := 7 * out_of x <? 10 * matches x.
Definition below_0_7 (x : ratio) : bool := 10 * matches x <? 7 * out_of x.

Definition calculateSimilarity (a b : jsstring) : ratio :=
  match a, b with
  | [], _ | _, [] => {| matches := 0; out_of := 1 |}
  | _, _ =>
      if decide (a = b) then {| matches := 1; out_of := 1 |}
      else
        let longer := if length b <? length a then a else b in
        let shorter := if length b <? length a then b else a in
        {| matches :=
             length (List.filter (fun i => bool_decide (shorter !! i = longer !! i))
                                 (seq 0 (length shorter)));
           out_of := length longer |}
  end.

(** [s.replace(pattern, replacement)] for a pattern with the g flag and a
    replacement without dollar signs. [at_position i] is one attempt of the
    pattern at position [i]: the end of the match. The scan looks for the
    leftmost match from [i] on, copies the text from [p] to the match and the
    replacement, and goes on after the match (one character further after an
    empty match). *)
Section Replace.

Variable at_position : nat -> option nat.
Variable s : jsstring.
Variable replacement : jsstring.

(** the leftmost match at or after [i], trying [S n] positions *)
Fixpoint find (n i : nat) : option (nat * nat) :=
  match at_position i with
  | Some e => Some (i, e)
  | None =>
      match n with
      | O => None
      | S n' => find n' (S i)
      end
  end.

Fixpoint replace_loop (fuel i p : nat) : jsstring :=
  match fuel with
  | O => drop p s
  | S fuel' =>
      if length s <? i then drop p s
      else
        match find (length s - i) i with
        | None => drop p s
        | Some (a, e) =>
            substring p a s ++ replacement
              ++ replace_loop fuel' (if e =? a then S e else e) e
        end
  end.

Definition replace_with : jsstring := replace_loop (length s + 1) 0 0.

End Replace.

(** a pattern of the dialect embedded before *)
Definition plain (r : regex) (s : jsstring) (i : nat) : option nat :=
  match match_at s r i with
  | Some (e, _) => Some e
  | None => None
  end.

(** [s.replace(r, replacement)] with the g flag *)
Definition replaceAll (r : regex) (replacement s : jsstring) : jsstring :=
  replace_with (plain r s) s replacement.

(** The end of a line, as the dollar sign of a pattern with the m flag
    sees it: the end of the text, or a line terminator next. *)
Definition line_end (s : jsstring) (j : nat) : bool :=
  match s !! j with
  | Some ch => is_newline ch
  | None => true
  end.

(** the start of a line, as the caret of a pattern with the m flag sees it *)
Definition line_start : regex := Alt Bol (Behind is_newline).

(** [/^\d+$/gm]: the dollar sign, the last term of the pattern, is the
    test that the continuation of the digits makes *)
Definition line_of_digits (s : jsstring) (i : nat) : option nat :=
  m s (Seq line_start (Plus (Chr is_digit))) i no_caps
    (fun j _ => if line_end s j then Some j else None).

(** [\d+:\d+:\d+] *)
Definition clock_digits : list regex :=
  [Plus (Chr is_digit); lits ":"; Plus (Chr is_digit); lits ":"; Plus (Chr is_digit)].

(** [/\d+:\d+:\d+\.\d+\s*-->\s*\d+:\d+:\d+\.\d+/] and the same with a
    comma for the dot *)
Definition timestamps (fraction : string) : regex :=
  seqs (clock_digits ++ [lits fraction; Plus (Chr is_digit);
                         Star true (Chr is_space); lits "-->"; Star true (Chr is_space)]
        ++ clock_digits ++ [lits fraction; Plus (Chr is_digit)]).

(** [/<[^>]*>/] *)
Definition tag : regex := seqs [lits "<"; Star true (Chr (noneof ">")); lits ">"].

(** [/\n\s*\n/] *)
Definition blank_lines : regex := seqs [lit 10; Star true (Chr is_space); lit 10].

(** [/\s{2,}/] *)
Definition spaces : regex := Seq (Chr is_space) (Plus (Chr is_space)).

(** [/align:(start|middle|end)\s*position:\d+%/] *)
Definition alignment : regex :=
  seqs [lits "align:"; Group 1 (alts [lits "start"; lits "middle"; lits "end"]);
        Star true (Chr is_space); lits "position:"; Plus (Chr is_digit); lits "%"].

(** [/WEBVTT\s*FILE/] *)
Definition webvtt_file : regex := seqs [lits "WEBVTT"; Star true (Chr is_space); lits "FILE"].

(** the chain of replacements of [cleanTranscript] *)
Definition strip_markup (transcript : jsstring) : jsstring :=
  let s1 := replaceAll (timestamps ".") [] transcript in
  let s2 := replaceAll (timestamps ",") [] s1 in
  let s3 := replace_with (line_of_digits s2) s2 [] in
  let s4 := replaceAll tag [] s3 in
  let s5 := replaceAll blank_lines [10%N] s4 in
  let s6 := replaceAll spaces (js " ") s5 in
  let s7 := replaceAll alignment [] s6 in
  let s8 := replaceAll webvtt_file [] s7 in
  replaceAll (lits "WEBVTT") [] s8.

(** [s.trim()] *)
Definition trim (s : jsstring) : jsstring :=
  rev (Transcribe.skip_space (rev (Transcribe.skip_space s))).

(** the body of the loop on (uniqueParagraphs, prevParagraph) *)
Definition keep_paragraph (st : list jsstring * jsstring) (paragraph : jsstring)
  : list jsstring * jsstring :=
  let '(uniqueParagraphs, prevParagraph) := st in
  if length paragraph <? 3 then st
  else if above_0_7 (calculateSimilarity prevParagraph paragraph) then st
  else (uniqueParagraphs ++ [paragraph], paragraph).

(** the lines of the text, trimmed, the empty ones left out *)
Definition paragraphs_of (cleaned : jsstring) : list jsstring :=
  List.filter (fun line => 0 <? length line) (map trim (Path.split_char 10 cleaned)).

Definition cleanTranscript (transcript : option jsstring) : jsstring :=
  match transcript with
  | None | Some [] => []
  | Some t =>
      let paragraphs := paragraphs_of (strip_markup t) in
      join [10%N; 10%N] (fst (fold_left keep_paragraph paragraphs ([], [])))
  end.

End Transcript.

(** ** The remote-provider translation route: the POST handler *)

Module GoogleRoute.

Import GoogleTranslate.

(** the fields of the body that the handler uses; [None] is a field that
    is missing *)
Record request : Type := {
  text : option jsstring;
  sourceLang : option jsstring;
  targetLang : option jsstring
}.

Inductive payload : Type :=
| Translated (original translation direction sourceLang targetLang : jsstring)
| Failure (error : jsstring).

Record response : Type := { status : nat; body : payload }.

Section Endpoints.

Variable official : nat -> jsstring -> jsval jsstring -> jsval jsstring -> option jsstring.
Variable alternative : nat -> jsstring -> jsval jsstring -> jsval jsstring -> option jsstring.
Variable addHebrewPunctuation : jsstring -> jsstring.

(** [POST(req)]; [parsed = None]: the body is not JSON. The translation
    itself cannot throw on a text: a failing request is caught chunk by
    chunk. *)
Definition POST (parsed : option request) : response :=
  match parsed with
  | None => {| status := 500; body := Failure (js "Internal server error") |}
  | Some req =>
      match Transcribe.truthy (text req) with
      | None => {| status := 400; body := Failure (js "Text is required") |}
      | Some original =>
          let sl := default (js "en") (sourceLang req) in
          let tl := default (js "he") (targetLang req) in
          let run := translateWithGoogle official alternative addHebrewPunctuation
                       original sl tl in
          {| status := 200;
             body := Translated original (translation run) (direction run) sl tl |}
      end
  end.

End Endpoints.

End GoogleRoute.

(** * Proofs

    ** The matcher is sound for a declarative reading of the patterns *)

Module RegexFacts.

Section Sem.

Variable s : jsstring.

Inductive iter (step : nat -> caps -> nat -> caps -> Prop)
  : nat -> caps -> nat -> caps -> Prop :=
| iter_done i c : iter step i c i c
| iter_more i c j c' k c'' :
    step i c j c' -> iter step j c' k c'' -> iter step i c k c''.

Fixpoint sem (r : regex) (i : nat) (c : caps) (j : nat) (c' : caps) : Prop :=
  match r with
  | Eps => j = i /\ c' = c
  | Chr p => exists ch, s !! i = Some ch /\ p ch = true /\ j = S i /\ c' = c
  | Seq r1 r2 => exists k ck, sem r1 i c k ck /\ sem r2 k ck j c'
  | Alt r1 r2 => sem r1 i c j c' \/ sem r2 i c j c'
  | Star _ r' =>
      iter (fun i c j c' => sem r' i (clear (groups r') c) j c' /\ j <> i) i c j c'
  | Group g r' => exists c0, sem r' i c j c0 /\ c' = set_cap g (i, j) c0
  | Bol => i = 0 /\ j = i /\ c' = c
  | Eol => i = length s /\ j = i /\ c' = c
  | WordB => boundary s i = true /\ j = i /\ c' = c
  | Behind p =>
      exists i' ch, i = S i' /\ s !! i' = Some ch /\ p ch = true /\ j = i /\ c' = c
  end.

Lemma star_loop_sound (A : Type) (step : nat -> caps -> nat -> caps -> Prop)
  (body : nat -> caps -> (nat -> caps -> option A) -> option A) greedy
  (k : nat -> caps -> option A) :
  (forall i c k' x, body i c k' = Some x ->
     exists j c', step i c j c' /\ k' j c' = Some x) ->
  forall fuel i c x,
    star_loop body greedy k fuel i c = Some x ->
    exists j c', iter (fun i c j c' => step i c j c' /\ j <> i) i c j c' /\ k j c' = Some x.
Proof.
  intros Hbody. induction fuel as [|fuel IHf]; intros i c x H; simpl in H.
  - exists i, c. split; [apply iter_done | exact H].
  - set (o := body i c (fun j c' => if Nat.eqb j i then None
                                     else star_loop body greedy k fuel j c')) in H.
    assert (Hagain : forall y, o = Some y ->
      exists j c', iter (fun i c j c' => step i c j c' /\ j <> i) i c j c'
                   /\ k j c' = Some y).
    { intros y Hy. unfold o in Hy. apply Hbody in Hy as (j & c' & Hs & Hy).
      destruct (Nat.eqb j i) eqn:Ej; [discriminate|].
      apply Nat.eqb_neq in Ej.
      apply IHf in Hy as (j2 & c2 & Hit & Hk).
      exists j2, c2. split; [|exact Hk].
      eapply iter_more; [split; [exact Hs|exact Ej]|exact Hit]. }
    clearbody o. destruct greedy.
    + destruct o as [y|].
      * inversion H; subst. apply Hagain. reflexivity.
      * exists i, c. split; [apply iter_done | exact H].
    + destruct (k i c) eqn:E.
      * inversion H; subst. exists i, c. split; [apply iter_done | exact E].
      * apply Hagain. exact H.
Qed.

Lemma m_sound (A : Type) (r : regex) :
  forall i c (k : nat -> caps -> option A) x,
    m s r i c k = Some x -> exists j c', sem r i c j c' /\ k j c' = Some x.
Proof.
  induction r as [|p|r1 IH1 r2 IH2|r1 IH1 r2 IH2|greedy r' IH|g r' IH| | | |p];
    intros i c k x H; cbn [m] in H.
  - exists i, c. simpl. auto.
  - destruct (s !! i) as [ch|] eqn:E; [|discriminate].
    destruct (p ch) eqn:Ep; [|discriminate].
    exists (S i), c. split; [|exact H]. exists ch. auto.
  - apply IH1 in H as (k1 & c1 & H1 & H).
    apply IH2 in H as (j & c' & H2 & H).
    exists j, c'. split; [|exact H]. exists k1, c1. auto.
  - destruct (m s r1 i c k) eqn:E.
    + inversion H; subst. apply IH1 in E as (j & c' & H1 & Hk).
      exists j, c'. simpl. auto.
    + apply IH2 in H as (j & c' & H2 & Hk). exists j, c'. simpl. auto.
  - eapply (star_loop_sound A
             (fun i c j c' => sem r' i (clear (groups r') c) j c')) in H.
    + exact H.
    + intros i0 c0 k' y Hy. apply IH in Hy. exact Hy.
  - apply IH in H as (j & c0 & Hs & Hk). exists j, (set_cap g (i, j) c0).
    split; [|exact Hk]. exists c0. auto.
  - destruct (Nat.eqb i 0) eqn:E; [|discriminate]. apply Nat.eqb_eq in E.
    exists i, c. simpl. auto.
  - destruct (Nat.eqb i (length s)) eqn:E; [|discriminate]. apply Nat.eqb_eq in E.
    exists i, c. simpl. auto.
  - destruct (boundary s i) eqn:E; [|discriminate]. exists i, c. simpl. auto.
  - destruct i as [|i']; [discriminate|].
    destruct (s !! i') as [ch|] eqn:E; [|discriminate].
    destruct (p ch) eqn:Ep; [|discriminate].
    exists (S i'), c. split; [|exact H]. exists i', ch. auto.
Qed.

(** a match never moves backwards and stays inside the text *)
Lemma sem_range (r : regex) :
  forall i c j c', sem r i c j c' -> i <= length s -> i <= j <= length s.
Proof.
  induction r as [|p|r1 IH1 r2 IH2|r1 IH1 r2 IH2|greedy r' IH|g r' IH| | | |p];
    intros i c j c' H Hi; simpl in H.
  - destruct H; subst. lia.
  - destruct H as (ch & E & _ & -> & _). apply lookup_lt_Some in E. lia.
  - destruct H as (k & ck & H1 & H2).
    apply IH1 in H1; [|exact Hi]. apply IH2 in H2; lia.
  - destruct H as [H|H]; [apply IH1 in H|apply IH2 in H]; auto.
  - induction H as [i c|i c j c' k c'' [Hs Hne] Hit IHit]; [lia|].
    apply IH in Hs; [|exact Hi]. specialize (IHit ltac:(lia)). lia.
  - destruct H as (c0 & H & _). eapply IH; eauto.
  - destruct H as (_ & -> & _). lia.
  - destruct H as (_ & -> & _). lia.
  - destruct H as (_ & -> & _). lia.
  - destruct H as (i' & ch & _ & _ & _ & -> & _). lia.
Qed.

(** one or more characters of a class: the span is not empty, lies in the
    text and holds characters of the class only *)
Lemma sem_plus_class (p : N -> bool) i c j c' :
  sem (Plus (Chr p)) i c j c' ->
  i < j <= length s /\ forall x, i <= x < j -> exists ch, s !! x = Some ch /\ p ch = true.
Proof.
  intros H. simpl in H. destruct H as (k & ck & (ch & E & Ep & -> & ->) & Hit).
  pose proof (lookup_lt_Some _ _ _ E) as Hlt.
  assert (Hgen : forall a ca b cb,
    iter (fun i c j c' =>
            (exists ch, s !! i = Some ch /\ p ch = true /\ j = S i /\ c' = clear [] c)
            /\ j <> i) a ca b cb ->
    a <= length s ->
    a <= b <= length s /\
    forall x, a <= x < b -> exists ch, s !! x = Some ch /\ p ch = true).
  { intros a ca b cb Hi. induction Hi as [a ca|a ca b cb d cd [(ch' & E' & Ep' & -> & _) _] _ IHi];
      intros Ha.
    - split; [lia|]. intros x Hx. lia.
    - pose proof (lookup_lt_Some _ _ _ E') as Hlt'.
      destruct (IHi ltac:(lia)) as [Hr Hall]. split; [lia|].
      intros x Hx. destruct (decide (x = a)) as [->|Hne]; [eauto|].
      apply Hall. lia. }
  apply Hgen in Hit; [|lia]. destruct Hit as [Hr Hall]. split; [lia|].
  intros x Hx. destruct (decide (x = i)) as [->|Hne]; [eauto|]. apply Hall. lia.
Qed.

End Sem.

(** what a successful search returns is a match of the pattern *)
Lemma search_sound s r n i a b c :
  search s r n i = Some (a, b, c) -> i <= a /\ sem s r a no_caps b c.
Proof.
  revert i. induction n as [|n IH]; intros i H; simpl in H.
  - destruct (match_at s r i) as [[j cj]|] eqn:E; [|discriminate].
    inversion H; subst. split; [lia|].
    unfold match_at in E. apply m_sound in E as (j & c' & Hs & Hk).
    inversion Hk; subst. exact Hs.
  - destruct (match_at s r i) as [[j cj]|] eqn:E.
    + inversion H; subst. split; [lia|].
      unfold match_at in E. apply m_sound in E as (j & c' & Hs & Hk).
      inversion Hk; subst. exact Hs.
    + apply IH in H. destruct H. split; [lia|assumption].
Qed.

Lemma exec_sound s r a b c :
  exec r s = Some (a, b, c) -> sem s r a no_caps b c.
Proof. unfold exec. intros H. apply search_sound in H. tauto. Qed.

Lemma substring_nonempty (s : jsstring) a b :
  a < b <= length s -> substring a b s <> [].
Proof.
  intros H E. apply (f_equal length) in E. unfold substring in E.
  rewrite length_take, length_drop in E. simpl in E. lia.
Qed.

End RegexFacts.

Import RegexFacts.

(** ** The bounds of the matcher and of the scan of split are never reached *)

Module Adequacy.

Section Local.

Variable s : jsstring.
Variable A : Type.

(** Continuations that agree on the positions a match can end at. *)
Definition agree (i : nat) (k k' : nat -> caps -> option A) : Prop :=
  forall j c, i <= j <= length s -> k j c = k' j c.

Lemma agree_later i j k k' : i <= j -> agree i k k' -> agree j k k'.
Proof. intros Hij H x c Hx. apply H. lia. Qed.

(** the iterations of a quantifier never use up their bound: any two
    bounds above the number of characters left give the same result *)
Lemma star_loop_bound (body : nat -> caps -> (nat -> caps -> option A) -> option A) greedy :
  (forall i c k k', i <= length s -> agree i k k' -> body i c k = body i c k') ->
  forall k k' fuel fuel' i c,
    i <= length s -> agree i k k' ->
    length s - i < fuel -> length s - i < fuel' ->
    star_loop body greedy k fuel i c = star_loop body greedy k' fuel' i c.
Proof.
  intros Hbody k k'. induction fuel as [|fuel IH]; intros fuel' i c Hi Hk Hf Hf'; [lia|].
  destruct fuel' as [|fuel']; [lia|]. cbn [star_loop].
  assert (Hagain :
    body i c (fun j c' => if Nat.eqb j i then None else star_loop body greedy k fuel j c')
    = body i c (fun j c' => if Nat.eqb j i then None else star_loop body greedy k' fuel' j c')).
  { apply Hbody; [exact Hi|]. intros j c' Hj.
    destruct (Nat.eqb j i) eqn:E; [reflexivity|]. apply Nat.eqb_neq in E.
    apply IH; [lia|apply (agree_later i); [lia|exact Hk]|lia|lia]. }
  rewrite Hagain, (Hk i c) by lia. reflexivity.
Qed.

Lemma m_local (r : regex) : forall i c k k',
  i <= length s -> agree i k k' -> m s r i c k = m s r i c k'.
Proof.
  induction r as [|p|r1 IH1 r2 IH2|r1 IH1 r2 IH2|greedy r' IH|g r' IH| | | |p];
    intros i c k k' Hi Hk; cbn [m].
  - apply Hk. lia.
  - destruct (s !! i) as [ch|] eqn:E; [|reflexivity].
    apply lookup_lt_Some in E. destruct (p ch); [|reflexivity]. apply Hk. lia.
  - apply IH1; [exact Hi|]. intros j c' Hj. apply IH2; [lia|].
    apply (agree_later i); [lia|exact Hk].
  - rewrite (IH1 i c k k' Hi Hk), (IH2 i c k k' Hi Hk). reflexivity.
  - apply star_loop_bound; [|exact Hi|exact Hk|lia|lia].
    intros i0 c0 k0 k0' Hi0 Hk0. apply IH; assumption.
  - apply IH; [exact Hi|]. intros j c' Hj. apply Hk. exact Hj.
  - destruct (Nat.eqb i 0); [apply Hk; lia|reflexivity].
  - destruct (Nat.eqb i (length s)); [apply Hk; lia|reflexivity].
  - destruct (boundary s i); [apply Hk; lia|reflexivity].
  - destruct i as [|i']; [reflexivity|].
    destruct (s !! i') as [ch|]; [|reflexivity]. destruct (p ch); [apply Hk; lia|reflexivity].
Qed.

(** more iterations than the matcher allows for change nothing *)
Lemma star_bound_never_reached greedy r' (k : nat -> caps -> option A) extra i c :
  i <= length s ->
  star_loop (fun i c k => m s r' i (clear (groups r') c) k) greedy k
    (S (length s - i) + extra) i c
  = m s (Star greedy r') i c k.
Proof.
  intros Hi. cbn [m]. apply star_loop_bound; try lia.
  - intros i0 c0 k0 k0' Hi0 Hk0. apply m_local; assumption.
  - intros j c' _. reflexivity.
Qed.

End Local.

(** the scan of [split] never uses up its bound *)
Section Split.

Import Chunker.

Variable sep : regex.
Variable s : jsstring.

Definition rounds_left (p q : nat) : nat :=
  2 * (length s - q) + (if Nat.eqb p q then 0 else 1).

Lemma match_at_range q e c :
  q <= length s -> match_at s sep q = Some (e, c) -> q <= e <= length s.
Proof.
  unfold match_at. intros Hq H. apply m_sound in H as (j & c' & Hs & Hk).
  injection Hk as -> ->. eapply sem_range; eauto.
Qed.

Lemma split_loop_bound : forall fuel fuel' p q,
  p <= q ->
  rounds_left p q < fuel -> rounds_left p q < fuel' ->
  split_loop sep s fuel p q = split_loop sep s fuel' p q.
Proof.
  unfold rounds_left.
  induction fuel as [|fuel IH]; intros fuel' p q Hpq Hf Hf'; [lia|].
  destruct fuel' as [|fuel']; [lia|]. cbn [split_loop].
  destruct (length s <=? q) eqn:Eq; [reflexivity|]. apply Nat.leb_gt in Eq.
  assert (Hnext : split_loop sep s fuel p (S q) = split_loop sep s fuel' p (S q)).
  { apply IH; [lia| |];
      destruct (Nat.eqb p q), (Nat.eqb p (S q)); lia. }
  destruct (match_at s sep q) as [[e0 c]|] eqn:Em; [|exact Hnext].
  apply match_at_range in Em; [|lia]. rewrite Nat.min_l by lia.
  destruct (e0 =? p) eqn:Ee; [exact Hnext|]. apply Nat.eqb_neq in Ee.
  f_equal. apply IH; [lia| |]; rewrite Nat.eqb_refl;
    destruct (Nat.eqb p q) eqn:Epq; try lia;
    apply Nat.eqb_eq in Epq; lia.
Qed.

Lemma split_bound_never_reached extra :
  s <> [] ->
  split_loop sep s (2 * length s + 1 + extra) 0 0 = split sep s.
Proof.
  intros Hs. unfold split. destruct s as [|c t] eqn:E; [contradiction|]. rewrite <- E.
  apply split_loop_bound; unfold rounds_left; simpl; lia.
Qed.

End Split.

End Adequacy.

(** ** The identifier resolver *)

Module ResolverFacts.

Import Resolver.

Local Open Scope N_scope.

(** a property checked on every number below a bound *)
Lemma N_below (f : N -> bool) (n : nat) :
  forallb f (map N.of_nat (seq 0 n)) = true ->
  forall x, x < N.of_nat n -> f x = true.
Proof.
  intros H x Hx. rewrite forallb_forall in H. apply H.
  apply in_map_iff. exists (N.to_nat x). split; [apply N2Nat.id|].
  apply in_seq. lia.
Qed.

Lemma land_low (x : N) (k : N) : N.land x (N.ones k) < 2 ^ k.
Proof. rewrite N.land_ones. apply N.mod_lt. apply N.pow_nonzero. discriminate. Qed.

Lemma utf8_head (c : N) (t : jsstring) :
  exists b rest, utf8 (c :: t) = b :: rest /\ b < 248.
Proof.
  simpl. destruct (c <? 0x80) eqn:E1.
  { apply N.ltb_lt in E1. eexists _, _. split; [reflexivity|lia]. }
  destruct (c <? 0x800) eqn:E2.
  { eexists _, _. split; [reflexivity|].
    pose proof (land_low (N.shiftr c 6) 5) as Hl. change (N.ones 5) with 31 in Hl.
    apply N.ltb_lt.
    apply (N_below (fun x => N.lor 192 x <? 248) 32); [vm_compute; reflexivity|exact Hl]. }
  assert (Hrep : forall rest, exists b rest', replacement ++ rest = b :: rest' /\ b < 248).
  { intros rest. eexists _, _. split; [reflexivity|]. reflexivity. }
  destruct (is_high c).
  { destruct t as [|lo t']; [apply (Hrep [])|].
    destruct (is_low lo); [|apply Hrep].
    eexists _, _. split; [reflexivity|].
    match goal with |- N.lor _ (N.land ?y _) < _ => pose proof (land_low y 3) as Hl end.
    change (N.ones 3) with 7 in Hl. apply N.ltb_lt.
    apply (N_below (fun x => N.lor 240 x <? 248) 8); [vm_compute; reflexivity|exact Hl]. }
  destruct (is_low c); [apply Hrep|].
  eexists _, _. split; [reflexivity|].
  pose proof (land_low (N.shiftr c 12) 4) as Hl. change (N.ones 4) with 15 in Hl.
  apply N.ltb_lt.
  apply (N_below (fun x => N.lor 224 x <? 248) 16); [vm_compute; reflexivity|exact Hl].
Qed.

Lemma b64char_alnum (b : N) : b < 248 -> is_alnum (b64char (N.shiftr b 2)) = true.
Proof.
  intros Hb.
  apply (N_below (fun b => is_alnum (b64char (N.shiftr b 2))) 248);
    [vm_compute; reflexivity|exact Hb].
Qed.

Lemma base64_head (b : N) (rest : list N) :
  exists rest', base64 (b :: rest) = b64char (N.shiftr b 2) :: rest'.
Proof.
  destruct rest as [|x [|y rest]]; simpl; eauto.
Qed.

(** the identifier of an arbitrary URL is never empty *)
Lemma other_id_nonempty (c : N) (t : jsstring) :
  substring 0 16 (strip_non_alnum (base64 (utf8 (c :: t)))) <> [].
Proof.
  destruct (utf8_head c t) as (b & rest & -> & Hb).
  destruct (base64_head b rest) as (rest' & ->).
  unfold strip_non_alnum. cbn [List.filter]. rewrite (b64char_alnum b Hb).
  unfold substring. simpl. discriminate.
Qed.

End ResolverFacts.

Module ResolverProofs.

Import Resolver ResolverFacts.

(** a pattern that ends with a capturing group of one or more characters
    of a class *)
Fixpoint ends_in_capture (g : nat) (r : regex) : Prop :=
  match r with
  | Seq _ r2 => ends_in_capture g r2
  | Group g' r' => g' = g /\ exists p, r' = Plus (Chr p)
  | _ => False
  end.

Lemma sem_ends_in_capture s g r :
  ends_in_capture g r ->
  forall i c j c', sem s r i c j c' -> i <= length s ->
  exists a, c' g = Some (a, j) /\ a < j <= length s.
Proof.
  induction r as [|p|r1 IH1 r2 IH2|r1 IH1 r2 IH2|greedy r' IH|g' r' IH| | | |p];
    simpl; intros He i c j c' H Hi; try contradiction.
  - destruct H as (k & ck & H1 & H2).
    apply sem_range in H1; [|exact Hi]. eapply IH2; eauto. lia.
  - destruct He as [-> (p & ->)]. destruct H as (c0 & H & ->).
    apply sem_plus_class in H as [Hr _].
    exists i. unfold set_cap. rewrite Nat.eqb_refl. auto.
Qed.

Lemma search_start s r : forall n i a b c,
  search s r n i = Some (a, b, c) -> a <= i + n.
Proof.
  induction n as [|n IH]; intros i a b c H; simpl in H;
    destruct (match_at s r i) as [[j cj]|]; try discriminate.
  - inversion H; subst; lia.
  - inversion H; subst; lia.
  - apply IH in H. lia.
Qed.

(** the identifier read by such a pattern: present exactly when the
    pattern matches, and never empty *)
Lemma capture_spec r g url :
  ends_in_capture g r ->
  match capture r g url with
  | Some id => id <> [] /\ test r url = true
  | None => test r url = false
  end.
Proof.
  intros He. unfold capture, test.
  destruct (exec r url) as [[[a b] c]|] eqn:E; [|reflexivity].
  pose proof (exec_sound _ _ _ _ _ E) as Hs.
  assert (Ha : a <= length url).
  { unfold exec in E. apply search_start in E. lia. }
  destruct (sem_ends_in_capture _ _ _ He _ _ _ _ Hs Ha) as (a' & Hc & Hr).
  unfold group. rewrite Hc. split; [|reflexivity].
  apply substring_nonempty. exact Hr.
Qed.

Lemma platform_regex_ends p r : platform_regex p = Some r -> ends_in_capture 1 r.
Proof.
  unfold platform_regex. repeat case_decide; intros Hr; inversion Hr; subst; simpl;
    (split; [reflexivity|eexists; reflexivity]).
Qed.

Lemma youtube_id_nonempty e url : extractYouTubeVideoId e url <> [].
Proof.
  unfold extractYouTubeVideoId.
  destruct url as [[|c u]|]; try (simpl; discriminate).
  destruct (capture youtubeRegExp 2 (c :: u)) as [id|]; [|simpl; discriminate].
  destruct (Nat.eqb (length id) 11) eqn:E; [|simpl; discriminate].
  apply Nat.eqb_eq in E. intros ->. discriminate.
Qed.

Lemma youtube_id_stable e e' u :
  youtube_matches u = true ->
  extractYouTubeVideoId e (Some u) = extractYouTubeVideoId e' (Some u).
Proof.
  unfold youtube_matches, extractYouTubeVideoId. destruct u as [|c u].
  - vm_compute. discriminate.
  - destruct (capture youtubeRegExp 2 (c :: u)) as [id|]; [|discriminate].
    intros ->. reflexivity.
Qed.

(** the six supported hints are pairwise different *)
Lemma extractVideoId_cases e u platform :
  u <> [] ->
  extractVideoId e (Some u) platform =
    if decide (platform = js "youtube") then Some (extractYouTubeVideoId e (Some u))
    else match platform_regex platform with
         | Some r => capture r 1 u
         | None =>
             if decide (platform = js "other")
             then Some (substring 0 16 (strip_non_alnum (base64 (utf8 u))))
             else None
         end.
Proof.
  intros Hu. destruct u as [|c u]; [contradiction|].
  unfold extractVideoId, platform_regex. repeat case_decide; try reflexivity.
Qed.

(** C1 (as amended). For every URL, platform hint and reading of the clock
    and of the random source, the resolver returns null or a string that is
    not empty. It returns null for a null or empty URL and for a hint that
    is none of the six supported ones; for a non-empty URL it returns an
    identifier with the hints youtube and other, and with facebook, tiktok,
    instagram and vimeo exactly when the platform's pattern matches (null
    otherwise). The YouTube resolver itself always returns a non-empty
    string, and so does the resolver followed by its caller's fallback to
    an identifier made of the word unknown and the clock. With every hint
    other than youtube the result depends on the URL alone: repeated calls
    return the same result. With the hint youtube repeated calls return
    the same identifier when the pattern matches with an identifier group
    of eleven characters; for every other non-empty URL the identifier is
    the word youtube, the clock and five characters of the random source,
    as read at the call. *)
Theorem extractVideoId_null_or_stable_id (e e' : env) (url : option jsstring)
  (platform : jsstring) :
  (forall id, extractVideoId e url platform = Some id -> id <> []) /\
  (falsy url = true -> extractVideoId e url platform = None) /\
  (platform <> js "youtube" -> platform <> js "facebook" -> platform <> js "tiktok" ->
   platform <> js "instagram" -> platform <> js "vimeo" -> platform <> js "other" ->
   extractVideoId e url platform = None) /\
  (falsy url = false ->
     platform = js "youtube" \/ platform = js "other" ->
     exists id, extractVideoId e url platform = Some id) /\
  (forall u r, url = Some u -> u <> [] -> platform_regex platform = Some r ->
     (test r u = true -> exists id, extractVideoId e url platform = Some id) /\
     (test r u = false -> extractVideoId e url platform = None)) /\
  extractYouTubeVideoId e url <> [] /\
  (forall t, default (js "unknown_" ++ dec t)
                     (Transcribe.truthy (extractVideoId e url platform)) <> []) /\
  (platform <> js "youtube" ->
   extractVideoId e url platform = extractVideoId e' url platform) /\
  (forall u, url = Some u -> youtube_matches u = true ->
     extractVideoId e url (js "youtube") = extractVideoId e' url (js "youtube")) /\
  (forall u, url = Some u -> u <> [] -> youtube_matches u = false ->
     extractVideoId e url (js "youtube")
       = Some (js "youtube-" ++ dec (now e) ++ js "-" ++ substring 2 7 (random36 e))).
Proof.
  assert (Hfalsy : falsy url = true -> forall e0, extractVideoId e0 url platform = None).
  { destruct url as [[|c u]|]; simpl; intros H e0; try discriminate; reflexivity. }
  assert (Hfallback : forall t, default (js "unknown_" ++ dec t)
                       (Transcribe.truthy (extractVideoId e url platform)) <> []).
  { intros t. destruct (extractVideoId e url platform) as [[|c id]|]; discriminate. }
  assert (Hnonempty : forall id, extractVideoId e url platform = Some id -> id <> []).
  { intros id H. destruct url as [[|c u]|]; try discriminate.
    rewrite extractVideoId_cases in H by discriminate.
    case_decide.
    - replace id with (extractYouTubeVideoId e (Some (c :: u))) by congruence.
      apply youtube_id_nonempty.
    - destruct (platform_regex platform) as [r|] eqn:Er.
      + pose proof (capture_spec r 1 (c :: u) (platform_regex_ends _ _ Er)) as Hc.
        rewrite H in Hc. tauto.
      + case_decide; [|discriminate].
        replace id with (substring 0 16 (strip_non_alnum (base64 (utf8 (c :: u)))))
          by congruence.
        apply other_id_nonempty. }
  assert (Hunsupported :
    platform <> js "youtube" -> platform <> js "facebook" -> platform <> js "tiktok" ->
    platform <> js "instagram" -> platform <> js "vimeo" -> platform <> js "other" ->
    extractVideoId e url platform = None).
  { intros H1 H2 H3 H4 H5 H6. destruct url as [[|c u]|]; try reflexivity.
    unfold extractVideoId. rewrite !decide_False by assumption. reflexivity. }
  assert (Hsome : falsy url = false ->
    platform = js "youtube" \/ platform = js "other" ->
    exists id, extractVideoId e url platform = Some id).
  { intros Hf Hp. destruct url as [[|c u]|]; try discriminate.
    rewrite extractVideoId_cases by discriminate.
    destruct Hp as [->| ->].
    - rewrite decide_True by reflexivity. eauto.
    - rewrite decide_False by (vm_compute; discriminate).
      change (platform_regex (js "other")) with (@None regex).
      rewrite decide_True by reflexivity. eauto. }
  assert (Hpattern : forall u r, url = Some u -> u <> [] -> platform_regex platform = Some r ->
    (test r u = true -> exists id, extractVideoId e url platform = Some id) /\
    (test r u = false -> extractVideoId e url platform = None)).
  { intros u r -> Hu Hr. rewrite extractVideoId_cases by assumption.
    assert (Hny : platform <> js "youtube").
    { intros ->. vm_compute in Hr. discriminate. }
    rewrite decide_False by exact Hny. rewrite Hr.
    pose proof (capture_spec r 1 u (platform_regex_ends _ _ Hr)) as Hc.
    destruct (capture r 1 u) as [id|].
    - split; [eauto|]. destruct Hc. congruence.
    - split; [congruence|reflexivity]. }
  assert (Hurl_only : platform <> js "youtube" ->
    extractVideoId e url platform = extractVideoId e' url platform).
  { intros Hny. destruct url as [[|c u]|]; try reflexivity.
    unfold extractVideoId. rewrite !(decide_False _ _ Hny). reflexivity. }
  assert (Hstable : forall u, url = Some u -> youtube_matches u = true ->
    extractVideoId e url (js "youtube") = extractVideoId e' url (js "youtube")).
  { intros u -> Hm. destruct u as [|c u]; [vm_compute in Hm; discriminate|].
    rewrite !extractVideoId_cases by discriminate.
    rewrite !decide_True by reflexivity. f_equal. apply youtube_id_stable. exact Hm. }
  assert (Hclock : forall u, url = Some u -> u <> [] -> youtube_matches u = false ->
    extractVideoId e url (js "youtube")
      = Some (js "youtube-" ++ dec (now e) ++ js "-" ++ substring 2 7 (random36 e))).
  { intros u -> Hu Hm. rewrite extractVideoId_cases by exact Hu.
    rewrite decide_True by reflexivity. f_equal.
    unfold youtube_matches in Hm. unfold extractYouTubeVideoId.
    destruct u as [|c u]; [contradiction|].
    destruct (capture youtubeRegExp 2 (c :: u)) as [id|]; [|reflexivity].
    rewrite Hm. reflexivity. }
  split; [exact Hnonempty|]. split; [intros H; apply Hfalsy; exact H|].
  split; [exact Hunsupported|]. split; [exact Hsome|]. split; [exact Hpattern|].
  split; [apply youtube_id_nonempty|]. split; [exact Hfallback|].
  split; [exact Hurl_only|]. split; [exact Hstable|exact Hclock].
Qed.

Definition sample_env : env := {| now := 1700000000000; random36 := js "0.4fzyo82mvyr" |}.

Example youtube_watch_url :
  youtube_matches (js "https://www.youtube.com/watch?v=dQw4w9WgXcQ&t=3") = true /\
  extractVideoId sample_env (Some (js "https://www.youtube.com/watch?v=dQw4w9WgXcQ&t=3"))
    (js "youtube") = Some (js "dQw4w9WgXcQ").
Proof. vm_compute. split; reflexivity. Qed.

Example youtube_unmatched_url :
  extractVideoId sample_env (Some (js "https://example.com/")) (js "youtube")
    = Some (js "youtube-1700000000000-4fzyo").
Proof. vm_compute. reflexivity. Qed.

Example facebook_videos_url :
  extractVideoId sample_env (Some (js "https://www.facebook.com/someone/videos/12345/"))
    (js "facebook") = Some (js "12345").
Proof. vm_compute. reflexivity. Qed.

Example tiktok_url :
  extractVideoId sample_env (Some (js "https://www.tiktok.com/@user.name/video/7123?x=1"))
    (js "tiktok") = Some (js "7123").
Proof. vm_compute. reflexivity. Qed.

Example instagram_reel_url :
  extractVideoId sample_env (Some (js "https://www.instagram.com/reel/Cx_y-Z1/"))
    (js "instagram") = Some (js "Cx_y-Z1").
Proof. vm_compute. reflexivity. Qed.

Example vimeo_url :
  extractVideoId sample_env (Some (js "https://vimeo.com/76979871")) (js "vimeo")
    = Some (js "76979871").
Proof. vm_compute. reflexivity. Qed.

Example other_url :
  extractVideoId sample_env (Some (js "https://example.com/a?b=c")) (js "other")
    = Some (js "aHR0cHM6Ly9leGFt").
Proof. vm_compute. reflexivity. Qed.

(** the same environment one millisecond later, with another random number *)
Definition next_env : env := {| now := 1700000000001; random36 := js "0.9kq1zt0x7a" |}.

(** C1, counterexample to the claim as first stated: the resolver returns
    null for a null URL, for an empty URL, and for a Facebook hint on a URL
    that the Facebook pattern does not match; and the YouTube pattern
    matches https://youtu.be/abc, whose identifier group has three
    characters, yet two calls with that URL return two identifiers. *)
Lemma extractVideoId_null_and_unstable :
  extractVideoId sample_env None (js "youtube") = None /\
  extractVideoId sample_env (Some []) (js "tiktok") = None /\
  extractVideoId sample_env (Some (js "https://example.com/clip/42")) (js "facebook")
    = None /\
  test youtubeRegExp (js "https://youtu.be/abc") = true /\
  extractVideoId sample_env (Some (js "https://youtu.be/abc")) (js "youtube")
    = Some (js "youtube-1700000000000-4fzyo") /\
  extractVideoId next_env (Some (js "https://youtu.be/abc")) (js "youtube")
    = Some (js "youtube-1700000000001-9kq1z").
Proof. vm_compute. repeat split; reflexivity. Qed.

End ResolverProofs.

(** ** The language detector *)

Module LangDetectProofs.

Import LangDetect.

(** the second loop keeps the first entry whose score is the highest, or
    the initial pair when no entry beats it *)
Lemma fold_pick (l : list (jsstring * nat)) : forall best,
  let r := fold_left pick l best in
  (r = best /\ Forall (fun e => snd e <= snd best) l) \/
  (exists i, l !! i = Some r /\ snd best < snd r /\
     forall j e, l !! j = Some e -> snd e <= snd r /\ (j < i -> snd e < snd r)).
Proof.
  induction l as [|e t IH]; intros best; cbn [fold_left].
  - left. split; [reflexivity|constructor].
  - assert (Hp : pick best e = if snd best <? snd e then e else best) by reflexivity.
    rewrite Hp. clear Hp. destruct (snd best <? snd e) eqn:E.
    + apply Nat.ltb_lt in E. right.
      destruct (IH e) as [[Hr Hall]|(i & Hi & Hlt & Hmax)].
      * exists 0. rewrite Hr. split; [reflexivity|]. split; [exact E|].
        intros [|j] e' He'; simpl in He'.
        -- inversion He'; subst. split; lia.
        -- rewrite Forall_lookup in Hall. apply Hall in He'. split; lia.
      * exists (S i). split; [exact Hi|]. split; [lia|].
        intros [|j] e' He'; simpl in He'.
        -- inversion He'; subst. split; lia.
        -- apply Hmax in He'. split; [tauto|]. intros. apply He'. lia.
    + apply Nat.ltb_ge in E.
      destruct (IH best) as [[Hr Hall]|(i & Hi & Hlt & Hmax)].
      * left. split; [exact Hr|]. constructor; assumption.
      * right. exists (S i). split; [exact Hi|]. split; [exact Hlt|].
        intros [|j] e' He'; simpl in He'.
        -- inversion He'; subst. split; lia.
        -- apply Hmax in He'. split; [tauto|]. intros. apply He'. lia.
Qed.

Lemma scores_languages text :
  map fst (scores text) = [js "en"; js "es"; js "fr"; js "de"; js "it"; js "ru"; js "ar"].
Proof. reflexivity. Qed.

(** C5 (as amended). The detector returns the first language, in the
    order en, es, fr, de, it, ru, ar, whose score is the highest: no
    language has a higher score and every language before it has a strictly
    lower one. A tie is therefore won by the earliest of the tied
    languages, which is en only when en is among them; when every score is
    zero the answer is en. *)
Theorem detectLanguage_first_highest (text : jsstring) :
  map fst (scores text) = [js "en"; js "es"; js "fr"; js "de"; js "it"; js "ru"; js "ar"] /\
  (exists i sc,
     scores text !! i = Some (detectLanguage text, sc) /\
     forall j lang sc', scores text !! j = Some (lang, sc') ->
       sc' <= sc /\ (j < i -> sc' < sc)) /\
  ((forall j lang sc', scores text !! j = Some (lang, sc') -> sc' = 0) ->
   detectLanguage text = js "en").
Proof.
  split; [apply scores_languages|].
  unfold detectLanguage.
  destruct (scores text) as [|[l0 s0] rest] eqn:Es; [discriminate|].
  assert (Hen : l0 = js "en").
  { pose proof (scores_languages text) as H. rewrite Es in H.
    cbn [map fst] in H. injection H as H _. exact H. }
  subst l0.
  destruct (fold_pick ((js "en", s0) :: rest) (js "en", 0)) as [[Hr Hall]|(i & Hi & Hlt & Hmax)].
  - rewrite Hr. simpl. split; [|reflexivity].
    assert (s0 = 0) as -> by (inversion Hall; subst; simpl in *; lia).
    exists 0, 0. split; [reflexivity|].
    intros j lang sc' Hj. rewrite Forall_lookup in Hall. apply Hall in Hj. simpl in Hj. lia.
  - destruct (fold_left pick ((js "en", s0) :: rest) (js "en", 0)) as [lr sr] eqn:Er.
    simpl in Hlt. simpl. split.
    + exists i, sr. split; [exact Hi|].
      intros j lang sc' Hj. apply Hmax in Hj. simpl in Hj. exact Hj.
    + intros Hzero. apply Hzero in Hi. lia.
Qed.

Example english_words : detectLanguage (js "the and to for") = js "en".
Proof. vm_compute. reflexivity. Qed.

Example no_pattern_matches : detectLanguage (js "zzz 123") = js "en".
Proof. vm_compute. reflexivity. Qed.

Example german_sentence : detectLanguage (js "der Hund und die Katze") = js "de".
Proof. vm_compute. reflexivity. Qed.

(** The score of a language is the number of its patterns that occur in
    the text: a pattern that occurs several times counts once. *)
Lemma score_counts_each_pattern_once :
  scores (js "the the the el la") =
    [(js "en", 1); (js "es", 2); (js "fr", 1); (js "de", 0); (js "it", 1);
     (js "ru", 0); (js "ar", 0)] /\
  detectLanguage (js "the the the el la") = js "es".
Proof. vm_compute. split; reflexivity. Qed.

(** C5, counterexample to the claim as first stated: on the text la the
    languages es, fr and it tie for the highest score and the detector
    returns es, not en. *)
Lemma detectLanguage_tie_not_en :
  scores (js "la") =
    [(js "en", 0); (js "es", 1); (js "fr", 1); (js "de", 0); (js "it", 1);
     (js "ru", 0); (js "ar", 0)] /\
  detectLanguage (js "la") = js "es" /\
  detectLanguage (js "la") <> js "en".
Proof.
  split; [vm_compute; reflexivity|].
  split; [vm_compute; reflexivity|].
  vm_compute. discriminate.
Qed.

End LangDetectProofs.

(** ** The text chunker *)

Module ChunkerProofs.

Import Chunker.

(** *** Separators are runs of white space *)

Definition all_space (w : jsstring) : Prop := Forall (fun c => is_space c = true) w.

Lemma sep_match (cls : N -> bool) (s : jsstring) q e c :
  match_at s (Seq (Behind cls) (Plus (Chr is_space))) q = Some (e, c) ->
  q < e <= length s /\ all_space (substring q e s).
Proof.
  unfold match_at. intros H. apply m_sound in H as (j & c' & Hs & Hk).
  injection Hk as -> ->.
  cbn [sem] in Hs. destruct Hs as (k & ck & (i' & ch & _ & _ & _ & -> & ->) & Hp).
  apply sem_plus_class in Hp as [Hr Hall]. split; [exact Hr|].
  unfold all_space, substring. apply Forall_lookup. intros i x Hx.
  rewrite lookup_take_Some in Hx. destruct Hx as [Hx Hi].
  rewrite lookup_drop in Hx.
  destruct (Hall (q + i)) as (ch' & Hch & Hsp); [lia|]. unfold jsstring in *. congruence.
Qed.

Lemma substring_split (s : jsstring) p q e :
  p <= q <= e -> e <= length s ->
  drop p s = substring p q s ++ substring q e s ++ drop e s.
Proof.
  intros H He. unfold substring.
  rewrite <- (take_drop (q - p) (drop p s)) at 1. f_equal.
  rewrite drop_drop. replace (p + (q - p)) with q by lia.
  rewrite <- (take_drop (e - q) (drop q s)) at 1. f_equal.
  rewrite drop_drop. f_equal. lia.
Qed.

(** *** Readings of a text that ignore white space between pieces *)

Section Content.

Variable X : Type.
Variable f : jsstring -> list X.
Hypothesis f_nil : f [] = [].
Hypothesis f_space : forall a w b,
  w <> [] -> all_space w -> f (a ++ w ++ b) = f a ++ f b.

Definition content (parts : list jsstring) : list X := concat (map f parts).

Lemma content_app a b : content (a ++ b) = content a ++ content b.
Proof. unfold content. rewrite map_app, concat_app. reflexivity. Qed.

Lemma content_single part : content [part] = f part.
Proof. unfold content. simpl. apply app_nil_r. Qed.

Lemma content_cons part parts : content (part :: parts) = f part ++ content parts.
Proof. reflexivity. Qed.

Lemma content_nil : content [] = [].
Proof. reflexivity. Qed.

Lemma content_push parts part :
  content (push_nonempty parts part) = content parts ++ f part.
Proof.
  destruct part as [|c t]; simpl.
  - rewrite f_nil, app_nil_r. reflexivity.
  - rewrite content_app, content_single. reflexivity.
Qed.

Lemma f_glue a b : f (glue a b) = f a ++ f b.
Proof.
  destruct a as [|c t]; unfold glue.
  - rewrite f_nil. reflexivity.
  - apply f_space; [discriminate|]. repeat constructor.
Qed.

Lemma f_join parts : f (join space parts) = content parts.
Proof.
  induction parts as [|a [|b rest] IH].
  - simpl. rewrite f_nil. reflexivity.
  - rewrite content_single. reflexivity.
  - change (join space (a :: b :: rest)) with (a ++ space ++ join space (b :: rest)).
    rewrite f_space; [|discriminate|repeat constructor].
    rewrite IH. reflexivity.
Qed.

Lemma content_split_loop cls (s : jsstring) : forall fuel p q,
  p <= q ->
  content (split_loop (Seq (Behind cls) (Plus (Chr is_space))) s fuel p q) = f (drop p s).
Proof.
  assert (Hend : forall p, content [substring p (length s) s] = f (drop p s)).
  { intros p. rewrite content_single. unfold substring.
    rewrite take_ge by (rewrite length_drop; lia). reflexivity. }
  induction fuel as [|fuel IH]; intros p q Hpq; cbn [split_loop]; [apply Hend|].
  destruct (length s <=? q) eqn:Eq; [apply Hend|].
  apply Nat.leb_gt in Eq.
  destruct (match_at s _ q) as [[e0 c]|] eqn:Em; [|apply IH; lia].
  apply sep_match in Em as [Hr Hw].
  rewrite Nat.min_l by lia.
  destruct (e0 =? p) eqn:Ee; [apply IH; lia|].
  rewrite content_cons, IH by lia.
  rewrite (substring_split s p q e0) by lia.
  rewrite f_space; [reflexivity| |exact Hw].
  intros E. apply (f_equal length) in E. unfold substring in E.
  rewrite length_take, length_drop in E. simpl in E. lia.
Qed.

Lemma content_split cls (s : jsstring) :
  content (split (Seq (Behind cls) (Plus (Chr is_space))) s) = f s.
Proof.
  unfold split. destruct s as [|c t].
  - destruct (match_at [] _ 0); rewrite ?content_single, ?content_nil, ?f_nil; reflexivity.
  - rewrite content_split_loop by lia. reflexivity.
Qed.

(** *** The two loops *)

Variable maxLength : nat.

(** the pieces for which fixed-length slicing keeps the reading *)
Variable sliceable : jsstring -> Prop.
Hypothesis f_slices : forall sub,
  sliceable sub -> maxLength < length sub ->
  content (slices maxLength (length sub) sub) = f sub.

Definition flow (st : list jsstring * jsstring) : list X := content (fst st) ++ f (snd st).

Lemma flow_sub_step st sub :
  sliceable sub -> flow (sub_step maxLength st sub) = flow st ++ f sub.
Proof.
  intros Hs. destruct st as [parts subPart]. unfold sub_step, flow.
  destruct (maxLength <? length sub) eqn:E1; cbn [fst snd].
  - apply Nat.ltb_lt in E1.
    rewrite content_app, content_push, f_slices, f_nil by assumption.
    rewrite app_nil_r. reflexivity.
  - destruct (maxLength <? length subPart + length sub + 1) eqn:E2; cbn [fst snd].
    + rewrite content_app, content_single. reflexivity.
    + rewrite f_glue, app_assoc. reflexivity.
Qed.

Lemma flow_sub_loop subs : forall st,
  Forall sliceable subs ->
  flow (fold_left (sub_step maxLength) subs st) = flow st ++ content subs.
Proof.
  induction subs as [|sub rest IH]; intros st Hall; cbn [fold_left].
  - rewrite content_nil, app_nil_r. reflexivity.
  - inversion Hall; subst. rewrite IH by assumption. rewrite flow_sub_step by assumption.
    rewrite content_cons.
    rewrite <- app_assoc. reflexivity.
Qed.

Definition sentence_ok (sentence : jsstring) : Prop :=
  maxLength < length sentence -> Forall sliceable (split clause_sep sentence).

Lemma flow_sentence_step st sentence :
  sentence_ok sentence -> flow (sentence_step maxLength st sentence) = flow st ++ f sentence.
Proof.
  intros Hok. destruct st as [parts currentPart]. unfold sentence_step.
  destruct (maxLength <? length sentence) eqn:E1.
  - apply Nat.ltb_lt in E1. specialize (Hok E1).
    pose proof (flow_sub_loop _ (push_nonempty parts currentPart, []) Hok) as Hl.
    destruct (fold_left _ _ _) as [parts2 subPart].
    unfold flow in *. cbn [fst snd] in *.
    rewrite content_push, f_nil, app_nil_r. rewrite Hl.
    rewrite content_push, f_nil, app_nil_r.
    unfold clause_sep. rewrite content_split. reflexivity.
  - unfold flow. cbn [fst snd].
    destruct (maxLength <? length currentPart + length sentence + 1) eqn:E2; cbn [fst snd].
    + rewrite content_app, content_single. reflexivity.
    + rewrite f_glue, app_assoc. reflexivity.
Qed.

Lemma flow_sentence_loop sentences : forall st,
  Forall sentence_ok sentences ->
  flow (fold_left (sentence_step maxLength) sentences st) = flow st ++ content sentences.
Proof.
  induction sentences as [|x rest IH]; intros st Hall; cbn [fold_left].
  - rewrite content_nil, app_nil_r. reflexivity.
  - inversion Hall; subst. rewrite IH by assumption.
    rewrite flow_sentence_step by assumption. rewrite content_cons, <- app_assoc.
    reflexivity.
Qed.

Lemma content_splitText text :
  Forall sentence_ok (split sentence_sep text) ->
  f (join space (splitText text maxLength)) = f text.
Proof.
  intros Hok. rewrite f_join. unfold splitText.
  destruct (length text <=? maxLength).
  - apply content_single.
  - pose proof (flow_sentence_loop _ ([], []) Hok) as Hl.
    destruct (fold_left _ _ _) as [parts currentPart].
    rewrite content_push. unfold flow in Hl. cbn [fst snd] in Hl. rewrite Hl.
    rewrite content_nil, f_nil. cbn [app].
    unfold sentence_sep. apply content_split.
Qed.

End Content.

(** *** The two readings: characters that are not white space, and words *)

Lemma ink_app a b : ink (a ++ b) = ink a ++ ink b.
Proof. unfold ink. apply List.filter_app. Qed.

Lemma ink_space w : all_space w -> ink w = [].
Proof.
  unfold ink. induction 1 as [|c w Hc _ IH]; [reflexivity|].
  simpl. rewrite Hc. exact IH.
Qed.

Lemma ink_skip a w b : w <> [] -> all_space w -> ink (a ++ w ++ b) = ink a ++ ink b.
Proof. intros _ Hw. rewrite !ink_app, (ink_space w Hw). reflexivity. Qed.

Lemma ink_slices maxLength : 1 <= maxLength -> forall n sub,
  length sub <= n -> content _ ink (slices maxLength n sub) = ink sub.
Proof.
  intros HL. induction n as [|n IH]; intros sub Hn.
  - destruct sub; [reflexivity|simpl in Hn; lia].
  - destruct sub as [|c t]; [reflexivity|].
    cbn [slices]. rewrite content_cons, IH.
    + rewrite <- ink_app, take_drop. reflexivity.
    + rewrite length_drop. simpl in *. lia.
Qed.

Lemma words_from_space cur a c rest :
  is_space c = true ->
  words_from cur (a ++ c :: rest) = words_from cur a ++ words_from [] rest.
Proof.
  intros Hc. revert cur. induction a as [|x a IH]; intros cur; simpl.
  - rewrite Hc. destruct cur; reflexivity.
  - destruct (is_space x); [destruct cur|]; rewrite IH; reflexivity.
Qed.

Lemma words_from_skip w b : all_space w -> words_from [] (w ++ b) = words_from [] b.
Proof.
  induction 1 as [|c w Hc _ IH]; [reflexivity|]. simpl. rewrite Hc. exact IH.
Qed.

Lemma words_skip a w b :
  w <> [] -> all_space w -> words (a ++ w ++ b) = words a ++ words b.
Proof.
  intros Hne Hw. destruct w as [|c w]; [contradiction|].
  inversion Hw; subst. unfold words.
  change (a ++ (c :: w) ++ b) with (a ++ c :: (w ++ b)).
  rewrite words_from_space by assumption. rewrite words_from_skip by assumption.
  reflexivity.
Qed.

(** *** No chunk is longer than the limit *)

Section Bound.

Variable maxLength : nat.

Definition fits (part : jsstring) : Prop := length part <= maxLength.
Definition bounded (st : list jsstring * jsstring) : Prop :=
  Forall fits (fst st) /\ fits (snd st).

Lemma fits_push parts part :
  Forall fits parts -> fits part -> Forall fits (push_nonempty parts part).
Proof.
  intros Hp Hc. destruct part; [exact Hp|]. apply Forall_app. split; [exact Hp|].
  constructor; [exact Hc|constructor].
Qed.

Lemma fits_slices n sub : Forall fits (slices maxLength n sub).
Proof.
  revert sub. induction n as [|n IH]; intros sub; [constructor|].
  destruct sub as [|c t]; [constructor|]. cbn [slices]. constructor; [|apply IH].
  unfold fits. rewrite length_take. lia.
Qed.

Lemma length_glue a b : length (glue a b) <= length a + length b + 1.
Proof.
  destruct a; unfold glue; [simpl; lia|].
  rewrite !length_app. simpl. lia.
Qed.

Lemma bounded_sub_step st sub : bounded st -> bounded (sub_step maxLength st sub).
Proof.
  destruct st as [parts subPart]. intros [Hp Hc]. cbn [fst snd] in *. unfold sub_step.
  destruct (maxLength <? length sub) eqn:E1.
  - split; cbn [fst snd]; [|unfold fits; simpl; lia].
    apply Forall_app. split; [apply fits_push; assumption|apply fits_slices].
  - apply Nat.ltb_ge in E1.
    destruct (maxLength <? length subPart + length sub + 1) eqn:E2; split; cbn [fst snd].
    + apply Forall_app. split; [exact Hp|]. constructor; [exact Hc|constructor].
    + exact E1.
    + exact Hp.
    + apply Nat.ltb_ge in E2. unfold fits. pose proof (length_glue subPart sub). lia.
Qed.

Lemma bounded_sub_loop subs : forall st,
  bounded st -> bounded (fold_left (sub_step maxLength) subs st).
Proof.
  induction subs as [|sub rest IH]; intros st H; cbn [fold_left]; [exact H|].
  apply IH. apply bounded_sub_step. exact H.
Qed.

Lemma bounded_sentence_step st sentence :
  bounded st -> bounded (sentence_step maxLength st sentence).
Proof.
  destruct st as [parts currentPart]. intros [Hp Hc]. cbn [fst snd] in *.
  unfold sentence_step. destruct (maxLength <? length sentence) eqn:E1.
  - pose proof (bounded_sub_loop (split clause_sep sentence)
                  (push_nonempty parts currentPart, [])) as Hl.
    destruct (fold_left _ _ _) as [parts2 subPart].
    destruct Hl as [Hp2 Hc2].
    { split; cbn [fst snd]; [apply fits_push; assumption|unfold fits; simpl; lia]. }
    cbn [fst snd] in *. split; cbn [fst snd]; [|unfold fits; simpl; lia].
    apply fits_push; assumption.
  - apply Nat.ltb_ge in E1.
    destruct (maxLength <? length currentPart + length sentence + 1) eqn:E2;
      split; cbn [fst snd].
    + apply Forall_app. split; [exact Hp|]. constructor; [exact Hc|constructor].
    + exact E1.
    + exact Hp.
    + apply Nat.ltb_ge in E2. unfold fits. pose proof (length_glue currentPart sentence). lia.
Qed.

Lemma bounded_sentence_loop sentences : forall st,
  bounded st -> bounded (fold_left (sentence_step maxLength) sentences st).
Proof.
  induction sentences as [|x rest IH]; intros st H; cbn [fold_left]; [exact H|].
  apply IH. apply bounded_sentence_step. exact H.
Qed.

Lemma fits_splitText text : Forall fits (splitText text maxLength).
Proof.
  unfold splitText. destruct (length text <=? maxLength) eqn:E.
  - apply Nat.leb_le in E. constructor; [exact E|constructor].
  - pose proof (bounded_sentence_loop (split sentence_sep text) ([], [])) as Hl.
    destruct (fold_left _ _ _) as [parts currentPart].
    destruct Hl as [Hp Hc].
    { split; cbn [fst snd]; [constructor|unfold fits; simpl; lia]. }
    apply fits_push; assumption.
Qed.

End Bound.

(** C2 (as amended). For every text and every limit of at least one, no
    chunk is longer than the limit, and the chunks joined by single spaces
    hold the characters of the text that are not white space, in order.
    They hold the words of the text, in order, whenever no clause-level
    segment is longer than the limit; a longer segment is cut into slices of
    the limit's length, wherever the cut falls. *)
Theorem splitText_chunks (text : jsstring) (maxLength : nat) :
  1 <= maxLength ->
  Forall (fun chunk => length chunk <= maxLength) (splitText text maxLength) /\
  ink (join space (splitText text maxLength)) = ink text /\
  (no_slicing text maxLength ->
   words (join space (splitText text maxLength)) = words text).
Proof.
  intros HL. split; [apply fits_splitText|]. split.
  - apply (content_splitText _ ink eq_refl ink_skip maxLength (fun _ => True)).
    + intros sub _ _. apply ink_slices; [exact HL|lia].
    + apply Forall_forall. intros sentence _ _. apply Forall_forall. intros; exact I.
  - intros Hno.
    apply (content_splitText _ words eq_refl words_skip maxLength
             (fun sub => length sub <= maxLength)).
    + intros sub Hs Hlt. lia.
    + exact Hno.
Qed.

Lemma no_slicing_sample : no_slicing (js "Fine, thanks; and you?  Very well.") 12.
Proof.
  unfold no_slicing.
  replace (split sentence_sep (js "Fine, thanks; and you?  Very well."))
    with [js "Fine, thanks; and you?"; js "Very well."] by (vm_compute; reflexivity).
  constructor; [|constructor; [|constructor]].
  - intros _.
    replace (split clause_sep (js "Fine, thanks; and you?"))
      with [js "Fine,"; js "thanks;"; js "and you?"] by (vm_compute; reflexivity).
    repeat constructor; simpl; lia.
  - simpl. intros H. lia.
Qed.

Lemma splitText_chunks_witness :
  1 <= 12 /\
  Forall (fun chunk => length chunk <= 12)
         (splitText (js "Fine, thanks; and you?  Very well.") 12) /\
  ink (join space (splitText (js "Fine, thanks; and you?  Very well.") 12))
    = ink (js "Fine, thanks; and you?  Very well.") /\
  words (join space (splitText (js "Fine, thanks; and you?  Very well.") 12))
    = words (js "Fine, thanks; and you?  Very well.").
Proof.
  split; [lia|].
  destruct (splitText_chunks (js "Fine, thanks; and you?  Very well.") 12) as (H1 & H2 & H3);
    [lia|].
  split; [exact H1|]. split; [exact H2|]. apply H3. exact no_slicing_sample.
Defined.

Example splitText_sentences_and_clauses :
  splitText (js "Hi there. How are you? Fine, thanks; bye!  Ok") 10 =
    [js "Hi there."; js "How are yo"; js "u?"; js "Fine,"; js "thanks;"; js "bye!"; js "Ok"].
Proof. vm_compute. reflexivity. Qed.

(** a sentence as long as the limit, met with nothing collected so far,
    pushes the empty part *)
Example splitText_empty_chunk : splitText (js "abc. de") 4 = [[]; js "abc."; js "de"].
Proof. vm_compute. reflexivity. Qed.

(** C2, counterexample to the claim as first stated: with the limit 4 the
    text aa bbb, whose words are no longer than the limit, is cut into the
    chunks aa b and bb; joined by a space they read aa, b, bb. *)
Lemma splitText_cuts_inside_a_word :
  splitText (js "aa bbb") 4 = [js "aa b"; js "bb"] /\
  words (join space (splitText (js "aa bbb") 4)) = [js "aa"; js "b"; js "bb"] /\
  words (js "aa bbb") = [js "aa"; js "bbb"] /\
  words (join space (splitText (js "aa bbb") 4)) <> words (js "aa bbb").
Proof.
  split; [vm_compute; reflexivity|].
  split; [vm_compute; reflexivity|].
  split; [vm_compute; reflexivity|].
  vm_compute. discriminate.
Qed.

End ChunkerProofs.

(** ** The remote-provider translation path *)

Module GoogleTranslateProofs.

Import Chunker GoogleTranslate.

Section Endpoints.

Variable official alternative :
  nat -> jsstring -> jsval jsstring -> jsval jsstring -> option jsstring.
Variable addHebrewPunctuation : jsstring -> jsstring.

(** what ends up at the position of chunk [i] *)
Definition outcome (sl tl : jsval jsstring) (i : nat) (chunk : jsstring) : jsstring :=
  match official i chunk sl tl with
  | Some t => t
  | None =>
      match alternative i chunk sl tl with
      | Some t => t
      | None => chunk
      end
  end.

(** the requests made for chunk [i]: the primary endpoint, then the
    secondary one when the primary failed *)
Definition chunk_requests (sl tl : jsval jsstring) (i : nat) (chunk : jsstring)
  : list call :=
  Official i chunk sl tl ::
  match official i chunk sl tl with
  | Some _ => []
  | None => [Alternative i chunk sl tl]
  end.

Definition is_request (c : call) : bool :=
  match c with
  | Pause => false
  | _ => true
  end.

Lemma translate_chunk_spec sl tl i chunk :
  translate_chunk official alternative sl tl i chunk =
    (outcome sl tl i chunk, chunk_requests sl tl i chunk).
Proof.
  unfold translate_chunk, outcome, chunk_requests.
  destruct (official i chunk sl tl); [reflexivity|].
  destruct (alternative i chunk sl tl); reflexivity.
Qed.

Lemma translate_from_spec sl tl chunks : forall i,
  fst (translate_from official alternative sl tl i chunks)
    = imap (fun k => outcome sl tl (i + k)) chunks /\
  List.filter is_request (snd (translate_from official alternative sl tl i chunks))
    = concat (imap (fun k => chunk_requests sl tl (i + k)) chunks).
Proof.
  induction chunks as [|chunk rest IH]; intros i; [split; reflexivity|].
  cbn [translate_from]. rewrite translate_chunk_spec.
  destruct (IH (S i)) as [IH1 IH2].
  destruct (translate_from official alternative sl tl (S i) rest) as [ts cs'].
  cbn [fst snd] in *. split.
  - cbn [imap]. rewrite Nat.add_0_r. f_equal. rewrite IH1.
    apply imap_ext. intros k x _. simpl. f_equal. lia.
  - rewrite !List.filter_app, IH2. cbn [imap concat]. rewrite Nat.add_0_r.
    assert (Hreq : List.filter is_request (chunk_requests sl tl i chunk)
                   = chunk_requests sl tl i chunk).
    { unfold chunk_requests. destruct (official i chunk sl tl); reflexivity. }
    rewrite Hreq.
    assert (Hpause : List.filter is_request (match rest with [] => [] | _ => [Pause] end) = []).
    { destruct rest; reflexivity. }
    rewrite Hpause. cbn [app]. f_equal. f_equal.
    apply imap_ext. intros k x _. simpl. f_equal. lia.
Qed.

(** C8. In the remote-provider path every chunk is sent to the primary
    endpoint first and, when that call fails, to the secondary endpoint,
    and to nothing else. The translated chunks are as many as the chunks;
    at the position of a chunk for which both endpoints fail stands the
    chunk itself, whatever happened to the chunks before it, and the merged
    output is the translated chunks joined by single spaces. The function
    returns for every text and every behaviour of the endpoints, and what
    it returns is that merged output, formatted for the target language
    (punctuated for Hebrew, marked right to left for Hebrew and Arabic):
    for any other target the translation returned is the merged output
    itself, with the chunk that both endpoints failed on at its place
    between the translated chunks before and after it, and the direction
    is left to right. *)
Theorem translateWithGoogle_chunk_fallback (text sourceLang targetLang : jsstring) :
  let run := translateWithGoogle official alternative addHebrewPunctuation
               text sourceLang targetLang in
  let sl := getGoogleLanguageCode sourceLang in
  let tl := getGoogleLanguageCode targetLang in
  let merged := join (js " ") (imap (outcome sl tl) (splitText text MAX_CHUNK_SIZE)) in
  chunks run = splitText text MAX_CHUNK_SIZE /\
  length (translatedChunks run) = length (chunks run) /\
  mergedTranslation run = join (js " ") (translatedChunks run) /\
  List.filter is_request (requests run) = concat (imap (chunk_requests sl tl) (chunks run)) /\
  (forall i chunk, chunks run !! i = Some chunk ->
     translatedChunks run !! i = Some (outcome sl tl i chunk)) /\
  (forall i chunk, chunks run !! i = Some chunk ->
     official i chunk sl tl = None -> alternative i chunk sl tl = None ->
     translatedChunks run !! i = Some chunk) /\
  mergedTranslation run = merged /\
  (translation run, direction run)
    = setTextDirection
        (if decide (targetLang = js "he") then addHebrewPunctuation merged else merged)
        targetLang /\
  (targetLang <> js "he" -> targetLang <> js "ar" ->
   translation run = merged /\
   direction run = js "ltr" /\
   forall i chunk, chunks run !! i = Some chunk ->
     official i chunk sl tl = None -> alternative i chunk sl tl = None ->
     translation run
       = join (js " ")
           (imap (outcome sl tl) (take i (chunks run))
              ++ chunk :: imap (fun k => outcome sl tl (S i + k)) (drop (S i) (chunks run)))).
Proof.
  intros run sl tl merged. subst run. unfold translateWithGoogle.
  fold sl tl.
  destruct (translate_from_spec sl tl (splitText text MAX_CHUNK_SIZE) 0) as [H1 H2].
  destruct (translate_from official alternative sl tl 0 (splitText text MAX_CHUNK_SIZE))
    as [translated reqs].
  cbn [fst snd] in H1, H2.
  assert (Ht : translated = imap (outcome sl tl) (splitText text MAX_CHUNK_SIZE)).
  { rewrite H1. apply imap_ext. intros k x _. reflexivity. }
  clear H1.
  destruct (setTextDirection _ targetLang) as [formatted dir] eqn:Ed.
  cbn [chunks translatedChunks mergedTranslation translation direction requests].
  assert (Hpos : forall i chunk, splitText text MAX_CHUNK_SIZE !! i = Some chunk ->
                 translated !! i = Some (outcome sl tl i chunk)).
  { intros i chunk Hi. rewrite Ht, list_lookup_imap, Hi. reflexivity. }
  assert (Hboth : forall i chunk, official i chunk sl tl = None ->
                  alternative i chunk sl tl = None -> outcome sl tl i chunk = chunk).
  { intros i chunk Ho Ha. unfold outcome. rewrite Ho, Ha. reflexivity. }
  assert (Hm : join (js " ") translated = merged) by (rewrite Ht; reflexivity).
  rewrite Hm in Ed.
  split; [reflexivity|]. split; [rewrite Ht; apply length_imap|].
  split; [reflexivity|]. split; [exact H2|]. split; [exact Hpos|].
  split; [intros i chunk Hi Ho Ha; rewrite (Hpos i chunk Hi), (Hboth i chunk Ho Ha);
          reflexivity|].
  split; [exact Hm|]. split; [symmetry; exact Ed|].
  intros Hhe Har. rewrite decide_False in Ed by exact Hhe.
  unfold setTextDirection in Ed. rewrite decide_False in Ed by tauto.
  injection Ed as <- <-. split; [reflexivity|]. split; [reflexivity|].
  intros i chunk Hi Ho Ha. unfold merged. f_equal.
  rewrite <- (take_drop_middle _ i chunk Hi) at 1.
  rewrite imap_app. cbn [imap].
  assert (Hlen : length (take i (splitText text MAX_CHUNK_SIZE)) = i).
  { apply lookup_lt_Some in Hi. rewrite length_take. lia. }
  rewrite Hlen, Nat.add_0_r, (Hboth i chunk Ho Ha). f_equal. f_equal.
  apply imap_ext. intros k x _. cbn. f_equal. lia.
Qed.

End Endpoints.

End GoogleTranslateProofs.

(** ** The transcription route *)

Module TranscribeFacts.

Import Resolver Path Transcribe.

Local Open Scope Z_scope.

Lemma js_cons a t : js (String a t) = Ascii.N_of_ascii a :: js t.
Proof. reflexivity. Qed.

(** a number is never rendered as the empty string *)
Lemma dec_nonempty z : dec z <> [].
Proof.
  unfold dec. destruct (z <? 0); [discriminate|].
  destruct (N.to_uint (Z.to_N z)); discriminate.
Qed.

(** the known-video table has no entry for an identifier the YouTube
    resolver returns: its key has ten characters, the first of which is not
    the first of the fallback identifiers *)
Lemma youtube_id_not_known e url :
  lookup_key (extractYouTubeVideoId e url) knownVideos = None.
Proof.
  unfold knownVideos. cbn [lookup_key]. rewrite decide_False; [reflexivity|].
  unfold extractYouTubeVideoId. intros E.
  destruct url as [[|c u]|]; try discriminate.
  destruct (capture youtubeRegExp 2 (c :: u)) as [id|]; [|discriminate].
  destruct (Nat.eqb (length id) 11) eqn:El; [|discriminate].
  apply Nat.eqb_eq in El. rewrite <- E in El. discriminate.
Qed.

(** an identifier of the YouTube resolver has eleven characters, or starts
    with the letter y of its fallback identifiers *)
Lemma youtube_id_form e url :
  length (extractYouTubeVideoId e url) = 11%nat \/
  exists t, extractYouTubeVideoId e url = 121%N :: t.
Proof.
  unfold extractYouTubeVideoId.
  destruct url as [[|c u]|]; try (right; eexists; reflexivity).
  destruct (capture youtubeRegExp 2 (c :: u)) as [id|]; [|right; eexists; reflexivity].
  destruct (Nat.eqb (length id) 11) eqn:El; [|right; eexists; reflexivity].
  left. apply Nat.eqb_eq. exact El.
Qed.

(** of the names that every object inherits, only one has eleven
    characters, and none starts with the letter y *)
Lemma inherited_form (id : jsstring) :
  inherited id = true ->
  (length id = 11%nat \/ exists t, id = 121%N :: t) ->
  id = js "constructor".
Proof.
  intros H Hform. unfold inherited in H. apply existsb_exists in H as (name & Hin & Hn).
  apply bool_decide_eq_true in Hn. subst id.
  unfold object_prototype in Hin. cbn [In] in Hin.
  repeat (destruct Hin as [<-|Hin];
          [first [reflexivity
                 |destruct Hform as [Hl|(t & Ht)]; [vm_compute in Hl|vm_compute in Ht];
                  discriminate]|]).
  contradiction.
Qed.

(** the read of the table of known videos with an identifier of the
    resolver as the key: undefined, but for the identifier constructor,
    which every object inherits *)
Lemma youtube_id_read e url :
  extractYouTubeVideoId e url <> js "constructor" ->
  read (lookup_key (extractYouTubeVideoId e url) knownVideos) (extractYouTubeVideoId e url)
    = None.
Proof.
  intros Hc. rewrite youtube_id_not_known. unfold read.
  destruct (inherited (extractYouTubeVideoId e url)) eqn:Ei; [|reflexivity].
  exfalso. apply Hc. apply inherited_form; [exact Ei|apply youtube_id_form].
Qed.

Lemma constructor_read :
  read (lookup_key (js "constructor") knownVideos) (js "constructor")
    = Some (Inherited (js "constructor")).
Proof. vm_compute. reflexivity. Qed.

(** whether the identifier of a URL is the name constructor does not depend
    on the clock or the random source: a fallback identifier never is *)
Lemma constructor_id_any_env e e' u :
  extractYouTubeVideoId e (Some u) <> js "constructor" ->
  extractYouTubeVideoId e' (Some u) <> js "constructor".
Proof.
  unfold extractYouTubeVideoId. destruct u as [|c u]; [discriminate|].
  destruct (capture youtubeRegExp 2 (c :: u)) as [id|]; [|discriminate].
  destruct (Nat.eqb (length id) 11); [tauto|discriminate].
Qed.

(** no identifier of the resolver is an own key of the table *)
Lemma youtube_id_never_own e url (kv : KnownVideo) :
  read (lookup_key (extractYouTubeVideoId e url) knownVideos) (extractYouTubeVideoId e url)
    <> Some (Val kv).
Proof.
  rewrite youtube_id_not_known. unfold read.
  destruct (inherited _); discriminate.
Qed.

(** *** What a handler leaves untouched *)

(** the tools run between two states: the second trace extends the first *)
Definition ran (tools : list tool) (s s' : server) : Prop :=
  calls s' = calls s ++ tools /\
  transcriptionCache s' = transcriptionCache s /\
  tempVideoId s' = tempVideoId s.

Lemma ran_refl s : ran [] s s.
Proof. repeat split. symmetry; apply app_nil_r. Qed.

Lemma ran_trans a b s1 s2 s3 : ran a s1 s2 -> ran b s2 s3 -> ran (a ++ b) s1 s3.
Proof.
  intros (H1 & C1 & T1) (H2 & C2 & T2). repeat split; [|congruence|congruence].
  rewrite H2, H1, app_assoc. reflexivity.
Qed.

Lemma ran_progress rid e s : ran [] s (set_progress rid e s).
Proof. repeat split. symmetry; apply app_nil_r. Qed.

Lemma ran_invoke t s : ran [t] s (invoke t s).
Proof. repeat split. Qed.

Lemma ran_download w a s : exists rest, ran (YtDlp :: rest) s (snd (download w a s)).
Proof.
  unfold download. destruct (ytdlp_ok w); [exists []; apply ran_invoke|].
  destruct (script_exists w); [|exists []; apply ran_invoke].
  exists [PythonDownloader].
  assert (H : ran [YtDlp; PythonDownloader] s (invoke PythonDownloader (invoke YtDlp s))).
  { apply (ran_trans [YtDlp] [PythonDownloader] _ _ _ (ran_invoke _ _) (ran_invoke _ _)). }
  destruct (python_download w) as [[[[] [[|c p]|]]|]|]; exact H.
Qed.

Lemma ran_transcribe w s : exists rest, ran rest s (snd (transcribe w s)).
Proof.
  unfold transcribe. destruct (python_shell w) as [[|r0 rs]|].
  - exists [PythonShellTranscriber]. apply ran_invoke.
  - exists [PythonShellTranscriber]. apply ran_invoke.
  - exists [PythonShellTranscriber; DirectTranscriber].
    assert (H : ran [PythonShellTranscriber; DirectTranscriber] s
                  (invoke DirectTranscriber (invoke PythonShellTranscriber s))).
    { apply (ran_trans [_] [_] _ _ _ (ran_invoke _ _) (ran_invoke _ _)). }
    destruct (direct_exec w) as [[r|]|]; exact H.
Qed.

Lemma ran_transcribe_found w rid title a s :
  exists rest, ran rest s (snd (transcribe_found w rid title a s)).
Proof.
  unfold transcribe_found.
  destruct (ran_transcribe w (set_progress rid (entry 40 (js "Transcribing audio")) s))
    as (rest & Hr).
  destruct (transcribe w _) as [tr s2]. cbn [snd] in Hr.
  exists rest.
  assert (H0 : ran rest s s2).
  { apply (ran_trans [] rest _ _ _ (ran_progress _ _ _) Hr). }
  destruct tr as [[[] [[|c t]|] lang err]|]; exact H0.
Qed.

Lemma ran_processYouTubeVideo w u d rid s :
  exists rest, ran (GetTitle :: YtDlp :: rest) s (snd (processYouTubeVideo w u d rid s)).
Proof.
  unfold processYouTubeVideo.
  set (videoId := default _ _). set (base := path_join d videoId).
  set (s2 := set_progress rid _ (invoke GetTitle s)).
  assert (H2 : ran [GetTitle] s s2).
  { apply (ran_trans [_] [] _ _ _ (ran_invoke _ _) (ran_progress _ _ _)). }
  destruct (ran_download w (base ++ js ".mp3") s2) as (r1 & H3).
  destruct (download w _ s2) as [audio s3]. cbn [snd] in H3.
  assert (H23 : ran (GetTitle :: YtDlp :: r1) s s3).
  { apply (ran_trans [_] (_ :: _) _ _ _ H2 H3). }
  assert (Hfound : forall found,
    exists rest, ran (GetTitle :: YtDlp :: rest) s
                     (snd (transcribe_found w rid (get_title w videoId) found s3))).
  { intros found.
    destruct (ran_transcribe_found w rid (get_title w videoId) found s3) as (r2 & H4).
    exists (r1 ++ r2).
    apply (ran_trans (GetTitle :: YtDlp :: r1) r2 _ _ _ H23 H4). }
  destruct (find_expected w base) as [found|]; [apply Hfound|].
  destruct (readdir w) as [files|].
  - destruct (possibleAudioFiles d videoId files) as [|found ?]; [|apply Hfound].
    exists r1. exact H23.
  - exists r1. destruct rid; exact H23.
Qed.

(** the outcome of the extraction does not depend on the server state *)
Lemma processYouTubeVideo_outcome w u d rid s s' :
  fst (processYouTubeVideo w u d rid s) = fst (processYouTubeVideo w u d rid s').
Proof.
  unfold processYouTubeVideo.
  set (videoId := default _ _). set (base := path_join d videoId).
  assert (Hd : forall a x y, fst (download w a x) = fst (download w a y)).
  { intros a x y. unfold download. destruct (ytdlp_ok w); [reflexivity|].
    destruct (script_exists w); [|reflexivity].
    destruct (python_download w) as [[[[] [[|c p]|]]|]|]; reflexivity. }
  assert (Ht : forall x y, fst (transcribe w x) = fst (transcribe w y)).
  { intros x y. unfold transcribe. destruct (python_shell w) as [[|r0 rs]|]; try reflexivity.
    destruct (direct_exec w) as [[r|]|]; reflexivity. }
  assert (Hf : forall t a x y,
    fst (transcribe_found w rid t a x) = fst (transcribe_found w rid t a y)).
  { intros t a x y. unfold transcribe_found.
    pose proof (Ht (set_progress rid (entry 40 (js "Transcribing audio")) x)
                   (set_progress rid (entry 40 (js "Transcribing audio")) y)) as E.
    destruct (transcribe w (set_progress _ _ x)) as [tr1 x2].
    destruct (transcribe w (set_progress _ _ y)) as [tr2 y2].
    cbn [fst] in E. subst tr2.
    destruct tr1 as [[[] [[|c t']|] lang err]|]; reflexivity. }
  pose proof (Hd (base ++ js ".mp3")
     (set_progress rid (entry 10 (js "Downloading YouTube audio")) (invoke GetTitle s))
     (set_progress rid (entry 10 (js "Downloading YouTube audio")) (invoke GetTitle s'))) as E.
  destruct (download w _ (set_progress _ _ (invoke GetTitle s))) as [a1 x3].
  destruct (download w _ (set_progress _ _ (invoke GetTitle s'))) as [a2 y3].
  cbn [fst] in E. subst a2.
  destruct (find_expected w base) as [found|]; [apply Hf|].
  destruct (readdir w) as [files|]; [|reflexivity].
  destruct (possibleAudioFiles d videoId files) as [|found ?]; [reflexivity|apply Hf].
Qed.

(** the handler after the URL and the request identifier were accepted *)
Lemma POST_accepted w err req s u :
  truthy (url req) = Some u ->
  POST w err (Some req) s =
    let requestId := dec (t_request w) in
    let s1 := set_progress requestId (entry 1 (js "Starting process")) s in
    let cacheKey := u ++ js "_" ++ default TARGET_LANGUAGES.HEBREW (truthy (targetLanguage req)) in
    match transcriptionCache s !! cacheKey with
    | Some (data, timestamp) =>
        if t_cache w - timestamp <? CACHE_DURATION
        then (reply 200 data,
              set_progress requestId (entry 100 (js "Retrieved from cache")) s1)
        else run w requestId cacheKey u req s1
    | None => run w requestId cacheKey u req s1
    end.
Proof.
  intros Hu. unfold POST. rewrite Hu.
  pose proof (dec_nonempty (t_request w)) as Hd.
  destruct (dec (t_request w)) as [|c t] eqn:E; [contradiction|]. reflexivity.
Qed.

(** a stale or missing entry is ignored *)
Lemma POST_stale w err req s u :
  truthy (url req) = Some u ->
  (forall data ts,
     transcriptionCache s
       !! (u ++ js "_" ++ default TARGET_LANGUAGES.HEBREW (truthy (targetLanguage req)))
       = Some (data, ts) ->
     CACHE_DURATION <= t_cache w - ts) ->
  POST w err (Some req) s =
    run w (dec (t_request w))
      (u ++ js "_" ++ default TARGET_LANGUAGES.HEBREW (truthy (targetLanguage req))) u req
      (set_progress (dec (t_request w)) (entry 1 (js "Starting process")) s).
Proof.
  intros Hu Hstale. rewrite (POST_accepted _ _ _ _ _ Hu). cbv zeta.
  destruct (transcriptionCache s !! _) as [[data ts]|]; [|reflexivity].
  specialize (Hstale _ _ eq_refl).
  destruct (t_cache w - ts <? CACHE_DURATION) eqn:El; [|reflexivity].
  apply Z.ltb_lt in El. lia.
Qed.

(** the state in which the extraction starts *)
Definition before_extraction (w : world) (u : jsstring) (s : server) : server :=
  let requestId := dec (t_request w) in
  set_progress requestId (entry 15 (js "Extracting content"))
    (set_progress requestId (entry 10 (js "Starting download process"))
       (set_tempVideoId (extractYouTubeVideoId (id_env w) (Some u))
          (set_progress requestId (entry 1 (js "Starting process")) s))).

Definition tempDir (w : world) : jsstring := path_join (tmpdir w) (js "video_transcriptions").

Lemma run_youtube w key u req s1 :
  platformType req = Some PlatformType.YOUTUBE ->
  extractYouTubeVideoId (id_env w) (Some u) <> js "constructor" ->
  mkdir_error w = None ->
  run w (dec (t_request w)) key u req s1 =
    let s3 :=
      set_progress (dec (t_request w)) (entry 15 (js "Extracting content"))
        (set_progress (dec (t_request w)) (entry 10 (js "Starting download process"))
           (set_tempVideoId (extractYouTubeVideoId (id_env w) (Some u)) s1)) in
    finish w (dec (t_request w)) key req
      (fst (processYouTubeVideo w u (tempDir w) (dec (t_request w)) s3))
      (snd (processYouTubeVideo w u (tempDir w) (dec (t_request w)) s3)).
Proof.
  intros Hp Hc Hm. unfold run. rewrite Hp, Hm.
  rewrite bool_decide_true by reflexivity. rewrite (youtube_id_read _ _ Hc).
  cbv zeta. fold (tempDir w). destruct (processYouTubeVideo w u (tempDir w) _ _). reflexivity.
Qed.

(** the identifier constructor: the table of known videos answers with an
    inherited value, the handler fails on it and answers 500; only the
    identifier of the video was recorded *)
Lemma run_constructor w rid key u req s1 :
  platformType req = Some PlatformType.YOUTUBE ->
  extractYouTubeVideoId (id_env w) (Some u) = js "constructor" ->
  run w rid key u req s1 =
    (refuse 500 (type_error w (default TARGET_LANGUAGES.HEBREW (truthy (targetLanguage req)))),
     set_tempVideoId (js "constructor") s1).
Proof.
  intros Hp Hc. unfold run. rewrite Hp, Hc.
  rewrite bool_decide_true by reflexivity. rewrite constructor_read. reflexivity.
Qed.

Lemma run_other_platform w key u req s1 :
  platformType req <> Some PlatformType.YOUTUBE ->
  status (fst (run w (dec (t_request w)) key u req s1)) = 500%nat /\
  ran [] s1 (snd (run w (dec (t_request w)) key u req s1)).
Proof.
  intros Hp. unfold run. rewrite bool_decide_false by exact Hp.
  destruct (mkdir_error w); split; try reflexivity; repeat split; symmetry; apply app_nil_r.
Qed.

Lemma calls_translateWithLocalAI w text tl s :
  exists rest, calls (snd (translateWithLocalAI w text tl s)) = calls s ++ rest.
Proof.
  unfold translateWithLocalAI. destruct (truthy (nllb_api w text tl)); [eexists; reflexivity|].
  destruct (truthy (google_api w text tl)); exists [NllbApi; GoogleApi];
    cbn [snd invoke calls]; rewrite <- app_assoc; reflexivity.
Qed.

Lemma calls_finish w rid key req tr s :
  exists rest, calls (snd (finish w rid key req tr s)) = calls s ++ rest.
Proof.
  unfold finish. destruct (negb (r_success tr)).
  - exists []. rewrite app_nil_r. cbv zeta. destruct (translateFallback _ _ _); reflexivity.
  - cbv zeta.
    set (s1 := set_progress rid (entry 70 (js "Detecting language")) s).
    set (text := default [] (truthy (r_transcript tr))).
    match goal with
    | |- context [let '(translated, s3) := ?t in _] =>
        assert (Ht : exists rest, calls (snd t) = calls s ++ rest); [|destruct t as [translated s3]]
    end.
    { destruct (truthy (targetLanguage req)) as [tl|]; [|exists []; rewrite app_nil_r; reflexivity].
      case_decide; [exists []; rewrite app_nil_r; reflexivity|].
      destruct text; [exists []; rewrite app_nil_r; reflexivity|].
      destruct (calls_translateWithLocalAI w (n :: text) tl
                  (set_progress rid (entry 80 (js "Translating content")) s1)) as (rest & Hr).
      exists rest. exact Hr. }
    destruct Ht as (rest & Hr). exists rest. exact Hr.
Qed.

(** the prepared translation is the Hebrew text whatever the transcript
    and the target language, but for a target language that is a name every
    object inherits: the test [in] finds the name, and the translation is
    the inherited value *)
Lemma prepared_spec transcript target :
  prepared transcript target
    = if inherited target then Inherited target else Val fallback_he.
Proof.
  unfold prepared. cbn [defaultResponse kv_translations lookup_key].
  case_decide as Hhe.
  - subst target. reflexivity.
  - unfold read at 1. destruct (inherited target); [reflexivity|].
    rewrite decide_True by reflexivity. reflexivity.
Qed.


End TranscribeFacts.

Module TranscribeProofs.

Import Resolver Path Transcribe TranscribeFacts.

Local Open Scope Z_scope.

(** *** Concrete inputs *)

(** the message of the TypeError as the V8 runtime words it *)
Definition v8_type_error (key : jsstring) : jsstring :=
  js "Cannot read properties of undefined (reading '" ++ key ++ js "')".

(** a world in which every external tool fails: the title command, both
    downloaders (the fallback script is missing), and no audio file appears *)
Definition unreachable_world : world :=
  {| tmpdir := js "/tmp";
     t_request := 1700000000000;
     t_cache := 1700000000002;
     id_env := ResolverProofs.sample_env;
     id_env2 := ResolverProofs.sample_env;
     t_unknown := 1700000000003;
     t_store := 1700000000900;
     mkdir_error := None;
     title_stdout := None;
     ytdlp_ok := false;
     script_exists := false;
     python_download := None;
     file_exists := fun _ => false;
     readdir := Some [];
     readdir_error := js "ENOENT";
     python_shell := None;
     direct_exec := None;
     nllb_api := fun _ _ => None;
     google_api := fun _ _ => None;
     type_error := v8_type_error |}.

Definition idle_server : server :=
  {| transcriptionProgress := ∅; transcriptionCache := ∅; tempVideoId := None; calls := [] |}.

Definition youtube_request : request :=
  {| url := Some (js "https://youtu.be/dQw4w9WgXcQ");
     targetLanguage := Some (js "ar");
     platformType := Some (js "youtube") |}.

Definition facebook_request : request :=
  {| url := Some (js "https://www.facebook.com/watch/?v=1");
     targetLanguage := None;
     platformType := Some (js "facebook") |}.

Definition old_result : result :=
  {| success := true; transcript := js "hello"; translation := Val (js "shalom");
     detectedLanguage := js "en"; title := js "Video Transcription"; audioPath := None |}.

(** a server whose cache holds, for the Facebook request, a result stored at
    time 0 *)
Definition stale_server : server :=
  {| transcriptionProgress := ∅;
     transcriptionCache := {[ js "https://www.facebook.com/watch/?v=1_he" := (old_result, 0) ]};
     tempVideoId := None;
     calls := [] |}.

(** C3 (as amended). For a submission with a URL: when the cache holds an
    entry for the URL and target language that is younger than 24 hours,
    the handler answers 200 with the cached result, runs no external tool
    and leaves the cache as it is. When the entry is 24 hours old or older,
    or missing, it is not used: a YouTube submission whose working directory
    can be created and whose video identifier is not the name constructor
    goes through the extraction anew (the title command and the downloader
    are run, and the answer is computed from that run), and a submission
    for another platform is answered with status 500 without any tool being
    run. (The identifier constructor is a name that the table of known
    videos inherits; what the handler does with it is not part of this
    statement.) *)
Theorem POST_cache_window (w : world) (err : jsstring) (req : request) (s : server)
  (u : jsstring) :
  truthy (url req) = Some u ->
  let requestId := dec (t_request w) in
  let cacheKey := u ++ js "_" ++ default TARGET_LANGUAGES.HEBREW (truthy (targetLanguage req)) in
  let out := POST w err (Some req) s in
  (forall data timestamp,
     transcriptionCache s !! cacheKey = Some (data, timestamp) ->
     t_cache w - timestamp < CACHE_DURATION ->
     fst out = reply 200 data /\
     calls (snd out) = calls s /\
     transcriptionCache (snd out) = transcriptionCache s) /\
  ((forall data timestamp,
      transcriptionCache s !! cacheKey = Some (data, timestamp) ->
      CACHE_DURATION <= t_cache w - timestamp) ->
   (platformType req = Some PlatformType.YOUTUBE -> mkdir_error w = None ->
    extractYouTubeVideoId (id_env w) (Some u) <> js "constructor" ->
    out = finish w requestId cacheKey req
            (fst (processYouTubeVideo w u (tempDir w) requestId (before_extraction w u s)))
            (snd (processYouTubeVideo w u (tempDir w) requestId (before_extraction w u s))) /\
    exists rest, calls (snd out) = calls s ++ GetTitle :: YtDlp :: rest) /\
   (platformType req <> Some PlatformType.YOUTUBE ->
    status (fst out) = 500%nat /\
    calls (snd out) = calls s /\
    transcriptionCache (snd out) = transcriptionCache s)).
Proof.
  intros Hu requestId cacheKey out. subst requestId. split.
  - intros data timestamp Hc Hfresh. subst out.
    rewrite (POST_accepted _ _ _ _ _ Hu). cbv zeta. fold cacheKey. rewrite Hc.
    apply Z.ltb_lt in Hfresh. rewrite Hfresh. repeat split.
  - intros Hstale. subst out. rewrite (POST_stale _ _ _ _ _ Hu Hstale).
    fold cacheKey. split.
    + intros Hp Hm Hid. rewrite (run_youtube _ _ _ _ _ Hp Hid Hm). cbv zeta.
      change (set_progress (dec (t_request w)) (entry 15 (js "Extracting content")) _)
        with (before_extraction w u s).
      split; [reflexivity|].
      destruct (ran_processYouTubeVideo w u (tempDir w) (dec (t_request w))
                  (before_extraction w u s)) as (r1 & Hr1 & _).
      destruct (calls_finish w (dec (t_request w)) cacheKey req
                  (fst (processYouTubeVideo w u (tempDir w) (dec (t_request w))
                          (before_extraction w u s)))
                  (snd (processYouTubeVideo w u (tempDir w) (dec (t_request w))
                          (before_extraction w u s))))
        as (r2 & Hr2).
      exists (r1 ++ r2). rewrite Hr2, Hr1.
      cbn [before_extraction calls set_progress set_tempVideoId].
      rewrite <- app_assoc. reflexivity.
    + intros Hp. destruct (run_other_platform w cacheKey u req
                             (set_progress (dec (t_request w))
                                (entry 1 (js "Starting process")) s) Hp)
        as (Hst & Hc & Hk & _).
      split; [exact Hst|]. split; [|exact Hk].
      rewrite Hc. cbn [calls set_progress]. apply app_nil_r.
Qed.

(** a server whose cache holds a result for the YouTube request, stored
    one second before the request *)
Definition warm_server : server :=
  {| transcriptionProgress := ∅;
     transcriptionCache :=
       {[ js "https://youtu.be/dQw4w9WgXcQ_ar" := (old_result, 1699999999000) ]};
     tempVideoId := None;
     calls := [] |}.

Lemma POST_cache_window_witness :
  truthy (url youtube_request) = Some (js "https://youtu.be/dQw4w9WgXcQ") /\
  fst (POST unreachable_world [] (Some youtube_request) warm_server) = reply 200 old_result /\
  calls (snd (POST unreachable_world [] (Some youtube_request) warm_server)) = [] /\
  exists rest,
    calls (snd (POST unreachable_world [] (Some youtube_request) idle_server))
      = GetTitle :: YtDlp :: rest.
Proof.
  split; [reflexivity|].
  destruct (POST_cache_window unreachable_world [] youtube_request warm_server
              (js "https://youtu.be/dQw4w9WgXcQ") eq_refl) as [Hhit _].
  destruct (Hhit old_result 1699999999000) as (H1 & H2 & _).
  { apply lookup_singleton_eq. }
  { reflexivity. }
  split; [exact H1|]. split; [exact H2|].
  destruct (POST_cache_window unreachable_world [] youtube_request idle_server
              (js "https://youtu.be/dQw4w9WgXcQ") eq_refl) as [_ Hmiss].
  destruct Hmiss as [Hyt _].
  { intros data timestamp H. unfold idle_server in H. cbn [transcriptionCache] in H.
    rewrite lookup_empty in H. discriminate. }
  refine (proj2 (Hyt eq_refl eq_refl _)). vm_compute. discriminate.
Defined.

(** C3, counterexample to the claim as first stated: the cache holds an
    entry for the submitted URL and target language that is older than 24
    hours, the submission names the platform facebook, and the handler
    answers 500 without running any tool: no fresh pipeline run takes
    place. *)
Lemma POST_stale_entry_no_pipeline_run :
  transcriptionCache stale_server !! js "https://www.facebook.com/watch/?v=1_he"
    = Some (old_result, 0) /\
  CACHE_DURATION <= t_cache unreachable_world - 0 /\
  status (fst (POST unreachable_world [] (Some facebook_request) stale_server)) = 500%nat /\
  calls (snd (POST unreachable_world [] (Some facebook_request) stale_server)) = [].
Proof.
  split; [apply lookup_singleton_eq|]. split; [vm_compute; discriminate|].
  assert (Hu : truthy (url facebook_request) = Some (js "https://www.facebook.com/watch/?v=1"))
    by reflexivity.
  rewrite (POST_stale unreachable_world [] facebook_request stale_server _ Hu).
  - destruct (run_other_platform unreachable_world
                (js "https://www.facebook.com/watch/?v=1" ++ js "_" ++
                 default TARGET_LANGUAGES.HEBREW (truthy (targetLanguage facebook_request)))
                (js "https://www.facebook.com/watch/?v=1") facebook_request
                (set_progress (dec (t_request unreachable_world))
                   (entry 1 (js "Starting process")) stale_server))
      as (Hst & Hc & _).
    { vm_compute. discriminate. }
    split; [exact Hst|]. rewrite Hc. reflexivity.
  - intros data ts H.
    change (transcriptionCache stale_server !! js "https://www.facebook.com/watch/?v=1_he"
            = Some (data, ts)) in H.
    unfold stale_server in H. cbn [transcriptionCache] in H.
    rewrite lookup_singleton_eq in H. injection H as _ <-. vm_compute. discriminate.
Qed.

(** a successful run stores its result under the key of the request *)
Lemma finish_success_stores w rid (key : list N) req tr s :
  r_success tr = true ->
  exists r,
    fst (finish w rid key req tr s) = reply 200 r /\
    transcriptionCache (snd (finish w rid key req tr s)) !! key = Some (r, t_store w).
Proof.
  intros Hs. unfold finish. rewrite Hs. cbn [negb]. cbv zeta.
  destruct (match truthy (targetLanguage req) with Some _ => _ | None => _ end)
    as [translated s3].
  eexists. split; [reflexivity|]. cbn [snd transcriptionCache set_cache].
  apply lookup_insert_eq.
Qed.

(** X7. The result cache end to end: after a YouTube submission whose video
    identifier is not the name constructor and whose extraction succeeded,
    the same submission made again within 24 hours is answered with the
    stored result and runs no tool. *)
Lemma POST_again_within_a_day w1 w2 err req s u :
  truthy (url req) = Some u ->
  platformType req = Some PlatformType.YOUTUBE ->
  extractYouTubeVideoId (id_env w1) (Some u) <> js "constructor" ->
  mkdir_error w1 = None ->
  (forall data timestamp,
     transcriptionCache s
       !! (u ++ js "_" ++ default TARGET_LANGUAGES.HEBREW (truthy (targetLanguage req)))
       = Some (data, timestamp) ->
     CACHE_DURATION <= t_cache w1 - timestamp) ->
  (forall s0,
     r_success (fst (processYouTubeVideo w1 u (tempDir w1) (dec (t_request w1)) s0)) = true) ->
  t_cache w2 - t_store w1 < CACHE_DURATION ->
  exists r,
    fst (POST w1 err (Some req) s) = reply 200 r /\
    fst (POST w2 err (Some req) (snd (POST w1 err (Some req) s))) = reply 200 r /\
    calls (snd (POST w2 err (Some req) (snd (POST w1 err (Some req) s))))
      = calls (snd (POST w1 err (Some req) s)).
Proof.
  intros Hu Hp Hid Hm Hstale Hok Hfresh.
  rewrite (POST_stale _ _ _ _ _ Hu Hstale), (run_youtube _ _ _ _ _ Hp Hid Hm). cbv zeta.
  match goal with
  | |- context [processYouTubeVideo w1 u (tempDir w1) (dec (t_request w1)) ?x] =>
      set (s3 := x)
  end.
  destruct (finish_success_stores w1 (dec (t_request w1))
              (u ++ js "_" ++ default TARGET_LANGUAGES.HEBREW (truthy (targetLanguage req)))
              req _ (snd (processYouTubeVideo w1 u (tempDir w1) (dec (t_request w1)) s3))
              (Hok s3)) as (r & Hr & Hc).
  exists r. split; [exact Hr|].
  rewrite (POST_accepted w2 _ _ _ _ Hu). cbv zeta. rewrite Hc.
  apply Z.ltb_lt in Hfresh. rewrite Hfresh. split; reflexivity.
Qed.



(** a submission of a URL whose video identifier is the name constructor *)
Definition constructor_request : request :=
  {| url := Some (js "https://youtu.be/constructor");
     targetLanguage := None;
     platformType := Some (js "youtube") |}.

(** a submission that asks for the target language toString *)
Definition toString_request : request :=
  {| url := Some (js "https://youtu.be/dQw4w9WgXcQ");
     targetLanguage := Some (js "toString");
     platformType := Some (js "youtube") |}.

(** C4, the code at a failing input. Every external tool fails, so that the
    content of no video can be extracted. The submission of
    https://youtu.be/constructor, whose video identifier is the name
    constructor, is answered with status 500 and the message of a TypeError,
    no tool having been run, whereas the submission of another URL in the
    same world is answered with status 200 and the fallback transcript and
    translation. The same lookup by name affects the translation: with the
    target language toString the answer is 200, and its translation is not
    a text but the value that every object inherits under that name. *)
Theorem POST_hard_error_on_inherited_identifier :
  (forall s0,
     r_success (fst (processYouTubeVideo unreachable_world (js "https://youtu.be/constructor")
                       (tempDir unreachable_world) (dec (t_request unreachable_world)) s0))
       = false) /\
  extractYouTubeVideoId (id_env unreachable_world) (Some (js "https://youtu.be/constructor"))
    = js "constructor" /\
  fst (POST unreachable_world [] (Some constructor_request) idle_server)
    = refuse 500 (v8_type_error (js "he")) /\
  calls (snd (POST unreachable_world [] (Some constructor_request) idle_server)) = [] /\
  fst (POST unreachable_world [] (Some youtube_request) idle_server)
    = reply 200
        {| success := true;
           transcript := fallback_transcript;
           translation := Val fallback_he;
           detectedLanguage := js "en";
           title := js "Could not extract video content - using fallback";
           audioPath := Some (js "/tmp/video_transcriptions/dQw4w9WgXcQ.mp3") |} /\
  fst (POST unreachable_world [] (Some toString_request) idle_server)
    = reply 200
        {| success := true;
           transcript := fallback_transcript;
           translation := Inherited (js "toString");
           detectedLanguage := js "en";
           title := js "Could not extract video content - using fallback";
           audioPath := Some (js "/tmp/video_transcriptions/dQw4w9WgXcQ.mp3") |}.
Proof.
  split; [intros s0; vm_compute; reflexivity|].
  repeat split; vm_compute; reflexivity.
Qed.

End TranscribeProofs.

(** ** The progress map *)

Module ProgressProofs.

Import Resolver Path Transcribe TranscribeFacts TranscribeProofs.

Local Open Scope Z_scope.

(** the sweep of [updateProgress]: no entry that is left is older than a day *)
Lemma updateProgress_sweeps now requestId pr st data m id e :
  updateProgress now requestId pr st data m !! id = Some e -> expired now id = false.
Proof.
  unfold updateProgress. intros H. apply map_lookup_filter_Some in H. tauto.
Qed.

Lemma updateProgress_drops_expired now requestId pr st data m id :
  expired now id = true -> updateProgress now requestId pr st data m !! id = None.
Proof.
  intros He. destruct (updateProgress now requestId pr st data m !! id) eqn:E; [|reflexivity].
  apply updateProgress_sweeps in E. congruence.
Qed.

(** a server that still remembers a request made at time 1699900000000,
    almost 28 hours before the request of [unreachable_world] *)
Definition aged_server : server :=
  {| transcriptionProgress := {[ js "1699900000000" := entry 100 (js "Process completed") ]};
     transcriptionCache := ∅;
     tempVideoId := None;
     calls := [] |}.

(** *** The writes of the POST handler never sweep *)

(** the progress entries of other requests are the same in both states *)
Definition elsewhere (rid : jsstring) (s s' : server) : Prop :=
  forall id, id <> rid -> transcriptionProgress s' !! id = transcriptionProgress s !! id.

Lemma elsewhere_refl rid s : elsewhere rid s s.
Proof. intros id _. reflexivity. Qed.

Lemma elsewhere_trans rid s1 s2 s3 :
  elsewhere rid s1 s2 -> elsewhere rid s2 s3 -> elsewhere rid s1 s3.
Proof. intros H1 H2 id Hid. rewrite H2, H1 by exact Hid. reflexivity. Qed.

(** writes to other parts of the state *)
Ltac untouched := intros ? _; reflexivity.

Lemma elsewhere_progress rid e s : elsewhere rid s (set_progress rid e s).
Proof.
  intros id Hid. cbn [transcriptionProgress set_progress].
  apply lookup_insert_ne. congruence.
Qed.

Lemma elsewhere_progress_after rid e s s' :
  elsewhere rid s s' -> elsewhere rid s (set_progress rid e s').
Proof. intros H. eapply elsewhere_trans; [exact H|apply elsewhere_progress]. Qed.

Lemma elsewhere_download rid w a s : elsewhere rid s (snd (download w a s)).
Proof.
  unfold download. destruct (ytdlp_ok w); [untouched|].
  destruct (script_exists w); [|untouched].
  destruct (python_download w) as [[[[] [[|c p]|]]|]|]; untouched.
Qed.

Lemma elsewhere_transcribe rid w s : elsewhere rid s (snd (transcribe w s)).
Proof.
  unfold transcribe. destruct (python_shell w) as [[|r0 rs]|]; try untouched.
  destruct (direct_exec w) as [[r|]|]; untouched.
Qed.

Lemma elsewhere_transcribe_found rid w title a s :
  elsewhere rid s (snd (transcribe_found w rid title a s)).
Proof.
  unfold transcribe_found.
  pose proof (elsewhere_transcribe rid w
                (set_progress rid (entry 40 (js "Transcribing audio")) s)) as H.
  destruct (transcribe w _) as [tr s2]. cbn [snd] in H.
  assert (H0 : elsewhere rid s s2).
  { eapply elsewhere_trans; [apply elsewhere_progress|exact H]. }
  destruct tr as [[[] [[|c t]|] lang err]|]; cbn [snd]; try exact H0.
  apply elsewhere_progress_after. exact H0.
Qed.

Lemma elsewhere_processYouTubeVideo rid w u d s :
  elsewhere rid s (snd (processYouTubeVideo w u d rid s)).
Proof.
  unfold processYouTubeVideo.
  set (videoId := default _ _). set (base := path_join d videoId).
  set (s2 := set_progress rid _ (invoke GetTitle s)).
  assert (H2 : elsewhere rid s s2).
  { apply elsewhere_progress_after. untouched. }
  pose proof (elsewhere_download rid w (base ++ js ".mp3") s2) as H3.
  destruct (download w _ s2) as [audio s3]. cbn [snd] in H3.
  assert (H23 : elsewhere rid s s3) by (eapply elsewhere_trans; eassumption).
  assert (Hfound : forall found,
    elsewhere rid s (snd (transcribe_found w rid (get_title w videoId) found s3))).
  { intros found. eapply elsewhere_trans; [exact H23|apply elsewhere_transcribe_found]. }
  destruct (find_expected w base) as [found|]; [apply Hfound|].
  destruct (readdir w) as [files|].
  - destruct (possibleAudioFiles d videoId files) as [|found ?]; [exact H23|apply Hfound].
  - cbn [snd]. destruct rid as [|c r]; [exact H23|].
    apply elsewhere_progress_after. exact H23.
Qed.

Lemma elsewhere_translateWithLocalAI rid w text tl s :
  elsewhere rid s (snd (translateWithLocalAI w text tl s)).
Proof.
  unfold translateWithLocalAI. destruct (truthy (nllb_api w text tl)); [untouched|].
  destruct (truthy (google_api w text tl)); untouched.
Qed.

Lemma elsewhere_finish rid w key req tr s :
  elsewhere rid s (snd (finish w rid key req tr s)).
Proof.
  unfold finish. destruct (negb (r_success tr)).
  { cbv zeta. destruct (translateFallback _ _ _); apply elsewhere_progress. }
  cbv zeta.
  set (s1 := set_progress rid (entry 70 (js "Detecting language")) s).
  assert (H1 : elsewhere rid s s1) by apply elsewhere_progress.
  match goal with
  | |- context [let '(translated, s3) := ?t in _] =>
      assert (Ht : elsewhere rid s (snd t)); [|destruct t as [translated s3]]
  end.
  { destruct (truthy (targetLanguage req)) as [tl|]; [|exact H1].
    case_decide; [exact H1|].
    destruct (default [] (truthy (r_transcript tr))) as [|c text].
    - apply elsewhere_progress_after. exact H1.
    - eapply elsewhere_trans; [|apply elsewhere_translateWithLocalAI].
      apply elsewhere_progress_after. exact H1. }
  cbn [snd] in *. intros id Hid. cbn [transcriptionProgress set_cache set_progress].
  rewrite lookup_insert_ne by congruence. apply Ht. exact Hid.
Qed.

Lemma elsewhere_run rid w key u req s : elsewhere rid s (snd (run w rid key u req s)).
Proof.
  unfold run. cbv zeta.
  set (s1 := if bool_decide _ then _ else s).
  assert (H1 : elsewhere rid s s1).
  { subst s1. destruct (bool_decide _); untouched. }
  destruct (if bool_decide _ then read _ _ else None) as [[knownVideo|name]|].
  - cbn [snd]. apply elsewhere_progress_after. exact H1.
  - exact H1.
  - assert (H2 : elsewhere rid s
                   (set_progress rid (entry 10 (js "Starting download process")) s1)).
    { apply elsewhere_progress_after. exact H1. }
    destruct (mkdir_error w); [exact H2|].
    assert (H3 : elsewhere rid s
                   (set_progress rid (entry 15 (js "Extracting content"))
                      (set_progress rid (entry 10 (js "Starting download process")) s1))).
    { apply elsewhere_progress_after. exact H2. }
    destruct (bool_decide _); [|exact H3].
    pose proof (elsewhere_processYouTubeVideo rid w u
                  (path_join (tmpdir w) (js "video_transcriptions"))
                  (set_progress rid (entry 15 (js "Extracting content"))
                     (set_progress rid (entry 10 (js "Starting download process")) s1))) as H4.
    destruct (processYouTubeVideo w u _ rid _) as [tr s4]. cbn [snd] in H4.
    eapply elsewhere_trans; [|apply elsewhere_finish].
    eapply elsewhere_trans; eassumption.
Qed.

(** X12. Whatever the request, the handler leaves the progress entry of every
    other request in place: none of its writes sweeps the map *)
Lemma POST_never_sweeps w err parsed s :
  elsewhere (dec (t_request w)) s (snd (POST w err parsed s)).
Proof.
  unfold POST. destruct parsed as [req|]; [|apply elsewhere_refl].
  destruct (truthy (url req)) as [u|]; [|apply elsewhere_refl].
  destruct (dec (t_request w)) as [|c t] eqn:E; [apply elsewhere_refl|].
  rewrite <- E. cbv zeta.
  set (s1 := set_progress (dec (t_request w)) (entry 1 (js "Starting process")) s).
  assert (H1 : elsewhere (dec (t_request w)) s s1) by apply elsewhere_progress.
  assert (Hrun : forall key,
    elsewhere (dec (t_request w)) s (snd (run w (dec (t_request w)) key u req s1))).
  { intros key. eapply elsewhere_trans; [exact H1|apply elsewhere_run]. }
  destruct (transcriptionCache s1 !! _) as [[data ts]|]; [|apply Hrun].
  destruct (t_cache w - ts <? CACHE_DURATION); [|apply Hrun].
  cbn [snd]. apply elsewhere_progress_after. exact H1.
Qed.

(** C6, the code at a failing input. The progress map holds the entry of a
    request made at time 1699900000000; a submission arrives at time
    1700000000000, more than 24 hours later. The handler writes the
    progress of the new request several times, and after it the old entry is
    still in the map, whereas one call of [updateProgress] at that time
    removes it. *)
Theorem POST_keeps_expired_progress_entry :
  expired (t_request unreachable_world) (js "1699900000000") = true /\
  transcriptionProgress (snd (POST unreachable_world [] (Some youtube_request) aged_server))
    !! js "1699900000000" = Some (entry 100 (js "Process completed")) /\
  transcriptionProgress (snd (POST unreachable_world [] (Some youtube_request) aged_server))
    !! dec (t_request unreachable_world) = Some (entry 100 (js "Completed with fallback")) /\
  updateProgress (t_request unreachable_world) (dec (t_request unreachable_world)) 1
    (js "Starting process") None (transcriptionProgress aged_server)
    !! js "1699900000000" = None.
Proof.
  split; [vm_compute; reflexivity|].
  split; [vm_compute; reflexivity|].
  split; [vm_compute; reflexivity|].
  apply updateProgress_drops_expired. vm_compute. reflexivity.
Qed.

Lemma POST_never_sweeps_witness :
  transcriptionProgress (snd (POST unreachable_world [] (Some youtube_request) aged_server))
    !! js "1699900000000" = transcriptionProgress aged_server !! js "1699900000000".
Proof.
  apply (POST_never_sweeps unreachable_world [] (Some youtube_request) aged_server).
  vm_compute. discriminate.
Defined.

End ProgressProofs.

(** ** The cleanup route *)

Module CleanupProofs.

Import Cleanup.

Local Open Scope Z_scope.

(** the entries of a listing with their positions *)
Definition indexed (files : list file) : list (nat * file) := imap (fun k f => (k, f)) files.

Definition total_size (files : list file) : Z := fold_right (fun f acc => size f + acc) 0 files.

(** the entries of the video directory that the first loop deletes and keeps *)
Definition video_deleted (requestId : jsstring) (files : list file) : list file :=
  List.filter (video_doomed requestId) files.
Definition video_kept (requestId : jsstring) (files : list file) : list file :=
  List.filter (fun f => negb (video_doomed requestId f)) files.

(** the entries of the application directory that the second loop deletes
    and keeps; entry [k] is judged at the clock reading [clock k] *)
Definition app_deleted (clock : nat -> Z) (files : list file) : list file :=
  map snd (List.filter (fun kf => app_doomed (clock (fst kf)) (snd kf)) (indexed files)).
Definition app_kept (clock : nat -> Z) (files : list file) : list file :=
  map snd (List.filter (fun kf => negb (app_doomed (clock (fst kf)) (snd kf))) (indexed files)).

Definition counted (deleted : list file) (r : result) : result :=
  {| deletedFiles := deletedFiles r + length deleted;
     freedSpace := freedSpace r + total_size deleted |}.

Lemma counted_nil r : counted [] r = r.
Proof. destruct r. unfold counted. simpl. f_equal; lia. Qed.

Lemma counted_cons f deleted r : counted (f :: deleted) r = counted deleted (count f r).
Proof. unfold counted, count. simpl. f_equal; lia. Qed.

Lemma video_loop requestId files : forall kept r,
  fold_left (video_step requestId) files (kept, r) =
    (kept ++ video_kept requestId files, counted (video_deleted requestId files) r).
Proof.
  unfold video_kept, video_deleted.
  induction files as [|f files IH]; intros kept r; cbn [fold_left List.filter].
  - rewrite app_nil_r, counted_nil. reflexivity.
  - unfold video_step at 2. destruct (video_doomed requestId f); cbn [negb].
    + rewrite IH, counted_cons. reflexivity.
    + rewrite IH, <- app_assoc. reflexivity.
Qed.

Lemma app_loop clock files : forall k kept r,
  fold_left (app_step clock) files (k, kept, r) =
    ((k + length files)%nat,
     kept ++ map snd (List.filter (fun kf => negb (app_doomed (clock (fst kf)) (snd kf)))
                        (imap (fun i f => ((k + i)%nat, f)) files)),
     counted (map snd (List.filter (fun kf => app_doomed (clock (fst kf)) (snd kf))
                         (imap (fun i f => ((k + i)%nat, f)) files))) r).
Proof.
  induction files as [|f files IH]; intros k kept r; cbn [fold_left imap List.filter].
  - rewrite app_nil_r, counted_nil, Nat.add_0_r. reflexivity.
  - unfold app_step at 2. rewrite Nat.add_0_r.
    assert (Hshift : imap ((fun i f0 => ((k + i)%nat, f0)) ∘ S) files
                     = imap (fun i f0 => ((S k + i)%nat, f0)) files).
    { apply imap_ext. intros i x _. simpl. f_equal. lia. }
    rewrite Hshift. cbn [fst snd].
    destruct (app_doomed (clock k) f); cbn [negb map snd length].
    + rewrite IH, counted_cons. f_equal. f_equal. lia.
    + rewrite IH, <- app_assoc. f_equal. f_equal. lia.
Qed.

Lemma elem_of_indexed (files : list file) k f :
  In (k, f) (indexed files) <-> files !! k = Some f.
Proof.
  unfold indexed. rewrite <- list_elem_of_In, elem_of_lookup_imap. split.
  - intros (i & x & E & Hx). injection E as -> ->. exact Hx.
  - intros H. exists k, f. auto.
Qed.

(** C7 (as amended). For every cleanup request with a request identifier,
    when the video directory exists: the handler answers 200; in the video
    directory it deletes every regular file whose name contains the
    identifier or ends with one of the media extensions, and keeps every
    other entry; in the application directory, when it exists, it deletes
    every regular file that is older than one hour when it is examined,
    whatever its name, and keeps every other entry; the answer counts the
    deleted files and adds up their sizes. *)
Theorem cleanup_deletes_and_counts (clock : nat -> Z) (requestId : jsstring) (d : disk)
  (files : list file) :
  requestId <> [] ->
  videoTempDir d = Some files ->
  let tempFiles := default [] (appTempDir d) in
  let out := POST clock (Some (Some requestId)) d in
  fst out =
    {| status := 200;
       body := Cleaned
         {| deletedFiles :=
              length (video_deleted requestId files) + length (app_deleted clock tempFiles);
            freedSpace :=
              total_size (video_deleted requestId files)
              + total_size (app_deleted clock tempFiles) |} |} /\
  videoTempDir (snd out) = Some (video_kept requestId files) /\
  appTempDir (snd out) = (fun _ => app_kept clock tempFiles) <$> appTempDir d /\
  (forall f, f ∈ files -> isDirectory f = false ->
             includes requestId (name f) = true \/ isTemporaryMediaFile (name f) = true ->
             f ∈ video_deleted requestId files /\ f ∉ video_kept requestId files) /\
  (forall f, f ∈ files ->
             includes requestId (name f) = false -> isTemporaryMediaFile (name f) = false ->
             f ∈ video_kept requestId files) /\
  (forall k f, tempFiles !! k = Some f -> isDirectory f = false ->
               60 * 60 * 1000 < clock k - mtimeMs f ->
               In (k, f) (List.filter (fun kf => app_doomed (clock (fst kf)) (snd kf))
                            (indexed tempFiles))) /\
  (forall k f, tempFiles !! k = Some f ->
               clock k - mtimeMs f <= 60 * 60 * 1000 ->
               f ∈ app_kept clock tempFiles).
Proof.
  intros Hrid Hv tempFiles out.
  assert (Hout : out =
    ({| status := 200;
        body := Cleaned
          {| deletedFiles :=
               length (video_deleted requestId files) + length (app_deleted clock tempFiles);
             freedSpace :=
               total_size (video_deleted requestId files)
               + total_size (app_deleted clock tempFiles) |} |},
     {| videoTempDir := Some (video_kept requestId files);
        appTempDir := (fun _ => app_kept clock tempFiles) <$> appTempDir d |})).
  { subst out tempFiles. unfold POST. destruct requestId as [|c rid]; [contradiction|].
    rewrite Hv, video_loop. cbn [app].
    destruct (appTempDir d) as [temp|]; cbn [default fmap option_fmap option_map].
    - rewrite app_loop. cbn [app]. unfold counted. cbn [deletedFiles freedSpace].
      fold (indexed temp). fold (app_deleted clock temp). fold (app_kept clock temp).
      rewrite !Nat.add_0_l, !Z.add_0_l. reflexivity.
    - unfold counted, app_deleted. cbn. rewrite !Nat.add_0_r, !Z.add_0_r. reflexivity. }
  rewrite Hout. cbn [fst snd videoTempDir appTempDir].
  split; [reflexivity|]. split; [reflexivity|]. split; [reflexivity|].
  unfold video_deleted, video_kept, app_kept. repeat split.
  - apply list_elem_of_In, List.filter_In. split; [apply list_elem_of_In; assumption|].
    unfold video_doomed. rewrite H0. destruct H1 as [-> | ->]; [reflexivity|].
    rewrite orb_true_r. reflexivity.
  - intros Hin. apply list_elem_of_In, List.filter_In in Hin. destruct Hin as [_ Hin].
    unfold video_doomed in Hin. rewrite H0 in Hin. destruct H1 as [E|E]; rewrite E in Hin;
      [discriminate|rewrite orb_true_r in Hin; discriminate].
  - intros f Hf Hn Hm. apply list_elem_of_In, List.filter_In.
    split; [apply list_elem_of_In; assumption|].
    unfold video_doomed. rewrite Hn, Hm. reflexivity.
  - intros k f Hk Hd Hold. apply List.filter_In. split; [apply elem_of_indexed; exact Hk|].
    cbn [fst snd]. unfold app_doomed. rewrite Hd.
    apply Z.ltb_lt in Hold. rewrite Hold. reflexivity.
  - intros k f Hk Hnew. apply list_elem_of_In, in_map_iff. exists (k, f).
    split; [reflexivity|]. apply List.filter_In. split; [apply elem_of_indexed; exact Hk|].
    cbn [fst snd]. unfold app_doomed.
    apply Z.ltb_ge in Hnew. rewrite Hnew. reflexivity.
Qed.

(** *** Concrete inputs *)

Definition clock0 : nat -> Z := fun k => 1700000000000 + Z.of_nat k.

(** the audio of the request, a fresh audio file of another request, and a
    fresh file that carries neither the identifier nor a media extension *)
Definition video_files : list file :=
  [ {| name := js "1699999990000.mp3"; isDirectory := false; size := 4096;
       mtimeMs := 1699999995000 |};
    {| name := js "dQw4w9WgXcQ.mp3"; isDirectory := false; size := 1000;
       mtimeMs := 1699999999000 |};
    {| name := js "notes.log"; isDirectory := false; size := 7;
       mtimeMs := 1699999999000 |} ].

(** a file older than one hour and a file younger than one hour *)
Definition temp_files : list file :=
  [ {| name := js "old.tmp"; isDirectory := false; size := 50;
       mtimeMs := 1699990000000 |};
    {| name := js "new.tmp"; isDirectory := false; size := 60;
       mtimeMs := 1699999999000 |} ].

Definition disk0 : disk := {| videoTempDir := Some video_files; appTempDir := Some temp_files |}.

Lemma cleanup_deletes_and_counts_witness :
  fst (POST clock0 (Some (Some (js "1699999990000"))) disk0) =
    {| status := 200; body := Cleaned {| deletedFiles := 3; freedSpace := 5146 |} |}.
Proof.
  destruct (cleanup_deletes_and_counts clock0 (js "1699999990000") disk0 video_files)
    as (H & _).
  - discriminate.
  - reflexivity.
  - exact H.
Defined.

(** C7, counterexample to the claim as first stated: the second file of
    the video directory is younger than one hour and its name does not
    contain the request identifier, yet the handler deletes it, because its
    name ends with a media extension. *)
Lemma cleanup_deletes_fresh_media_file :
  includes (js "1699999990000") (js "dQw4w9WgXcQ.mp3") = false /\
  1700000000000 - 1699999999000 < 60 * 60 * 1000 /\
  videoTempDir (snd (POST clock0 (Some (Some (js "1699999990000"))) disk0)) =
    Some [ {| name := js "notes.log"; isDirectory := false; size := 7;
              mtimeMs := 1699999999000 |} ].
Proof.
  split; [vm_compute; reflexivity|]. split; [lia|]. vm_compute. reflexivity.
Qed.

(** X21. When the video directory is missing the handler returns at once: the
    application directory is not looked at, whatever the age of its
    files. *)
Lemma cleanup_returns_early_without_video_directory clock requestId d :
  requestId <> [] ->
  videoTempDir d = None ->
  POST clock (Some (Some requestId)) d =
    ({| status := 200; body := Cleaned {| deletedFiles := 0; freedSpace := 0 |} |}, d).
Proof.
  intros Hrid Hv. unfold POST. destruct requestId; [contradiction|]. rewrite Hv. reflexivity.
Qed.

(** the video directory is missing; the application directory holds a file
    older than one hour *)
Definition disk1 : disk := {| videoTempDir := None; appTempDir := Some temp_files |}.

Lemma cleanup_returns_early_without_video_directory_witness :
  POST clock0 (Some (Some (js "1699999990000"))) disk1 =
    ({| status := 200;
        body := Cleaned {| deletedFiles := 0; freedSpace := 0 |} |}, disk1).
Proof.
  apply (cleanup_returns_early_without_video_directory clock0 (js "1699999990000") disk1).
  - discriminate.
  - reflexivity.
Defined.

End CleanupProofs.

(** ** The download route *)

Module DownloadProofs.

Import Path Download.

Definition empty_audio : response :=
  {| status := 200; contentType := js "audio/mpeg";
     disposition := attachment (js "empty_audio.mp3");
     body := Bytes emptyMp3Buffer |}.

(** C9 (as amended). For every download request whose path parameter is
    given, whose normalized path holds no two consecutive dots, names a file
    that does not exist, and for which no alternative file exists, the
    answer has status 200, content type audio/mpeg and the sixteen bytes of
    an empty MP3 frame as its body. *)
Theorem GET_missing_file_empty_audio (fs : fsys) (path filename : option jsstring)
  (filePath : jsstring) :
  given path = Some filePath ->
  includes (js "..") (normalizedPath filePath) = false ->
  existsSync fs (normalizedPath filePath) = false ->
  (forall alt, alternativePath (normalizedPath filePath) = Some alt ->
               existsSync fs alt = false) ->
  GET fs path filename = empty_audio /\
  status (GET fs path filename) = 200 /\
  contentType (GET fs path filename) = js "audio/mpeg" /\
  body (GET fs path filename) = Bytes emptyMp3Buffer.
Proof.
  intros Hp Hdots Hmissing Halt.
  assert (H : GET fs path filename = empty_audio).
  { unfold GET. rewrite Hp, Hdots, Hmissing. cbn [negb].
    destruct (alternativePath (normalizedPath filePath)) as [alt|] eqn:E; [|reflexivity].
    rewrite (Halt alt eq_refl). reflexivity. }
  rewrite H. repeat split.
Qed.

(** a file system on which nothing exists *)
Definition bare : fsys :=
  {| existsSync := fun _ => false;
     stat_isFile := fun _ => inl (js "ENOENT");
     readFile := fun _ => inl (js "ENOENT") |}.

Lemma GET_missing_file_empty_audio_witness :
  GET bare (Some (js "/tmp/video_transcriptions/dQw4w9WgXcQ.mp3")) None = empty_audio.
Proof.
  apply (GET_missing_file_empty_audio bare
           (Some (js "/tmp/video_transcriptions/dQw4w9WgXcQ.mp3")) None
           (js "/tmp/video_transcriptions/dQw4w9WgXcQ.mp3")).
  - reflexivity.
  - vm_compute. reflexivity.
  - reflexivity.
  - intros alt _. reflexivity.
Defined.

(** C9, counterexample to the claim as first stated: the path names a
    file that does not exist, no alternative exists either, and the answer
    is status 400 with a JSON error, because the file name holds two
    consecutive dots. *)
Lemma GET_missing_file_with_dots_refused :
  normalizedPath (js "/tmp/video_transcriptions/take..2.mp3")
    = js "/tmp/video_transcriptions/take..2.mp3" /\
  existsSync bare (js "/tmp/video_transcriptions/take..2.mp3") = false /\
  GET bare (Some (js "/tmp/video_transcriptions/take..2.mp3")) None
    = json_error 400 (js "Invalid file path").
Proof.
  split; [vm_compute; reflexivity|]. split; [reflexivity|]. vm_compute. reflexivity.
Qed.

End DownloadProofs.

(** ** The local-model translation route *)

Module LocalTranslateProofs.

Import LocalTranslate.

Local Open Scope Z_scope.

Section Handlers.

Variable JSON_parse : jsstring -> option pyresult.

Lemma resolve_keeps_progress r n : translationProgress (resolve r n) = translationProgress n.
Proof. unfold resolve. destruct (resolved n); reflexivity. Qed.

Lemma resolve_resolves r n : is_Some (resolved (resolve r n)).
Proof.
  unfold resolve. destruct (resolved n) eqn:E; cbn [resolved]; [rewrite E|]; eauto.
Qed.

Lemma resolve_first r n : resolved n = None -> resolved (resolve r n) = Some r.
Proof. unfold resolve. intros ->. reflexivity. Qed.

(** an assignment to the map changes nothing else *)
Lemma set_entry_resolved id v n : resolved (set_entry id v n) = resolved n.
Proof. unfold set_entry. case_decide; reflexivity. Qed.

(** an assignment under a name other than [__proto__] writes the entry *)
Lemma set_entry_progress id v n :
  id <> js "__proto__" ->
  translationProgress (set_entry id v n) = <[id := v]> (translationProgress n).
Proof. intros Hid. unfold set_entry. rewrite decide_False by exact Hid. reflexivity. Qed.

(** a terminal event deletes the entry and resolves the response *)
Lemma terminal_event requestId ev n :
  terminal ev = true ->
  exists r,
    on_event JSON_parse requestId ev n = resolve r (delete_entry requestId n).
Proof.
  destruct ev as [line|message|message|]; try discriminate; intros _; cbn [on_event].
  - eauto.
  - destruct (parse_output JSON_parse (result n)) as [parsed|]; [|eauto].
    destruct (success_is_false parsed); eauto.
Qed.

(** an event that is not terminal resolves nothing *)
Lemma other_event requestId ev n :
  terminal ev = false -> resolved (on_event JSON_parse requestId ev n) = resolved n.
Proof.
  destruct ev as [line|message|message|]; try discriminate; intros _; cbn [on_event].
  - destruct (Resolver.capture progress_line 1 line) as [[|c ds]|];
      [reflexivity|apply set_entry_resolved|reflexivity].
  - reflexivity.
Qed.

Lemma run_events_last requestId evs ev n :
  fold_left (fun st e => on_event JSON_parse requestId e st) (evs ++ [ev]) n =
    on_event JSON_parse requestId ev
      (fold_left (fun st e => on_event JSON_parse requestId e st) evs n).
Proof. rewrite fold_left_app. reflexivity. Qed.

(** X24. When the creation of the script's process throws, the request is
    answered with status 500 and the entry written for it before (under any
    identifier other than the name [__proto__], which an assignment of a
    number does not write) stays in the map: this path has no terminal
    event. *)
Lemma spawn_failure_keeps_entry now req n :
  Transcribe.truthy (text req) <> None ->
  request_id now req <> js "__proto__" ->
  translationProgress (start now true false req n) !! request_id now req = Some 1 /\
  resolved (start now true false req n)
    = Some {| status := 500; body := Failure (js "Internal server error") |}.
Proof.
  intros Htext Hid. unfold start. destruct (Transcribe.truthy (text req)); [|contradiction].
  cbn [negb]. split.
  - rewrite resolve_keeps_progress, (set_entry_progress _ _ _ Hid).
    apply lookup_insert_eq.
  - apply resolve_first. rewrite set_entry_resolved. reflexivity.
Qed.

(** C10 (as amended). Whenever the script's process ends a request (an
    error event, or the close event with an output that cannot be parsed,
    that reports a failure or that reports success), the handler deletes the
    progress entry of the request and the response is resolved in a state
    that no longer holds the entry; an event of another kind resolves
    nothing. Hence after a request that started its script and whose events
    end with a terminal one, the entry is gone, the response is resolved,
    and a progress query for the same identifier, when that identifier is
    not empty and is not a name that every object inherits, answers 200
    with progress 0. *)
Theorem terminal_outcome_clears_progress (now : Z) (req : request) (evs : list event)
  (ev : event) (n : node) :
  Transcribe.truthy (text req) <> None ->
  terminal ev = true ->
  let requestId := request_id now req in
  let n' := POST JSON_parse now true true req (evs ++ [ev]) n in
  translationProgress n' !! requestId = None /\
  is_Some (resolved n') /\
  (forall st e, resolved st = None ->
                resolved (on_event JSON_parse requestId e st) <> None ->
                terminal e = true /\
                translationProgress (on_event JSON_parse requestId e st) !! requestId = None) /\
  (requestId <> [] -> inherited requestId = false ->
   GET (Some requestId) n' = (200%nat, Some (Val 0))).
Proof.
  intros Htext Hev requestId n'.
  assert (Hn' : exists r st, n' = resolve r (delete_entry requestId st)).
  { subst n'. unfold POST, start.
    destruct (Transcribe.truthy (text req)); [|contradiction]. cbn [negb].
    rewrite set_entry_resolved. cbn [resolved].
    rewrite run_events_last.
    destruct (terminal_event (request_id now req) ev
                (fold_left (fun st e => on_event JSON_parse (request_id now req) e st) evs
                   (set_entry (request_id now req) 1
                      {| translationProgress := translationProgress n;
                         result := []; resolved := None |})) Hev) as (r & Hr).
    eauto. }
  destruct Hn' as (r & st & Hn').
  assert (Hgone : translationProgress n' !! requestId = None).
  { rewrite Hn', resolve_keeps_progress. cbn [translationProgress delete_entry].
    apply lookup_delete_eq. }
  split; [exact Hgone|]. split; [rewrite Hn'; apply resolve_resolves|]. split.
  - intros st0 e Hnone Hres. destruct (terminal e) eqn:Et.
    + split; [reflexivity|].
      destruct (terminal_event requestId e st0 Et) as (r0 & ->).
      rewrite resolve_keeps_progress. cbn [translationProgress delete_entry].
      apply lookup_delete_eq.
    + rewrite (other_event requestId e st0 Et) in Hres. contradiction.
  - intros Hne Hi. unfold GET. destruct requestId as [|c t] eqn:E; [contradiction|].
    cbn [Transcribe.truthy]. rewrite Hgone. unfold read. rewrite Hi. reflexivity.
Qed.

End Handlers.

(** *** Concrete inputs *)

Definition idle : node :=
  {| translationProgress := ∅; result := []; resolved := None |}.

Definition parse_nothing : jsstring -> option pyresult := fun _ => None.

Definition hello (id : option jsstring) : request :=
  {| text := Some (js "hello"); requestId := id |}.

Lemma terminal_outcome_clears_progress_witness :
  GET (Some (js "42"))
      (POST parse_nothing 1700000000000 true true (hello (Some (js "42")))
         ([Stderr (js "Translation progress: 40%")] ++ [Close]) idle)
    = (200%nat, Some (Val 0)).
Proof.
  destruct (terminal_outcome_clears_progress parse_nothing 1700000000000
              (hello (Some (js "42"))) [Stderr (js "Translation progress: 40%")] Close idle)
    as (_ & _ & _ & H).
  - discriminate.
  - reflexivity.
  - apply H; [discriminate|reflexivity].
Defined.

(** C10, counterexample to the claim as first stated: a translation
    request whose body gives the empty string as its identifier starts the
    script and ends with the close event; the entry is deleted, and the
    progress query for the same identifier is answered with status 400, not
    with progress 0. *)
Lemma progress_query_with_empty_identifier_refused :
  request_id 1700000000000 (hello (Some [])) = [] /\
  translationProgress
    (POST parse_nothing 1700000000000 true true (hello (Some [])) [Close] idle) !! [] = None /\
  GET (Some [])
      (POST parse_nothing 1700000000000 true true (hello (Some [])) [Close] idle)
    = (400%nat, None).
Proof.
  split; [reflexivity|]. split; [vm_compute; reflexivity|]. reflexivity.
Qed.

Lemma spawn_failure_keeps_entry_witness :
  translationProgress (start 1700000000000 true false (hello None) idle) !! dec 1700000000000
    = Some 1 /\
  resolved (start 1700000000000 true false (hello None) idle)
    = Some {| status := 500; body := Failure (js "Internal server error") |}.
Proof.
  apply (spawn_failure_keeps_entry 1700000000000 (hello None) idle).
  - discriminate.
  - vm_compute. discriminate.
Defined.

End LocalTranslateProofs.

(** ** The shape of the identifiers *)

Module IdentifierShape.

Import Resolver ResolverFacts ResolverProofs.

(** zero or more characters of a class: the span lies in the text, holds
    characters of the class only, and the captures are as before *)
Lemma sem_star_class s greedy (p : N -> bool) i c j c' :
  sem s (Star greedy (Chr p)) i c j c' ->
  i <= length s ->
  c' = c /\ i <= j <= length s /\
  forall x, i <= x < j -> exists ch, s !! x = Some ch /\ p ch = true.
Proof.
  simpl. intros H.
  induction H as [a ca|a ca b cb d cd [(ch & E & Ep & -> & ->) _] _ IH]; intros Ha.
  - split; [reflexivity|]. split; [lia|]. intros x Hx. lia.
  - pose proof (lookup_lt_Some _ _ _ E) as Hlt.
    destruct (IH ltac:(lia)) as (-> & Hr & Hall).
    split; [reflexivity|]. split; [lia|].
    intros x Hx. destruct (decide (x = a)) as [->|Hne]; [eauto|]. apply Hall. lia.
Qed.

Lemma sem_seq_inv s r1 r2 i c j c' :
  sem s (Seq r1 r2) i c j c' -> exists k ck, sem s r1 i c k ck /\ sem s r2 k ck j c'.
Proof. intros H. exact H. Qed.

(** a span of a text is a part of it *)
Lemma substring_infix (s : jsstring) a b :
  a <= b <= length s -> s = take a s ++ substring a b s ++ drop b s.
Proof.
  intros H. rewrite <- (take_drop a s) at 1. f_equal.
  pose proof (ChunkerProofs.substring_split s a a b ltac:(lia) ltac:(lia)) as E.
  rewrite E. unfold substring at 1. rewrite Nat.sub_diag. reflexivity.
Qed.

Lemma substring_class (s : jsstring) (p : N -> bool) a b :
  a <= b <= length s ->
  (forall x, a <= x < b -> exists ch, s !! x = Some ch /\ p ch = true) ->
  length (substring a b s) = b - a /\ Forall (fun ch => p ch = true) (substring a b s).
Proof.
  intros Hr Hall. unfold substring. split.
  - rewrite length_take, length_drop. lia.
  - apply Forall_lookup_2. intros k ch Hk.
    pose proof (lookup_lt_Some _ _ _ Hk) as Hlt.
    rewrite length_take, length_drop in Hlt.
    rewrite lookup_take_lt in Hk by lia. rewrite lookup_drop in Hk.
    destruct (Hall (a + k) ltac:(lia)) as (ch' & E & Ep).
    unfold jsstring in *. congruence.
Qed.

(** the second group of the YouTube pattern is a span of characters other
    than the three delimiters *)
Lemma youtube_capture u id :
  capture youtubeRegExp 2 u = Some id ->
  Forall (fun ch => noneof "#&?" ch = true) id /\ exists pre post, u = pre ++ id ++ post.
Proof.
  unfold capture. destruct (exec youtubeRegExp u) as [[[a b] c]|] eqn:E; [|discriminate].
  pose proof (exec_sound _ _ _ _ _ E) as Hs.
  assert (Ha : a <= length u).
  { unfold exec in E. apply search_start in E. lia. }
  unfold youtubeRegExp in Hs. cbn [seqs] in Hs.
  apply sem_seq_inv in Hs as (k1 & c1 & (-> & -> & ->) & Hs).
  apply sem_seq_inv in Hs as (k2 & c2 & H2 & Hs).
  apply sem_seq_inv in Hs as (k3 & c3 & H3 & Hs).
  apply sem_seq_inv in Hs as (k4 & c4 & H4 & H5).
  apply sem_range in H2 as R2; [|lia].
  apply sem_range in H3 as R3; [|lia].
  destruct H4 as (c0 & H4 & ->).
  apply sem_star_class in H4 as (-> & R4 & Hall); [|lia].
  apply sem_star_class in H5 as (-> & R5 & _); [|lia].
  unfold group, set_cap. simpl. intros Hid. inversion Hid; subst id.
  split.
  - apply (substring_class u _ k3 k4); [lia|exact Hall].
  - exists (take k3 u), (drop k4 u). apply substring_infix. lia.
Qed.

(** X1. An identifier that the YouTube resolver reads from a URL has
    eleven characters, none of which is a number sign, an ampersand or a
    question mark, and occurs in the URL. Every other identifier it returns
    starts with the word youtube, a hyphen and the clock reading. *)
Theorem extractYouTubeVideoId_shape (e : env) (u : jsstring) :
  let id := extractYouTubeVideoId e (Some u) in
  if youtube_matches u
  then length id = 11 /\
       Forall (fun ch => noneof "#&?" ch = true) id /\
       exists pre post, u = pre ++ id ++ post
  else exists tail, id = js "youtube-" ++ dec (now e) ++ tail.
Proof.
  unfold youtube_matches, extractYouTubeVideoId.
  destruct u as [|ch u].
  - vm_compute capture. exists []. rewrite app_nil_r. reflexivity.
  - destruct (capture youtubeRegExp 2 (ch :: u)) as [id|] eqn:E.
    + destruct (Nat.eqb (length id) 11) eqn:El.
      * apply Nat.eqb_eq in El. apply youtube_capture in E as [Hall Hin]. auto.
      * eexists. reflexivity.
    + eexists. reflexivity.
Qed.

(** a pattern that ends with a capturing group of one or more characters
    of the class [p] *)
Fixpoint ends_in_class (g : nat) (p : N -> bool) (r : regex) : Prop :=
  match r with
  | Seq _ r2 => ends_in_class g p r2
  | Group g' r' => g' = g /\ r' = Plus (Chr p)
  | _ => False
  end.

Lemma sem_ends_in_class s g p r :
  ends_in_class g p r ->
  forall i c j c', sem s r i c j c' -> i <= length s ->
  exists a, c' g = Some (a, j) /\ a < j <= length s /\
            forall x, a <= x < j -> exists ch, s !! x = Some ch /\ p ch = true.
Proof.
  induction r as [|q|r1 IH1 r2 IH2|r1 IH1 r2 IH2|greedy r' IH|g' r' IH| | | |q];
    simpl; intros He i c j c' H Hi; try contradiction.
  - destruct H as (k & ck & H1 & H2).
    apply sem_range in H1; [|exact Hi]. eapply IH2; eauto. lia.
  - destruct He as [-> ->]. destruct H as (c0 & H & ->).
    apply sem_plus_class in H as [Hr Hall].
    exists i. unfold set_cap. rewrite Nat.eqb_refl. auto.
Qed.

Lemma capture_class r g p url id :
  ends_in_class g p r ->
  capture r g url = Some id ->
  Forall (fun ch => p ch = true) id /\ exists pre post, url = pre ++ id ++ post.
Proof.
  intros He. unfold capture.
  destruct (exec r url) as [[[a b] c]|] eqn:E; [|discriminate].
  pose proof (exec_sound _ _ _ _ _ E) as Hs.
  assert (Ha : a <= length url).
  { unfold exec in E. apply search_start in E. lia. }
  destruct (sem_ends_in_class _ _ _ _ He _ _ _ _ Hs Ha) as (a' & Hc & Hr & Hall).
  unfold group. rewrite Hc. intros Hid. inversion Hid; subst id. split.
  - apply (substring_class url p a' b); [lia|exact Hall].
  - exists (take a' url), (drop b url). apply substring_infix. lia.
Qed.

(** the characters of an Instagram identifier *)
Definition is_shortcode (ch : N) : bool :=
  is_upper ch || is_lower ch || is_digit ch || oneof "_-" ch.

(** X2. An identifier that the resolver reads from a Facebook, TikTok,
    Instagram or Vimeo URL occurs in the URL; it is made of decimal digits
    only, and for Instagram of letters, digits, underscores and hyphens
    only. *)
Theorem extractVideoId_platform_shape (e : env) (u platform id : jsstring) :
  extractVideoId e (Some u) platform = Some id ->
  platform <> js "youtube" ->
  platform <> js "other" ->
  (exists pre post, u = pre ++ id ++ post) /\
  (platform = js "instagram" -> Forall (fun ch => is_shortcode ch = true) id) /\
  (platform <> js "instagram" -> Forall (fun ch => is_digit ch = true) id).
Proof.
  intros H Hy Ho. destruct u as [|ch0 u]; [discriminate|].
  rewrite extractVideoId_cases in H by discriminate.
  rewrite decide_False in H by exact Hy.
  unfold platform_regex in H.
  repeat case_decide; try discriminate; try contradiction; subst platform.
  - apply (capture_class _ _ is_digit) in H as [Hall Hin];
      [|simpl; split; reflexivity].
    split; [exact Hin|]. split; [discriminate|auto].
  - apply (capture_class _ _ is_digit) in H as [Hall Hin];
      [|simpl; split; reflexivity].
    split; [exact Hin|]. split; [discriminate|auto].
  - apply (capture_class _ _ is_shortcode) in H as [Hall Hin];
      [|simpl; split; reflexivity].
    split; [exact Hin|]. split; [auto|congruence].
  - apply (capture_class _ _ is_digit) in H as [Hall Hin];
      [|simpl; split; reflexivity].
    split; [exact Hin|]. split; [discriminate|auto].
Qed.

Lemma extractVideoId_platform_shape_witness :
  (exists pre post,
     js "https://www.tiktok.com/@user.name/video/7123?x=1" = pre ++ js "7123" ++ post) /\
  Forall (fun ch => is_digit ch = true) (js "7123").
Proof.
  destruct (extractVideoId_platform_shape sample_env
              (js "https://www.tiktok.com/@user.name/video/7123?x=1")
              (js "tiktok") (js "7123")) as (Hin & _ & Hd).
  - vm_compute. reflexivity.
  - discriminate.
  - discriminate.
  - split; [exact Hin|]. apply Hd. discriminate.
Defined.

(** *** Identifiers of the other platforms *)

Local Open Scope N_scope.

Lemma utf8_ascii (p r : jsstring) :
  Forall (fun ch => (ch <? 128) = true) p -> utf8 (p ++ r) = p ++ utf8 r.
Proof.
  induction 1 as [|ch p Hch _ IH]; [reflexivity|].
  simpl. change 128 with 0x80 in Hch. rewrite Hch. f_equal. exact IH.
Qed.

Lemma base64_triples (p bs : list N) :
  (length p = 12)%nat -> base64 (p ++ bs) = base64 p ++ base64 bs /\ (length (base64 p) = 16)%nat.
Proof.
  intros H. do 13 (destruct p as [|? p]; try discriminate).
  split; reflexivity.
Qed.

Lemma strip_non_alnum_app (a b : jsstring) :
  Forall (fun ch => is_alnum ch = true) a ->
  strip_non_alnum (a ++ b) = a ++ strip_non_alnum b.
Proof.
  intros H. unfold strip_non_alnum. rewrite List.filter_app. f_equal.
  induction H as [|ch a Hch _ IH]; [reflexivity|]. simpl. rewrite Hch. f_equal. exact IH.
Qed.

Lemma strip_non_alnum_alnum (s : jsstring) :
  Forall (fun ch => is_alnum ch = true) (strip_non_alnum s).
Proof.
  apply Forall_forall. intros ch Hin. apply list_elem_of_In in Hin.
  apply List.filter_In in Hin. tauto.
Qed.

(** X3. The identifier of a URL of an arbitrary platform has between one
    and sixteen characters, all of them letters or digits. *)
Theorem extractVideoId_other_shape (e : env) (ch : N) (u : jsstring) :
  exists id,
    extractVideoId e (Some (ch :: u)) (js "other") = Some id /\
    (0 < length id <= 16)%nat /\
    Forall (fun x => is_alnum x = true) id.
Proof.
  eexists. split; [reflexivity|]. split.
  - split.
    + pose proof (other_id_nonempty ch u) as Hne.
      destruct (substring 0 16 (strip_non_alnum (base64 (utf8 (ch :: u))))); [congruence|].
      simpl. lia.
    + unfold substring. rewrite length_take. lia.
  - unfold substring. simpl drop. apply Forall_take. apply strip_non_alnum_alnum.
Qed.

(** X4. The identifier of a URL of an arbitrary platform is read from its
    first twelve characters only, when these are ASCII characters whose
    base-64 text holds letters and digits only: all the URLs that share such
    a beginning get the same identifier, the base-64 text of the
    beginning. *)
Theorem extractVideoId_other_prefix (e : env) (p rest : jsstring) :
  (length p = 12)%nat ->
  Forall (fun ch => (ch <? 128) = true) p ->
  Forall (fun ch => is_alnum ch = true) (base64 p) ->
  extractVideoId e (Some (p ++ rest)) (js "other") = Some (base64 p).
Proof.
  intros Hl Ha Hb.
  destruct p as [|c0 p]; [discriminate|].
  change (extractVideoId e (Some ((c0 :: p) ++ rest)) (js "other"))
    with (Some (substring 0 16 (strip_non_alnum (base64 (utf8 ((c0 :: p) ++ rest)))))).
  f_equal. rewrite utf8_ascii by exact Ha.
  destruct (base64_triples (c0 :: p) (utf8 rest) Hl) as [-> Hlen].
  rewrite strip_non_alnum_app by exact Hb.
  unfold substring. rewrite Nat.sub_0_r, drop_0.
  rewrite take_app_length' by (symmetry; exact Hlen). reflexivity.
Qed.

Lemma extractVideoId_other_prefix_witness :
  extractVideoId sample_env (Some (js "https://www." ++ js "example.com/watch/1")) (js "other")
    = Some (js "aHR0cHM6Ly93d3cu") /\
  extractVideoId sample_env (Some (js "https://www." ++ js "another.org/clip/2")) (js "other")
    = Some (js "aHR0cHM6Ly93d3cu").
Proof.
  split.
  - apply (extractVideoId_other_prefix sample_env (js "https://www.")).
    + reflexivity.
    + repeat constructor.
    + repeat constructor.
  - apply (extractVideoId_other_prefix sample_env (js "https://www.")).
    + reflexivity.
    + repeat constructor.
    + repeat constructor.
Defined.

End IdentifierShape.

(** ** Word boundaries in the language detector *)

Module WordBoundaries.

Import LangDetect LangDetectProofs.

(** a text without word characters has no word boundary *)
Lemma no_word_no_boundary (s : jsstring) :
  Forall (fun ch => is_word ch = false) s -> forall i, boundary s i = false.
Proof.
  intros H.
  assert (Hw : forall i, word_at s i = false).
  { intros i. unfold word_at. destruct (s !! i) as [ch|] eqn:E; [|reflexivity].
    rewrite Forall_lookup in H. exact (H _ _ E). }
  intros [|i]; unfold boundary; rewrite !Hw; reflexivity.
Qed.

Lemma search_none s r : (forall i, match_at s r i = None) -> forall n i, search s r n i = None.
Proof.
  intros H n. induction n as [|n IH]; intros i; simpl; rewrite H; [reflexivity|apply IH].
Qed.

(** a pattern of the detector starts with a word boundary *)
Lemma word_pattern_needs_boundary (s w : jsstring) :
  (forall i, boundary s i = false) -> exec (word_pattern w) s = None.
Proof.
  intros Hb. unfold exec. apply search_none. intros i.
  unfold match_at, word_pattern. cbn [seqs].
  destruct (map ci w ++ [WordB]) as [|r rest]; cbn [m]; rewrite Hb; reflexivity.
Qed.

Lemma word_patterns :
  Forall (fun lp => Forall (fun r => exists w, r = word_pattern w) (snd lp)) languagePatterns.
Proof. repeat constructor; eexists; reflexivity. Qed.

Lemma score_zero (s : jsstring) (patterns : list regex) :
  (forall i, boundary s i = false) ->
  Forall (fun r => exists w, r = word_pattern w) patterns ->
  score s patterns = 0.
Proof.
  intros Hb H. unfold score.
  assert (Hgen : forall acc, fold_left (fun acc pattern => acc + match_array_length pattern s)
                               patterns acc = acc).
  { induction H as [|r rest (w & ->) _ IH]; intros acc; [reflexivity|].
    cbn [fold_left]. unfold match_array_length at 2.
    rewrite word_pattern_needs_boundary by exact Hb. rewrite Nat.add_0_r. apply IH. }
  apply Hgen.
Qed.

(** X5. A text that holds no ASCII letter, digit or underscore is
    detected as English, whatever its script: every pattern of the detector
    is enclosed in word boundaries, and a word boundary needs such a
    character on one of its sides. *)
Theorem detectLanguage_without_word_characters (text : jsstring) :
  Forall (fun ch => is_word ch = false) text ->
  Forall (fun entry => snd entry = 0) (scores text) /\
  detectLanguage text = js "en".
Proof.
  intros H. pose proof (no_word_no_boundary text H) as Hb.
  assert (Hz : Forall (fun entry => snd entry = 0) (scores text)).
  { unfold scores. apply Forall_map.
    eapply Forall_impl; [exact word_patterns|].
    intros lp Hlp. simpl. apply score_zero; assumption. }
  split; [exact Hz|].
  unfold detectLanguage.
  pose proof (fold_pick (scores text) (js "en", 0)) as Hp. cbv zeta in Hp.
  set (r := fold_left pick (scores text) (js "en", 0)) in *.
  destruct Hp as [[-> _]|(i & Hi & Hlt & _)]; [reflexivity|].
  rewrite Forall_lookup in Hz. apply Hz in Hi. cbn [snd] in Hlt. lia.
Qed.

(** a Russian sentence and an Arabic one, in their own scripts *)
Definition russian_text : jsstring :=
  [0x44F; 0x20; 0x438; 0x20; 0x442; 0x44B; 0x20; 0x43D; 0x430; 0x20; 0x43C; 0x43E; 0x441;
   0x442; 0x443]%N.

Lemma detectLanguage_without_word_characters_witness :
  Forall (fun entry => snd entry = 0) (scores russian_text) /\
  detectLanguage russian_text = js "en".
Proof.
  apply detectLanguage_without_word_characters.
  repeat constructor.
Defined.

End WordBoundaries.

(** ** The transcription route, end to end *)

Module PipelineProofs.

Import Resolver Path Transcribe TranscribeFacts TranscribeProofs.

Local Open Scope Z_scope.

(** *** Concrete inputs *)

(** a world in which the download and the transcriber succeed *)
Definition working_world : world :=
  {| tmpdir := js "/tmp";
     t_request := 1700000000000;
     t_cache := 1700000000002;
     id_env := ResolverProofs.sample_env;
     id_env2 := ResolverProofs.sample_env;
     t_unknown := 1700000000003;
     t_store := 1700000000900;
     mkdir_error := None;
     title_stdout := Some (js "A talk");
     ytdlp_ok := true;
     script_exists := false;
     python_download := None;
     file_exists := fun p => bool_decide (p = js "/tmp/video_transcriptions/dQw4w9WgXcQ.mp3");
     readdir := Some [];
     readdir_error := js "ENOENT";
     python_shell :=
       Some [Some {| tr_success := true; tr_transcript := Some (js "good morning");
                     tr_language := Some (js "en"); tr_error := None |}];
     direct_exec := None;
     nllb_api := fun _ _ => Some (js "buenos dias");
     google_api := fun _ _ => None;
     type_error := v8_type_error |}.

(** the same world one hour later *)
Definition later_world : world :=
  {| tmpdir := js "/tmp";
     t_request := 1700003600000;
     t_cache := 1700003600002;
     id_env := ResolverProofs.sample_env;
     id_env2 := ResolverProofs.sample_env;
     t_unknown := 1700003600003;
     t_store := 1700003600900;
     mkdir_error := None;
     title_stdout := Some (js "A talk");
     ytdlp_ok := true;
     script_exists := false;
     python_download := None;
     file_exists := fun p => bool_decide (p = js "/tmp/video_transcriptions/dQw4w9WgXcQ.mp3");
     readdir := Some [];
     readdir_error := js "ENOENT";
     python_shell :=
       Some [Some {| tr_success := true; tr_transcript := Some (js "good morning");
                     tr_language := Some (js "en"); tr_error := None |}];
     direct_exec := None;
     nllb_api := fun _ _ => Some (js "buenos dias");
     google_api := fun _ _ => None;
     type_error := v8_type_error |}.

Lemma POST_again_within_a_day_witness :
  exists r,
    fst (POST working_world [] (Some youtube_request) idle_server) = reply 200 r /\
    fst (POST later_world [] (Some youtube_request)
           (snd (POST working_world [] (Some youtube_request) idle_server))) = reply 200 r /\
    calls (snd (POST later_world [] (Some youtube_request)
                  (snd (POST working_world [] (Some youtube_request) idle_server))))
      = calls (snd (POST working_world [] (Some youtube_request) idle_server)).
Proof.
  apply (POST_again_within_a_day working_world later_world [] youtube_request idle_server
           (js "https://youtu.be/dQw4w9WgXcQ")).
  - reflexivity.
  - reflexivity.
  - vm_compute. discriminate.
  - reflexivity.
  - intros data timestamp H. unfold idle_server in H. cbn [transcriptionCache] in H.
    rewrite lookup_empty in H. discriminate.
  - intros s0. vm_compute. reflexivity.
  - vm_compute. reflexivity.
Defined.

(** *** The fallback answer is not stored *)

(** X8. A fallback answer is not stored in the cache: after a YouTube
    submission whose video identifier is not the name constructor and whose
    extraction failed the cache is as before, so the same submission made
    again goes through the title command and the downloader again. *)
Theorem POST_fallback_is_not_cached (w1 w2 : world) (err : jsstring) (req : request)
  (s : server) (u : jsstring) :
  truthy (url req) = Some u ->
  platformType req = Some PlatformType.YOUTUBE ->
  extractYouTubeVideoId (id_env w1) (Some u) <> js "constructor" ->
  mkdir_error w1 = None ->
  mkdir_error w2 = None ->
  (forall data timestamp,
     transcriptionCache s
       !! (u ++ js "_" ++ default TARGET_LANGUAGES.HEBREW (truthy (targetLanguage req)))
       = Some (data, timestamp) ->
     CACHE_DURATION <= t_cache w1 - timestamp /\ CACHE_DURATION <= t_cache w2 - timestamp) ->
  (forall s0,
     r_success (fst (processYouTubeVideo w1 u (tempDir w1) (dec (t_request w1)) s0)) = false) ->
  let s' := snd (POST w1 err (Some req) s) in
  transcriptionCache s' = transcriptionCache s /\
  exists rest, calls (snd (POST w2 err (Some req) s')) = calls s' ++ GetTitle :: YtDlp :: rest.
Proof.
  intros Hu Hp Hid Hm1 Hm2 Hstale Hfail s'.
  pose proof (constructor_id_any_env _ (id_env w2) _ Hid) as Hid2.
  assert (Hc : transcriptionCache s' = transcriptionCache s).
  { subst s'.
    rewrite (POST_stale w1 _ _ _ _ Hu) by (intros d t H; apply (Hstale d t H)).
    rewrite (run_youtube _ _ _ _ _ Hp Hid Hm1). cbv zeta.
    match goal with
    | |- context [processYouTubeVideo w1 u (tempDir w1) (dec (t_request w1)) ?x] =>
        set (s3 := x);
        pose proof (Hfail s3) as Hf;
        destruct (ran_processYouTubeVideo w1 u (tempDir w1) (dec (t_request w1)) s3)
          as (rest & _ & Hk & _)
    end.
    unfold finish. rewrite Hf. cbn [negb]. cbv zeta.
    destruct (translateFallback _ _ _); cbn [snd set_progress transcriptionCache];
      rewrite Hk; reflexivity. }
  split; [exact Hc|].
  rewrite (POST_stale w2 _ _ _ _ Hu)
    by (rewrite Hc; intros d t H; apply (Hstale d t H)).
  rewrite (run_youtube _ _ _ _ _ Hp Hid2 Hm2). cbv zeta.
  match goal with
  | |- context [processYouTubeVideo w2 u (tempDir w2) (dec (t_request w2)) ?x] =>
      set (s3 := x);
      destruct (ran_processYouTubeVideo w2 u (tempDir w2) (dec (t_request w2)) s3)
        as (r1 & Hr1 & _);
      destruct (calls_finish w2 (dec (t_request w2))
                  (u ++ js "_" ++ default TARGET_LANGUAGES.HEBREW (truthy (targetLanguage req)))
                  req
                  (fst (processYouTubeVideo w2 u (tempDir w2) (dec (t_request w2)) s3))
                  (snd (processYouTubeVideo w2 u (tempDir w2) (dec (t_request w2)) s3)))
        as (r2 & Hr2)
  end.
  exists (r1 ++ r2). rewrite Hr2, Hr1. subst s3.
  cbn [calls set_progress set_tempVideoId]. rewrite <- app_assoc. reflexivity.
Qed.

Lemma POST_fallback_is_not_cached_witness :
  transcriptionCache (snd (POST unreachable_world [] (Some youtube_request) idle_server))
    = transcriptionCache idle_server /\
  exists rest,
    calls (snd (POST unreachable_world [] (Some youtube_request)
                  (snd (POST unreachable_world [] (Some youtube_request) idle_server))))
      = calls (snd (POST unreachable_world [] (Some youtube_request) idle_server))
        ++ GetTitle :: YtDlp :: rest.
Proof.
  apply (POST_fallback_is_not_cached unreachable_world unreachable_world [] youtube_request
           idle_server (js "https://youtu.be/dQw4w9WgXcQ")).
  - reflexivity.
  - reflexivity.
  - vm_compute. discriminate.
  - reflexivity.
  - reflexivity.
  - intros data timestamp H. unfold idle_server in H. cbn [transcriptionCache] in H.
    rewrite lookup_empty in H. discriminate.
  - intros s0. vm_compute. reflexivity.
Defined.

(** *** A submission without a target language *)

(** X9. A YouTube submission that names no target language, whose video
    identifier is not the name constructor and whose extraction succeeds
    is answered with an empty translation, no tool being
    run after the extraction; the answer is stored under the key of the
    Hebrew target, and a submission of the same URL that asks for Hebrew
    within 24 hours is answered with it, empty translation included. *)
Theorem POST_without_target_language (w1 w2 : world) (err : jsstring) (req req' : request)
  (s : server) (u : jsstring) :
  truthy (url req) = Some u ->
  platformType req = Some PlatformType.YOUTUBE ->
  extractYouTubeVideoId (id_env w1) (Some u) <> js "constructor" ->
  truthy (targetLanguage req) = None ->
  mkdir_error w1 = None ->
  (forall data timestamp,
     transcriptionCache s !! (u ++ js "_" ++ TARGET_LANGUAGES.HEBREW) = Some (data, timestamp) ->
     CACHE_DURATION <= t_cache w1 - timestamp) ->
  (forall s0,
     r_success (fst (processYouTubeVideo w1 u (tempDir w1) (dec (t_request w1)) s0)) = true) ->
  truthy (url req') = Some u ->
  targetLanguage req' = Some (js "he") ->
  t_cache w2 - t_store w1 < CACHE_DURATION ->
  let first := POST w1 err (Some req) s in
  exists r,
    fst first = reply 200 r /\
    translation r = Val [] /\
    calls (snd first)
      = calls (snd (processYouTubeVideo w1 u (tempDir w1) (dec (t_request w1))
                      (before_extraction w1 u s))) /\
    fst (POST w2 err (Some req') (snd first)) = reply 200 r.
Proof.
  intros Hu Hp Hid Ht Hm Hstale Hok Hu' Ht' Hfresh first. subst first.
  assert (Hs : forall data timestamp,
    transcriptionCache s
      !! (u ++ js "_" ++ default TARGET_LANGUAGES.HEBREW (truthy (targetLanguage req)))
      = Some (data, timestamp) -> CACHE_DURATION <= t_cache w1 - timestamp).
  { rewrite Ht. exact Hstale. }
  rewrite (POST_stale _ _ _ _ _ Hu Hs), (run_youtube _ _ _ _ _ Hp Hid Hm). cbv zeta.
  change (set_progress (dec (t_request w1)) (entry 15 (js "Extracting content")) _)
    with (before_extraction w1 u s).
  set (out := processYouTubeVideo w1 u (tempDir w1) (dec (t_request w1))
                (before_extraction w1 u s)).
  pose proof (Hok (before_extraction w1 u s)) as Hsucc. fold out in Hsucc.
  unfold finish. rewrite Hsucc, Ht. cbn [negb fst snd default].
  eexists. split; [reflexivity|]. split; [reflexivity|]. split; [reflexivity|].
  rewrite (POST_accepted w2 _ _ _ _ Hu'). cbv zeta. rewrite Ht'.
  change (default TARGET_LANGUAGES.HEBREW (truthy (Some (js "he"))))
    with TARGET_LANGUAGES.HEBREW.
  cbn [transcriptionCache set_cache set_progress].
  rewrite lookup_insert_eq.
  apply Z.ltb_lt in Hfresh. rewrite Hfresh. reflexivity.
Qed.

Definition plain_request : request :=
  {| url := Some (js "https://youtu.be/dQw4w9WgXcQ");
     targetLanguage := None;
     platformType := Some (js "youtube") |}.

Definition hebrew_request : request :=
  {| url := Some (js "https://youtu.be/dQw4w9WgXcQ");
     targetLanguage := Some (js "he");
     platformType := Some (js "youtube") |}.

Lemma POST_without_target_language_witness :
  exists r,
    fst (POST working_world [] (Some plain_request) idle_server) = reply 200 r /\
    translation r = Val [] /\
    calls (snd (POST working_world [] (Some plain_request) idle_server))
      = calls (snd (processYouTubeVideo working_world (js "https://youtu.be/dQw4w9WgXcQ")
                      (tempDir working_world) (dec (t_request working_world))
                      (before_extraction working_world (js "https://youtu.be/dQw4w9WgXcQ")
                         idle_server))) /\
    fst (POST later_world [] (Some hebrew_request)
           (snd (POST working_world [] (Some plain_request) idle_server))) = reply 200 r.
Proof.
  apply (POST_without_target_language working_world later_world [] plain_request
           hebrew_request idle_server (js "https://youtu.be/dQw4w9WgXcQ")).
  - reflexivity.
  - reflexivity.
  - vm_compute. discriminate.
  - reflexivity.
  - reflexivity.
  - intros data timestamp H. unfold idle_server in H. cbn [transcriptionCache] in H.
    rewrite lookup_empty in H. discriminate.
  - intros s0. vm_compute. reflexivity.
  - reflexivity.
  - reflexivity.
  - vm_compute. reflexivity.
Defined.

(** *** The progress entry of an answered request *)

Lemma GET_entry json_status (rid : jsstring) (e : progress_entry) (s : server) :
  rid <> [] -> transcriptionProgress s !! rid = Some e ->
  GET json_status (Some rid) s = (200%nat, Some (Val e)).
Proof.
  intros Hne He. unfold GET. destruct rid as [|c t]; [contradiction|].
  cbn [truthy]. rewrite He. reflexivity.
Qed.

Lemma finish_progress w rid key req tr s :
  exists st, transcriptionProgress (snd (finish w rid key req tr s)) !! rid
             = Some (entry 100 st) /\
             st <> js "Retrieved known video".
Proof.
  unfold finish. destruct (negb (r_success tr)).
  - eexists. cbv zeta.
    destruct (translateFallback _ _ _);
      cbn [snd set_progress transcriptionProgress]; rewrite lookup_insert_eq;
      (split; [reflexivity|discriminate]).
  - cbv zeta.
    match goal with
    | |- context [let '(translated, s3) := ?t in _] => destruct t as [translated s3]
    end.
    eexists. cbn [snd set_cache set_progress transcriptionProgress].
    rewrite lookup_insert_eq. split; [reflexivity|discriminate].
Qed.

(** X10. Every submission that is answered with status 200 leaves the progress
    entry of its request at 100: a progress query made after the answer
    reports the request as complete. *)
Theorem POST_ok_completes_progress (w : world) (err : jsstring) (parsed : option request)
  (s : server) (json_status : jsstring -> nat) :
  status (fst (POST w err parsed s)) = 200%nat ->
  exists st,
    GET json_status (Some (dec (t_request w))) (snd (POST w err parsed s))
      = (200%nat, Some (Val (entry 100 st))).
Proof.
  intros Hok.
  assert (Hp : exists st,
    transcriptionProgress (snd (POST w err parsed s)) !! dec (t_request w)
      = Some (entry 100 st)).
  { destruct parsed as [req|]; [|discriminate].
    destruct (truthy (url req)) as [u|] eqn:Hu.
    2:{ unfold POST in Hok. rewrite Hu in Hok. discriminate. }
    rewrite (POST_accepted _ _ _ _ _ Hu) in Hok |- *. cbv zeta in Hok |- *.
    set (rid := dec (t_request w)) in *.
    set (key := u ++ js "_" ++ default TARGET_LANGUAGES.HEBREW (truthy (targetLanguage req))) in *.
    set (s1 := set_progress rid (entry 1 (js "Starting process")) s) in *.
    assert (Hrun : status (fst (run w rid key u req s1)) = 200%nat ->
                   exists st, transcriptionProgress (snd (run w rid key u req s1)) !! rid
                              = Some (entry 100 st)).
    { clear Hok. unfold run. cbv zeta.
      destruct (bool_decide (platformType req = Some PlatformType.YOUTUBE)).
      - destruct (read _ _) as [[knownVideo|name]|].
        + intros _. eexists. cbn [snd set_progress transcriptionProgress].
          apply lookup_insert_eq.
        + discriminate.
        + destruct (mkdir_error w); [discriminate|].
          destruct (processYouTubeVideo w u _ rid _) as [tr s4]. intros _.
          destruct (finish_progress w rid key req tr s4) as (st & Hst & _). eauto.
      - destruct (mkdir_error w); discriminate. }
    destruct (transcriptionCache s !! key) as [[data timestamp]|]; [|auto].
    destruct (t_cache w - timestamp <? CACHE_DURATION); [|auto].
    eexists. cbn [snd set_progress transcriptionProgress]. apply lookup_insert_eq. }
  destruct Hp as (st & Hst). exists st. apply GET_entry; [apply dec_nonempty|exact Hst].
Qed.

Lemma POST_ok_completes_progress_witness :
  exists st,
    GET (fun _ => 500%nat) (Some (js "1700000000000"))
        (snd (POST working_world [] (Some youtube_request) idle_server))
      = (200%nat, Some (Val (entry 100 st))).
Proof.
  apply (POST_ok_completes_progress working_world [] (Some youtube_request) idle_server
           (fun _ => 500%nat)).
  vm_compute. reflexivity.
Defined.

(** *** The known-video table *)

(** the progress of the request after the part of the handler that follows
    the cache test, entered with the entry of its first step *)
Lemma run_progress_step w rid key u req s st :
  st <> js "Retrieved known video" ->
  transcriptionProgress s !! rid = Some (entry 1 st) ->
  transcriptionProgress (snd (run w rid key u req s)) !! rid
    <> Some (entry 100 (js "Retrieved known video")).
Proof.
  intros Hst Hs. unfold run. cbv zeta.
  destruct (bool_decide (platformType req = Some PlatformType.YOUTUBE)).
  - pose proof (youtube_id_never_own (id_env w) (Some u)) as Hown.
    destruct (read _ _) as [[knownVideo|name]|].
    + exfalso. apply (Hown knownVideo). reflexivity.
    + cbn [snd set_tempVideoId transcriptionProgress]. rewrite Hs. discriminate.
    + destruct (mkdir_error w).
      * cbn [snd set_progress transcriptionProgress]. rewrite lookup_insert_eq.
        discriminate.
      * destruct (processYouTubeVideo w u _ rid _) as [tr s4].
        destruct (finish_progress w rid key req tr s4) as (st' & Hst' & Hne).
        rewrite Hst'. intros E. apply Hne. injection E as E. exact E.
  - destruct (mkdir_error w);
      cbn [snd set_progress transcriptionProgress]; rewrite lookup_insert_eq; discriminate.
Qed.

(** X11. The table of known videos never serves a result. No identifier
    that the YouTube resolver returns is an own key of the table, so the
    read of the table never gives an entry, and no submission with a URL
    ends with the progress step of a known video. The read does find one
    identifier, the name constructor, which every object inherits: a
    YouTube submission with that identifier that is not answered from the
    cache is answered with status 500 and the message of the TypeError,
    runs no tool, stores nothing and leaves the progress of the request at
    its first step; for every other identifier the read gives undefined. *)
Theorem known_videos_are_never_served (w : world) (err : jsstring) (req : request)
  (s : server) (u : jsstring) :
  let id := extractYouTubeVideoId (id_env w) (Some u) in
  let target := default TARGET_LANGUAGES.HEBREW (truthy (targetLanguage req)) in
  let out := POST w err (Some req) s in
  (forall e url kv,
     read (lookup_key (extractYouTubeVideoId e url) knownVideos) (extractYouTubeVideoId e url)
       <> Some (Val kv)) /\
  (id <> js "constructor" -> read (lookup_key id knownVideos) id = None) /\
  (truthy (url req) = Some u ->
   transcriptionProgress (snd out) !! dec (t_request w)
     <> Some (entry 100 (js "Retrieved known video"))) /\
  (truthy (url req) = Some u ->
   platformType req = Some PlatformType.YOUTUBE ->
   id = js "constructor" ->
   (forall data timestamp,
      transcriptionCache s !! (u ++ js "_" ++ target) = Some (data, timestamp) ->
      CACHE_DURATION <= t_cache w - timestamp) ->
   fst out = refuse 500 (type_error w target) /\
   calls (snd out) = calls s /\
   transcriptionCache (snd out) = transcriptionCache s /\
   transcriptionProgress (snd out)
     = <[dec (t_request w) := entry 1 (js "Starting process")]> (transcriptionProgress s)).
Proof.
  intros id target out. split; [intros e url kv; apply youtube_id_never_own|].
  split; [apply youtube_id_read|]. split.
  - intros Hu. subst out. rewrite (POST_accepted _ _ _ _ _ Hu). cbv zeta.
    assert (Hrun : forall key,
      transcriptionProgress
        (snd (run w (dec (t_request w)) key u req
                (set_progress (dec (t_request w)) (entry 1 (js "Starting process")) s)))
        !! dec (t_request w) <> Some (entry 100 (js "Retrieved known video"))).
    { intros key. apply (run_progress_step _ _ _ _ _ _ (js "Starting process"));
        [discriminate|].
      cbn [set_progress transcriptionProgress]. apply lookup_insert_eq. }
    destruct (transcriptionCache s !! _) as [[data timestamp]|]; [|apply Hrun].
    destruct (t_cache w - timestamp <? CACHE_DURATION); [|apply Hrun].
    cbn [snd set_progress transcriptionProgress]. rewrite lookup_insert_eq. discriminate.
  - intros Hu Hp Hc Hstale. subst out.
    rewrite (POST_stale _ _ _ _ _ Hu Hstale), (run_constructor _ _ _ _ _ _ Hp Hc).
    repeat split.
Qed.

Lemma known_videos_are_never_served_witness :
  fst (POST unreachable_world [] (Some constructor_request) idle_server)
    = refuse 500 (v8_type_error (js "he")) /\
  calls (snd (POST unreachable_world [] (Some constructor_request) idle_server)) = [] /\
  transcriptionCache (snd (POST unreachable_world [] (Some constructor_request) idle_server))
    = ∅.
Proof.
  destruct (known_videos_are_never_served unreachable_world [] constructor_request
              idle_server (js "https://youtu.be/constructor")) as (_ & _ & _ & H).
  destruct H as (H1 & H2 & H3 & _).
  - reflexivity.
  - reflexivity.
  - vm_compute. reflexivity.
  - intros data timestamp H. unfold idle_server in H. cbn [transcriptionCache] in H.
    rewrite lookup_empty in H. discriminate.
  - split; [exact H1|]. split; [exact H2|exact H3].
Defined.

(** *** Translation of the transcript and of the fallback *)

Lemma truthy_nonempty (x : option jsstring) (t : jsstring) :
  truthy x = Some t -> x = Some t /\ t <> [].
Proof.
  destruct x as [[|c r]|]; simpl; intros H; inversion H; subst.
  split; [reflexivity|discriminate].
Qed.

Lemma placeholder_nonempty tl : placeholder tl <> [].
Proof. unfold placeholder. repeat case_decide; discriminate. Qed.

(** X15. The translation step never fails and never returns an empty text.
    The local-model route is asked first; the remote-provider route is asked
    only when the first gave no translation; when neither gives one the
    result is the apology of the target language. *)
Theorem translateWithLocalAI_result (w : world) (text targetLang : jsstring) (s : server) :
  let out := translateWithLocalAI w text targetLang s in
  fst out <> [] /\
  match truthy (nllb_api w text targetLang), truthy (google_api w text targetLang) with
  | Some t, _ => fst out = t /\ calls (snd out) = calls s ++ [NllbApi]
  | None, Some t => fst out = t /\ calls (snd out) = calls s ++ [NllbApi; GoogleApi]
  | None, None =>
      fst out = placeholder targetLang /\ calls (snd out) = calls s ++ [NllbApi; GoogleApi]
  end.
Proof.
  unfold translateWithLocalAI. cbv zeta.
  destruct (truthy (nllb_api w text targetLang)) as [t|] eqn:E1.
  - apply truthy_nonempty in E1 as [_ Hne]. cbn [fst snd invoke calls]. auto.
  - destruct (truthy (google_api w text targetLang)) as [t|] eqn:E2;
      cbn [fst snd invoke calls]; rewrite <- app_assoc.
    + apply truthy_nonempty in E2 as [_ Hne]. auto.
    + split; [apply placeholder_nonempty|auto].
Qed.

(** X16. The translation of the fallback does not depend on the transcript
    it is given and is never the empty text. The function throws exactly
    when the identifier left by the handler is a name that every object
    inherits and not a key of the table of known videos. Otherwise it
    returns a translation of the known video that the identifier names, or
    else the prepared Hebrew text whatever the target language, but for a
    target language that is itself an inherited name: then it returns the
    inherited value. *)
Theorem translateFallback_ignores_transcript (transcript transcript' targetLanguage : jsstring)
  (s : server) :
  translateFallback transcript targetLanguage s
    = translateFallback transcript' targetLanguage s /\
  translateFallback transcript targetLanguage s <> Some (Val []) /\
  (translateFallback transcript targetLanguage s = None <->
   exists id,
     truthy (tempVideoId s) = Some id /\ lookup_key id knownVideos = None /\
     inherited id = true) /\
  (forall v, translateFallback transcript targetLanguage s = Some v ->
     v = (if inherited targetLanguage then Inherited targetLanguage else Val fallback_he) \/
     exists id kv,
       tempVideoId s = Some id /\ lookup_key id knownVideos = Some kv /\
       read (lookup_key targetLanguage (kv_translations kv)) targetLanguage = Some v).
Proof.
  unfold translateFallback. rewrite !prepared_spec.
  set (p := if inherited targetLanguage then _ else _).
  assert (Hp : Some p <> Some (Val [])).
  { subst p. destruct (inherited targetLanguage); discriminate. }
  assert (Hplain : Some p = Some p /\ Some p <> Some (Val []) /\
                   (Some p = None <->
                    exists id, @None jsstring = Some id /\ lookup_key id knownVideos = None /\
                               inherited id = true) /\
                   (forall v, Some p = Some v -> v = p \/
                      exists id kv, tempVideoId s = Some id /\
                        lookup_key id knownVideos = Some kv /\
                        read (lookup_key targetLanguage (kv_translations kv)) targetLanguage
                          = Some v)).
  { split; [reflexivity|]. split; [exact Hp|]. split.
    - split; [discriminate|]. intros (id & H & _). discriminate.
    - intros v E. left. congruence. }
  destruct (truthy (tempVideoId s)) as [id|] eqn:Eid; [|exact Hplain].
  pose proof Eid as Eid'. apply truthy_nonempty in Eid' as [Etemp _].
  destruct (lookup_key id knownVideos) as [kv|] eqn:Ekv; cbn [read].
  - destruct (truthy_value (read (lookup_key targetLanguage (kv_translations kv))
                                 targetLanguage)) as [v|] eqn:Ev.
    + split; [reflexivity|]. split.
      { intros E. injection E as ->. revert Ev. unfold truthy_value.
        destruct (read _ _) as [[[|c t]|name]|]; discriminate. }
      split.
      { split; [discriminate|]. intros (id' & H & Hk & _). congruence. }
      intros v' E. injection E as <-. right. exists id, kv.
      split; [exact Etemp|]. split; [exact Ekv|].
      revert Ev. unfold truthy_value.
      destruct (read _ _) as [[[|c t]|name]|]; congruence.
    + split; [reflexivity|]. split; [exact Hp|]. split.
      { split; [discriminate|]. intros (id' & H & Hk & _). congruence. }
      intros v E. left. congruence.
  - destruct (inherited id) eqn:Ei.
    + split; [reflexivity|]. split; [discriminate|]. split.
      { split; [|reflexivity]. intros _. exists id. auto. }
      discriminate.
    + split; [reflexivity|]. split; [exact Hp|]. split.
      { split; [discriminate|]. intros (id' & H & _ & Hi). congruence. }
      intros v E. left. congruence.
Qed.

(** *** The outcome of the extraction *)

Lemma transcribe_found_shape w rid title audio s :
  let r := fst (transcribe_found w rid title audio s) in
  if r_success r
  then (exists c t, r_transcript r = Some (c :: t)) /\
       r_title r = Some title /\
       (exists l, r_language r = Some l /\ l <> []) /\
       r_error r = None
  else r_transcript r = None /\ exists msg, r_error r = Some msg /\ msg <> [].
Proof.
  unfold transcribe_found.
  destruct (transcribe w _) as [tr s2].
  assert (Hfail : forall x (o : option jsstring),
    r_transcript (failed (default (js "Transcription failed") (truthy o)) x) = None /\
    exists msg, r_error (failed (default (js "Transcription failed") (truthy o)) x) = Some msg
                /\ msg <> []).
  { intros x o. split; [reflexivity|]. eexists. split; [reflexivity|].
    destruct (truthy o) as [t|] eqn:E; [|discriminate].
    apply truthy_nonempty in E as [_ Hne]. exact Hne. }
  destruct tr as [[[] [[|c t]|] lang err]|]; cbn [fst]; try apply Hfail.
  cbn [r_success r_transcript r_title r_language r_error].
  split; [eauto|]. split; [reflexivity|]. split; [|reflexivity].
  eexists. split; [reflexivity|].
  destruct (truthy lang) as [l|] eqn:E; [|discriminate].
  apply truthy_nonempty in E as [_ Hne]. exact Hne.
Qed.

(** X13. The extraction of a YouTube video reports success only with a
    transcript that is not empty, a title, a language code that is not empty
    and no error; a failure carries no transcript. Whatever the outcome, the
    title command and the downloader were run. *)
Theorem processYouTubeVideo_outcome_shape (w : world) (url tempDir requestId : jsstring)
  (s : server) :
  let out := processYouTubeVideo w url tempDir requestId s in
  (if r_success (fst out)
   then (exists c t, r_transcript (fst out) = Some (c :: t)) /\
        is_Some (r_title (fst out)) /\
        (exists l, r_language (fst out) = Some l /\ l <> []) /\
        r_error (fst out) = None
   else r_transcript (fst out) = None /\ is_Some (r_error (fst out))) /\
  exists rest, calls (snd out) = calls s ++ GetTitle :: YtDlp :: rest.
Proof.
  intros out. split.
  - subst out. unfold processYouTubeVideo. cbv zeta.
    destruct (download w _ _) as [audio s3].
    assert (Hf : forall title found,
      let r := fst (transcribe_found w requestId title found s3) in
      if r_success r
      then (exists c t, r_transcript r = Some (c :: t)) /\ is_Some (r_title r) /\
           (exists l, r_language r = Some l /\ l <> []) /\ r_error r = None
      else r_transcript r = None /\ is_Some (r_error r)).
    { intros title found. pose proof (transcribe_found_shape w requestId title found s3) as H.
      cbv zeta in H |- *.
      destruct (r_success (fst (transcribe_found w requestId title found s3))).
      - destruct H as (H1 & H2 & H3 & H4). rewrite H2. eauto.
      - destruct H as (H1 & msg & H2 & _). rewrite H2. eauto. }
    destruct (find_expected w _) as [found|]; [apply Hf|].
    destruct (readdir w) as [files|].
    + destruct (possibleAudioFiles _ _ files) as [|found ?]; [|apply Hf].
      cbn [fst failed r_success r_transcript r_error]. eauto.
    + cbn [fst failed r_success r_transcript r_error]. eauto.
  - destruct (ran_processYouTubeVideo w url tempDir requestId s) as (rest & Hr & _).
    exists rest. exact Hr.
Qed.

Lemma get_title_nonempty w videoId : get_title w videoId <> [].
Proof. unfold get_title. destruct (title_stdout w) as [[|c t]|]; discriminate. Qed.

Lemma truthy_cons (c : N) (t : jsstring) : truthy (Some (c :: t)) = Some (c :: t).
Proof. reflexivity. Qed.

(** X14. The answer to a submission whose extraction succeeded carries the
    transcript, the title and the language of the extraction as they are:
    the language detector is not consulted, the extraction always naming a
    language. *)
Theorem finish_keeps_extraction (w : world) (url tempDir requestId cacheKey : jsstring)
  (req : request) (s s' : server) :
  let tr := fst (processYouTubeVideo w url tempDir requestId s) in
  r_success tr = true ->
  exists r,
    fst (finish w requestId cacheKey req tr s') = reply 200 r /\
    r_transcript tr = Some (transcript r) /\
    r_title tr = Some (title r) /\
    r_language tr = Some (detectedLanguage r).
Proof.
  intros tr Hs.
  assert (Hshape : (exists c t, r_transcript tr = Some (c :: t)) /\
                   (exists c t, r_title tr = Some (c :: t)) /\
                   (exists c t, r_language tr = Some (c :: t))).
  { subst tr. revert Hs. unfold processYouTubeVideo. cbv zeta.
    destruct (download w _ _) as [audio s3].
    assert (Hf : forall found,
      let r := fst (transcribe_found w requestId
                      (get_title w (default (js "unknown_" ++ dec (t_unknown w))
                         (truthy (extractVideoId (id_env2 w) (Some url) PlatformType.YOUTUBE))))
                      found s3) in
      r_success r = true ->
      (exists c t, r_transcript r = Some (c :: t)) /\
      (exists c t, r_title r = Some (c :: t)) /\
      (exists c t, r_language r = Some (c :: t))).
    { intros found. cbv zeta.
      pose proof (transcribe_found_shape w requestId
                    (get_title w (default (js "unknown_" ++ dec (t_unknown w))
                       (truthy (extractVideoId (id_env2 w) (Some url) PlatformType.YOUTUBE))))
                    found s3) as H.
      cbv zeta in H. intros E. rewrite E in H. destruct H as (H1 & H2 & (l & H3 & Hl) & _).
      split; [exact H1|]. split.
      - rewrite H2.
        pose proof (get_title_nonempty w
                      (default (js "unknown_" ++ dec (t_unknown w))
                         (truthy (extractVideoId (id_env2 w) (Some url)
                                    PlatformType.YOUTUBE)))) as Hne.
        destruct (get_title w _) as [|c t]; [contradiction|eauto].
      - rewrite H3. destruct l as [|c t]; [contradiction|eauto]. }
    destruct (find_expected w _) as [found|]; [apply Hf|].
    destruct (readdir w) as [files|].
    + destruct (possibleAudioFiles _ _ files) as [|found ?]; [discriminate|apply Hf].
    + discriminate. }
  destruct Hshape as ((c1 & t1 & H1) & (c2 & t2 & H2) & (c3 & t3 & H3)).
  unfold finish. rewrite Hs, H1, H2, H3. cbn [negb]. cbv zeta.
  rewrite !truthy_cons. cbn [default].
  destruct (match truthy (targetLanguage req) with Some _ => _ | None => _ end)
    as [translated s3].
  eexists. split; [reflexivity|]. cbn [transcript title detectedLanguage]. auto.
Qed.

Lemma finish_keeps_extraction_witness :
  exists r,
    fst (finish working_world (js "1700000000000") (js "https://youtu.be/dQw4w9WgXcQ_ar")
           youtube_request
           (fst (processYouTubeVideo working_world (js "https://youtu.be/dQw4w9WgXcQ")
                   (js "/tmp/video_transcriptions") (js "1700000000000") idle_server))
           idle_server) = reply 200 r /\
    Some (js "good morning") = Some (transcript r) /\
    Some (js "A talk") = Some (title r) /\
    Some (js "en") = Some (detectedLanguage r).
Proof.
  apply (finish_keeps_extraction working_world (js "https://youtu.be/dQw4w9WgXcQ")
           (js "/tmp/video_transcriptions") (js "1700000000000")
           (js "https://youtu.be/dQw4w9WgXcQ_ar") youtube_request idle_server idle_server).
  vm_compute. reflexivity.
Defined.

End PipelineProofs.

(** ** Request identifiers and the sweep of the progress map *)

Module IdentifierRoundTrip.

Import Transcribe.

Local Open Scope Z_scope.

(** reading the digits of a numeral with an accumulator *)
Lemma digits_value_acc (d : Decimal.uint) : forall acc : positive,
  digits_value 10 (Some (Z.pos acc)) (js (NilEmpty.string_of_uint d))
    = Some (Z.pos (Pos.of_uint_acc d acc)).
Proof.
  induction d; intros acc; cbn [NilEmpty.string_of_uint js digits_value Pos.of_uint_acc];
    try reflexivity;
    match goal with
    | |- context [digit_value 10 ?c] =>
        let v := eval vm_compute in (digit_value 10 c) in
        change (digit_value 10 c) with v
    end; cbv iota beta; cbn [default]; unfold id; rewrite <- IHd; do 2 f_equal; lia.
Qed.

Lemma digits_value_zero (d : Decimal.uint) :
  digits_value 10 (Some 0) (js (NilEmpty.string_of_uint d)) = Some (Z.of_N (Pos.of_uint d)).
Proof.
  induction d; cbn [NilEmpty.string_of_uint js digits_value Pos.of_uint];
    try reflexivity;
    match goal with
    | |- context [digit_value 10 ?c] =>
        let v := eval vm_compute in (digit_value 10 c) in
        change (digit_value 10 c) with v
    end; cbv iota beta; cbn [default]; unfold id;
    first [exact IHd | apply digits_value_acc].
Qed.

Lemma numeral_digits (d : Decimal.uint) :
  Forall (fun c => is_digit c = true) (js (NilZero.string_of_uint d)) /\
  js (NilZero.string_of_uint d) <> [].
Proof.
  assert (H : forall d, Forall (fun c => is_digit c = true) (js (NilEmpty.string_of_uint d))).
  { clear d. induction d; cbn [NilEmpty.string_of_uint js]; constructor;
      first [reflexivity | exact IHd]. }
  destruct d; split; try discriminate; try apply H. repeat constructor.
Qed.

Lemma is_digit_cases (c : N) :
  is_digit c = true ->
  (c = 48 \/ c = 49 \/ c = 50 \/ c = 51 \/ c = 52 \/ c = 53 \/ c = 54 \/ c = 55 \/
   c = 56 \/ c = 57)%N.
Proof.
  unfold is_digit, in_range. rewrite andb_true_iff, !N.leb_le. lia.
Qed.

Lemma digits_value_some (s : jsstring) (acc : Z) :
  exists v, digits_value 10 (Some acc) s = Some v.
Proof.
  revert acc. induction s as [|c t IH]; intros acc; cbn [digits_value]; [eauto|].
  destruct (digit_value 10 c); [apply IH|eauto].
Qed.

(** on a run of decimal digits [parseInt] reads the whole run in base ten *)
Lemma parseInt_digits (s : jsstring) :
  s <> [] -> Forall (fun c => is_digit c = true) s ->
  parseInt s = digits_value 10 (Some 0) s /\
  parseInt (js "-" ++ s)
    = match digits_value 10 (Some 0) s with Some v => Some (- v) | None => None end.
Proof.
  intros Hne H. destruct (digits_value_some s 0) as (v & Hv).
  assert (Hgoal :
    match digits_value 10 (Some 0) s with Some v => Some (1 * v) | None => None end
      = digits_value 10 (Some 0) s /\
    match digits_value 10 (Some 0) s with Some v => Some (-1 * v) | None => None end
      = match digits_value 10 (Some 0) s with Some v => Some (- v) | None => None end).
  { rewrite Hv. split; f_equal; lia. }
  clear Hv. destruct H as [|c t Hc Ht]; [contradiction|].
  apply is_digit_cases in Hc.
  destruct Hc as [->|[->|[->|[->|[->|[->|[->|[->|[->| ->]]]]]]]]];
    try exact Hgoal.
  destruct Ht as [|c2 t2 Hc2 Ht2]; [exact Hgoal|].
  apply is_digit_cases in Hc2.
  destruct Hc2 as [->|[->|[->|[->|[->|[->|[->|[->|[->| ->]]]]]]]]]; exact Hgoal.
Qed.

Lemma parseInt_numeral (n : N) :
  parseInt (js (NilZero.string_of_uint (N.to_uint n))) = Some (Z.of_N n) /\
  parseInt (js "-" ++ js (NilZero.string_of_uint (N.to_uint n))) = Some (- Z.of_N n).
Proof.
  destruct (numeral_digits (N.to_uint n)) as [Hd Hne].
  destruct (parseInt_digits _ Hne Hd) as [-> ->].
  assert (E : digits_value 10 (Some 0) (js (NilZero.string_of_uint (N.to_uint n)))
              = Some (Z.of_N n)).
  { rewrite <- (DecimalN.Unsigned.of_to n) at 2. unfold N.of_uint.
    destruct (N.to_uint n) eqn:E; try apply digits_value_zero. reflexivity. }
  rewrite E. split; reflexivity.
Qed.

(** The decimal text of an integer is read back by [parseInt]. *)
Lemma parseInt_dec (z : Z) : parseInt (dec z) = Some z.
Proof.
  unfold dec. destruct (z <? 0) eqn:E.
  - apply Z.ltb_lt in E.
    destruct (parseInt_numeral (Z.abs_N z)) as [_ ->]. f_equal. lia.
  - apply Z.ltb_ge in E.
    destruct (parseInt_numeral (Z.to_N z)) as [-> _]. f_equal. lia.
Qed.

(** X17. A request identifier is the decimal text of the clock reading at
    which the request was made, and [updateProgress] reads the reading back
    from it. After [updateProgress] on such an identifier, the entry of the
    identifier holds the new progress and step on top of the fields it had,
    unless the request was made more than 24 hours before the sweep, in which
    case the call removes the entry it has just written. Every other entry is
    kept as it was exactly when its identifier does not read as a time more
    than 24 hours before the sweep. *)
Theorem updateProgress_own_entry (now t pr : Z) (st : jsstring) (data : option progress_data)
  (m : gmap (list N) progress_entry) :
  0 <= t < 2 ^ 53 ->
  parseInt (dec t) = Some t /\
  updateProgress now (dec t) pr st data m !! dec t
    = (if t <? now - DAY then None else Some (merge_entry (m !! dec t) pr st data)) /\
  forall id, id <> dec t ->
    updateProgress now (dec t) pr st data m !! id
      = if expired now id then None else m !! id.
Proof.
  intros _. split; [apply parseInt_dec|].
  assert (Hlook : forall id,
    updateProgress now (dec t) pr st data m !! id
      = if expired now id then None
        else <[dec t := merge_entry (m !! dec t) pr st data]> m !! id).
  { intros id. unfold updateProgress. cbv zeta.
    destruct (expired now id) eqn:E.
    - apply map_lookup_filter_None. right. intros x _. cbn [fst]. congruence.
    - destruct (<[dec t := merge_entry (m !! dec t) pr st data]> m !! id) as [x|] eqn:Ex.
      + apply map_lookup_filter_Some. split; [exact Ex|exact E].
      + apply map_lookup_filter_None. left. exact Ex. }
  split.
  - rewrite Hlook. unfold expired. rewrite parseInt_dec, lookup_insert_eq. reflexivity.
  - intros id Hne. rewrite Hlook. rewrite lookup_insert_ne by congruence. reflexivity.
Qed.

Lemma updateProgress_own_entry_witness :
  updateProgress 1700090000000 (dec 1700000000000) 40 (js "Transcribing audio") None ∅
    !! dec 1700000000000 = None /\
  updateProgress 1700080000000 (dec 1700000000000) 40 (js "Transcribing audio") None ∅
    !! dec 1700000000000 = Some (entry 40 (js "Transcribing audio")).
Proof.
  split.
  - destruct (updateProgress_own_entry 1700090000000 1700000000000 40
                (js "Transcribing audio") None ∅ ltac:(lia)) as (_ & H & _).
    exact H.
  - destruct (updateProgress_own_entry 1700080000000 1700000000000 40
                (js "Transcribing audio") None ∅ ltac:(lia)) as (_ & H & _).
    exact H.
Defined.

End IdentifierRoundTrip.

(** ** The path guard of the download route *)

Module DownloadGuard.

Import Path Download DownloadProofs.

Local Open Scope N_scope.

(** *** The pieces of a split hold no separator *)

Lemma split_on_pieces (c : N) (s : jsstring) : forall cur,
  Forall (fun x => x <> c) cur ->
  Forall (fun piece => Forall (fun x => x <> c) piece) (split_on c cur s).
Proof.
  induction s as [|x t IH]; intros cur Hcur; cbn [split_on].
  - constructor; [|constructor]. apply Forall_rev. exact Hcur.
  - destruct (x =? c) eqn:E.
    + constructor; [apply Forall_rev; exact Hcur|]. apply IH. constructor.
    + apply IH. constructor; [|exact Hcur]. apply N.eqb_neq in E. exact E.
Qed.








(** *** Normalization of a path below a fixed directory *)










End DownloadGuard.

(** ** Runs of a character class under the matcher *)

Module MatcherRuns.

Lemma lookup_middle (a b : list N) (x : N) : (a ++ x :: b) !! length a = Some x.
Proof. rewrite lookup_app_r by lia. rewrite Nat.sub_diag. reflexivity. Qed.

(** a literal run of characters matches where the text holds it *)
Lemma m_lits (A : Type) (l : jsstring) : forall (a b : jsstring) c (k : nat -> caps -> option A),
  m (a ++ l ++ b) (lits_of l) (length a) c k = k (length a + length l) c.
Proof.
  induction l as [|x t IH]; intros a b c k.
  - cbn [lits_of m length]. rewrite Nat.add_0_r. reflexivity.
  - destruct t as [|y t'].
    + cbn [lits_of lit m]. unfold jsstring in *. cbn [app]. rewrite lookup_middle.
      rewrite N.eqb_refl. cbn [length]. f_equal. lia.
    + change (lits_of (x :: y :: t')) with (Seq (lit x) (lits_of (y :: t'))).
      cbn [m lit]. unfold jsstring in *.
      change ((x :: y :: t') ++ b) with (x :: (y :: t') ++ b).
      rewrite lookup_middle. rewrite N.eqb_refl.
      specialize (IH (a ++ [x]) b c k).
      rewrite <- app_assoc in IH. cbn [app] in IH. rewrite length_app in IH. cbn [length] in IH.
      replace (S (length a)) with (length a + 1) by lia. cbn [app]. rewrite IH.
      f_equal. cbn [length]. lia.
Qed.

Lemma star_loop_greedy (A : Type) body (k : nat -> caps -> option A) fuel i c :
  star_loop body true k (S fuel) i c =
    match body i c (fun j c' => if Nat.eqb j i then None else star_loop body true k fuel j c') with
    | Some x => Some x
    | None => k i c
    end.
Proof. reflexivity. Qed.

Lemma m_seq (A : Type) s r1 r2 i c (k : nat -> caps -> option A) :
  m s (Seq r1 r2) i c k = m s r1 i c (fun j c' => m s r2 j c' k).
Proof. reflexivity. Qed.

(** a greedy quantifier on a class takes a whole run of the class when
    the rest of the pattern matches after it *)
Lemma star_run (A : Type) (s : jsstring) (p : N -> bool) (k : nat -> caps -> option A) r c :
  forall n fuel i,
    (forall x, x < n -> exists ch, s !! (i + x) = Some ch /\ p ch = true) ->
    match s !! (i + n) with Some ch => p ch = false | None => True end ->
    n <= fuel ->
    k (i + n) c = Some r ->
    star_loop (fun i c k => m s (Chr p) i (clear (groups (Chr p)) c) k) true k fuel i c = Some r.
Proof.
  set (body := fun i c (k : nat -> caps -> option A) => m s (Chr p) i (clear (groups (Chr p)) c) k).
  induction n as [|n IH]; intros fuel i Hrun Hstop Hfuel Hk.
  - rewrite Nat.add_0_r in Hk, Hstop. destruct fuel as [|fuel]; [exact Hk|].
    rewrite star_loop_greedy.
    assert (Hbody : forall k', body i c k' = None).
    { intros k'. unfold body. cbn [m]. destruct (s !! i) as [ch|]; [|reflexivity].
      rewrite Hstop. reflexivity. }
    rewrite Hbody. exact Hk.
  - destruct fuel as [|fuel]; [lia|].
    rewrite star_loop_greedy.
    destruct (Hrun 0 ltac:(lia)) as (ch & E & Ep). rewrite Nat.add_0_r in E.
    assert (Hbody : forall k', body i c k' = k' (S i) c).
    { intros k'. unfold body. cbn [m]. rewrite E, Ep. reflexivity. }
    rewrite Hbody.
    assert (Hne : Nat.eqb (S i) i = false) by (apply Nat.eqb_neq; lia).
    rewrite Hne.
    rewrite (IH fuel (S i)); [reflexivity| | |lia|].
    + intros x Hx. destruct (Hrun (S x) ltac:(lia)) as (ch' & E' & Ep').
      exists ch'. replace (S i + x) with (i + S x) by lia. auto.
    + replace (S i + n) with (i + S n) by lia. exact Hstop.
    + replace (S i + n) with (i + S n) by lia. exact Hk.
Qed.

(** one or more characters of a class, as a capturing group, at the start
    of a run of the class *)
Lemma m_group_plus_run (A : Type) (a run b : jsstring) (p : N -> bool) (g : nat)
  (k : nat -> caps -> option A) r c :
  run <> [] ->
  Forall (fun ch => p ch = true) run ->
  match b with ch :: _ => p ch = false | [] => True end ->
  k (length a + length run) (set_cap g (length a, length a + length run) c) = Some r ->
  m (a ++ run ++ b) (Group g (Plus (Chr p))) (length a) c k = Some r.
Proof.
  intros Hne Hrun Hstop Hk. destruct run as [|x run]; [contradiction|].
  inversion Hrun as [|? ? Hx Hrest]; subst.
  unfold Plus. cbn [m]. unfold jsstring in *. cbn [app]. rewrite lookup_middle, Hx.
  apply (star_run _ _ _ _ _ _ (length run)); unfold jsstring in *.
  - intros i Hi. rewrite Forall_lookup in Hrest.
    destruct (lookup_lt_is_Some_2 run i Hi) as (ch & E).
    exists ch. split; [|exact (Hrest _ _ E)].
    replace (a ++ x :: run ++ b) with ((a ++ [x]) ++ run ++ b)
      by (rewrite <- app_assoc; reflexivity).
    rewrite lookup_app_r by (rewrite length_app; simpl; lia).
    rewrite length_app. cbn [length].
    replace (S (length a) + i - (length a + 1)) with i by lia.
    rewrite lookup_app_l by exact Hi. exact E.
  - replace (a ++ x :: run ++ b) with ((a ++ x :: run) ++ b)
      by (rewrite <- app_assoc; reflexivity).
    rewrite lookup_app_r by (rewrite length_app; simpl; lia).
    rewrite length_app. cbn [length].
    replace (S (length a) + length run - (length a + S (length run))) with 0 by lia.
    destruct b; [exact I|exact Hstop].
  - rewrite ?length_app. cbn [length]. rewrite ?length_app. lia.
  - cbn [length] in Hk.
    replace (S (length a) + length run) with (length a + S (length run)) by lia. exact Hk.
Qed.

End MatcherRuns.

Module ProgressLines.

Import LocalTranslate LocalTranslateProofs MatcherRuns IdentifierRoundTrip.

Local Open Scope Z_scope.

(** the digits of a clock reading or of a percentage, read in base ten *)
Lemma digits_value_dec (v : Z) :
  0 <= v ->
  Forall (fun ch => is_digit ch = true) (dec v) /\
  Transcribe.digits_value 10 None (dec v) = Some v.
Proof.
  intros Hv. pose proof (parseInt_dec v) as Hp. unfold dec in *.
  assert (E : (v <? 0) = false) by (apply Z.ltb_ge; exact Hv). rewrite E in *.
  destruct (numeral_digits (N.to_uint (Z.to_N v))) as [Hd Hne].
  split; [exact Hd|].
  destruct (parseInt_digits _ Hne Hd) as [Hq _]. rewrite Hq in Hp.
  destruct Hd as [|c t Hc Ht]; [contradiction|].
  rewrite <- Hp. cbn [Transcribe.digits_value].
  apply is_digit_cases in Hc.
  destruct Hc as [->|[->|[->|[->|[->|[->|[->|[->|[->| ->]]]]]]]]]; reflexivity.
Qed.

Lemma search_here s r n j c : match_at s r 0 = Some (j, c) -> search s r n 0 = Some (0%nat, j, c).
Proof. intros H. destruct n; cbn [search]; rewrite H; reflexivity. Qed.

(** the percentage of a progress line is read by the pattern *)
Lemma progress_line_capture (ds rest : jsstring) :
  ds <> [] ->
  Forall (fun ch => is_digit ch = true) ds ->
  Resolver.capture progress_line 1 (js "Translation progress: " ++ ds ++ js "%" ++ rest)
    = Some ds.
Proof.
  intros Hne Hd.
  set (pre := js "Translation progress: ").
  set (line := pre ++ ds ++ js "%" ++ rest).
  assert (Hm : match_at line progress_line 0
               = Some (S (length pre + length ds),
                       set_cap 1 (length pre, (length pre + length ds)%nat) no_caps)).
  { unfold match_at, progress_line. cbn [seqs]. rewrite m_seq.
    pose proof (m_lits (nat * caps) pre [] (ds ++ js "%" ++ rest) no_caps) as Hl.
    cbn [app length] in Hl. unfold lits. fold pre. subst line. rewrite Hl. cbn [Nat.add].
    rewrite m_seq.
    apply m_group_plus_run; [exact Hne|exact Hd|reflexivity|].
    change (lits_of (js "%")) with (lit 37). cbn [m lit].
    change (pre ++ ds ++ js "%" ++ rest) with (pre ++ ds ++ 37%N :: rest).
    rewrite app_assoc. unfold jsstring in *.
    rewrite <- length_app. rewrite lookup_middle. reflexivity. }
  unfold Resolver.capture, exec. rewrite (search_here _ _ _ _ _ Hm).
  unfold group, set_cap. cbn [Nat.eqb]. f_equal.
  unfold substring, line.
  rewrite drop_app_length.
  replace (length pre + length ds - length pre)%nat with (length ds) by lia.
  apply take_app_length.
Qed.

Section Handlers.

Variable JSON_parse : jsstring -> option pyresult.

(** X23. The progress that the script reports on its error stream is the
    progress that a query returns: after a line that starts with the words
    Translation progress, a colon, a space, the decimal digits of a number
    and a percent sign, the entry of the request holds that number, whatever
    its size, and a progress query for the request answers 200 with it. The
    identifier of the request is any text but the empty one, which the
    query refuses, and the name [__proto__], under which an assignment
    writes no entry. *)
Theorem stderr_progress_is_reported (requestId rest : jsstring) (v : Z) (n : node) :
  0 <= v < 2 ^ 53 ->
  requestId <> [] ->
  requestId <> js "__proto__" ->
  let n' :=
    on_event JSON_parse requestId
      (Stderr (js "Translation progress: " ++ dec v ++ js "%" ++ rest)) n in
  translationProgress n' = <[requestId := v]> (translationProgress n) /\
  translationProgress n' !! requestId = Some v /\
  GET (Some requestId) n' = (200%nat, Some (Val v)).
Proof.
  intros [Hv _] Hrid Hproto n'.
  destruct (digits_value_dec v Hv) as [Hd Hval].
  pose proof (TranscribeFacts.dec_nonempty v) as Hne.
  assert (E : n' = set_entry requestId v n).
  { subst n'. cbn [on_event]. rewrite (progress_line_capture (dec v) rest Hne Hd).
    destruct (dec v) as [|c ds] eqn:Edec; [contradiction|]. rewrite Hval. reflexivity. }
  assert (Hm : translationProgress n' = <[requestId := v]> (translationProgress n)).
  { rewrite E. apply set_entry_progress. exact Hproto. }
  split; [exact Hm|]. split; [rewrite Hm; apply lookup_insert_eq|].
  unfold GET. rewrite Hm.
  destruct requestId as [|c t]; [contradiction|].
  cbn [Transcribe.truthy]. rewrite lookup_insert_eq. reflexivity.
Qed.

End Handlers.

Lemma stderr_progress_is_reported_witness :
  GET (Some (js "42"))
      (on_event parse_nothing (js "42")
         (Stderr (js "Translation progress: " ++ dec 250 ++ js "%" ++ js " done")) idle)
    = (200%nat, Some (Val 250)).
Proof.
  apply (stderr_progress_is_reported parse_nothing (js "42") (js " done") 250 idle).
  - lia.
  - discriminate.
  - discriminate.
Defined.

End ProgressLines.

(** ** Cleaning of a transcript *)

Module TranscriptProofs.

Import Transcript.

(** *** The similarity of two paragraphs *)

Lemma filter_length_le {X : Type} (f : X -> bool) (l : list X) :
  length (List.filter f l) <= length l.
Proof. induction l as [|x l IH]; simpl; [lia|]. destruct (f x); simpl; lia. Qed.

Lemma filter_all {X : Type} (f : X -> bool) (l : list X) :
  length (List.filter f l) = length l -> forall x, In x l -> f x = true.
Proof.
  induction l as [|y l IH]; simpl; intros H x Hx; [contradiction|].
  pose proof (filter_length_le f l) as Hle.
  destruct (f y) eqn:E; simpl in H; [|lia].
  destruct Hx as [->|Hx]; [exact E|]. apply IH; [lia|exact Hx].
Qed.

Lemma matches_bound (shorter longer : jsstring) :
  length shorter <= length longer ->
  shorter <> longer ->
  length (List.filter (fun i => bool_decide (shorter !! i = longer !! i))
            (seq 0 (length shorter))) < length longer.
Proof.
  intros Hle Hne.
  pose proof (filter_length_le (fun i => bool_decide (shorter !! i = longer !! i))
                (seq 0 (length shorter))) as Hf.
  rewrite length_seq in Hf.
  destruct (decide (length shorter = length longer)) as [Heq|]; [|lia].
  destruct (decide (length (List.filter (fun i => bool_decide (shorter !! i = longer !! i))
                              (seq 0 (length shorter))) = length shorter)) as [Hall|]; [|lia].
  exfalso. apply Hne. apply list_eq. intros i.
  destruct (decide (i < length shorter)) as [Hi|Hi].
  - assert (Hall' : length (List.filter (fun i => bool_decide (shorter !! i = longer !! i))
                              (seq 0 (length shorter))) = length (seq 0 (length shorter)))
      by (rewrite length_seq; exact Hall).
    pose proof (filter_all _ _ Hall' i) as H. cbv beta in H.
    specialize (H ltac:(apply in_seq; lia)).
    apply bool_decide_eq_true in H. exact H.
  - rewrite !lookup_ge_None_2 by lia. reflexivity.
Qed.

Definition agreeing (shorter longer : jsstring) : nat :=
  length (List.filter (fun i => bool_decide (shorter !! i = longer !! i))
            (seq 0 (length shorter))).

Lemma calculateSimilarity_differing (a b : jsstring) :
  a <> [] -> b <> [] -> a <> b ->
  calculateSimilarity a b =
    if length b <? length a
    then {| matches := agreeing b a; out_of := length a |}
    else {| matches := agreeing a b; out_of := length b |}.
Proof.
  intros Ha Hb Hne. destruct a as [|x a]; [contradiction|]. destruct b as [|y b]; [contradiction|].
  unfold calculateSimilarity. rewrite decide_False by exact Hne. cbv zeta.
  destruct (length (y :: b) <? length (x :: a)); reflexivity.
Qed.

Lemma agreeing_sym (a b : jsstring) : length a = length b -> agreeing a b = agreeing b a.
Proof.
  intros Hl. unfold agreeing. rewrite Hl. f_equal. apply List.filter_ext. intros i.
  apply bool_decide_ext. split; intros; congruence.
Qed.

(** X18. The similarity of two paragraphs does not depend on their order; it
    lies between 0 and 1; it is 0 when one of them is empty, 1 when they are
    equal and not empty, and below 1 in every other case. *)
Theorem calculateSimilarity_properties (a b : jsstring) :
  calculateSimilarity a b = calculateSimilarity b a /\
  matches (calculateSimilarity a b) <= out_of (calculateSimilarity a b) /\
  0 < out_of (calculateSimilarity a b) /\
  (matches (calculateSimilarity a b) = out_of (calculateSimilarity a b)
     <-> a = b /\ a <> []) /\
  (a = [] \/ b = [] -> matches (calculateSimilarity a b) = 0).
Proof.
  destruct (decide (a = [])) as [->|Ha].
  { destruct b; cbn; repeat split; intros; try discriminate; try tauto; try lia;
      match goal with H : _ /\ _ |- _ => destruct H; congruence end. }
  destruct (decide (b = [])) as [->|Hb].
  { destruct a; [contradiction|].
    cbn. repeat split; intros; try discriminate; try tauto; try lia. }
  destruct (decide (a = b)) as [->|Hne].
  { destruct b as [|y b]; [contradiction|]. unfold calculateSimilarity.
    rewrite decide_True by reflexivity. cbn [matches out_of].
    repeat split; intros; try lia; try discriminate. destruct H; contradiction. }
  rewrite (calculateSimilarity_differing a b Ha Hb Hne).
  rewrite (calculateSimilarity_differing b a Hb Ha) by congruence.
  pose proof (matches_bound a b) as Hab. pose proof (matches_bound b a) as Hba.
  fold (agreeing a b) in Hab. fold (agreeing b a) in Hba.
  destruct (Nat.ltb_spec (length b) (length a)) as [E1|E1];
    destruct (Nat.ltb_spec (length a) (length b)) as [E2|E2]; try lia; cbn [matches out_of].
  - specialize (Hba ltac:(lia) ltac:(congruence)).
    repeat split; try lia; try tauto.
  - specialize (Hab ltac:(lia) ltac:(congruence)).
    repeat split; try lia; try tauto.
  - specialize (Hab ltac:(lia) ltac:(congruence)).
    repeat split; try lia; try tauto.
    rewrite (agreeing_sym a b) by lia. f_equal. lia.
Qed.

(** *** Trimming *)

Import Transcribe.

Lemma skip_space_spec (s : jsstring) :
  (exists pre, s = pre ++ skip_space s) /\
  match skip_space s with
  | c :: _ => is_space c = false
  | [] => True
  end.
Proof.
  induction s as [|c t [(pre & IH1) IH2]]; cbn [skip_space].
  - split; [exists []; reflexivity|exact I].
  - destruct (is_space c) eqn:E.
    + split; [|exact IH2]. exists (c :: pre). cbn [app]. f_equal. exact IH1.
    + split; [exists []; reflexivity|exact E].
Qed.

Lemma skip_space_fixed (s : jsstring) :
  match s with c :: _ => is_space c = false | [] => True end -> skip_space s = s.
Proof. destruct s as [|c t]; [reflexivity|]. cbn [skip_space]. intros ->. reflexivity. Qed.

(** a trimmed text starts and ends with a character that is not white
    space, and is a part of the text *)
Lemma trim_spec (s : jsstring) :
  (exists pre post, s = pre ++ trim s ++ post) /\
  match trim s with c :: _ => is_space c = false | [] => True end /\
  match rev (trim s) with c :: _ => is_space c = false | [] => True end.
Proof.
  unfold trim.
  destruct (skip_space_spec s) as [(pre & H1) H2].
  set (t := skip_space s) in *.
  destruct (skip_space_spec (rev t)) as [(post & H3) H4].
  set (u := skip_space (rev t)) in *.
  assert (Ht : t = rev u ++ rev post).
  { rewrite <- rev_app_distr, <- H3, rev_involutive. reflexivity. }
  split; [|split].
  - exists pre, (rev post). rewrite <- Ht. exact H1.
  - destruct (rev u) as [|c r] eqn:E; [exact I|].
    rewrite Ht in H2. exact H2.
  - rewrite rev_involutive. exact H4.
Qed.

Lemma trim_trim (s : jsstring) : trim (trim s) = trim s.
Proof.
  destruct (trim_spec s) as (_ & H1 & H2).
  set (w := trim s) in *. unfold trim at 1.
  rewrite (skip_space_fixed w H1), (skip_space_fixed (rev w) H2).
  apply rev_involutive.
Qed.

(** *** The paragraphs that are kept *)

(** what every line that enters the loop satisfies *)
Definition line_ok (p : jsstring) : Prop := Forall (fun ch => ch <> 10%N) p /\ trim p = p.

Definition distinct_neighbours (ps : list jsstring) : Prop :=
  forall i p q, ps !! i = Some p -> ps !! S i = Some q ->
                above_0_7 (calculateSimilarity p q) = false.

Definition loop_invariant (st : list jsstring * jsstring) : Prop :=
  snd st = default [] (last (fst st)) /\
  Forall (fun p => 3 <= length p /\ line_ok p) (fst st) /\
  distinct_neighbours (fst st).

Lemma keep_paragraph_invariant st paragraph :
  line_ok paragraph -> loop_invariant st -> loop_invariant (keep_paragraph st paragraph).
Proof.
  intros Hl. destruct st as [ps prev]. unfold loop_invariant, keep_paragraph.
  cbn [fst snd]. intros (Hprev & Hall & Hd).
  destruct (Nat.ltb_spec (length paragraph) 3) as [E|E]; cbn [fst snd]; [auto|].
  destruct (above_0_7 (calculateSimilarity prev paragraph)) eqn:Es; cbn [fst snd]; [auto|].
  split; [rewrite last_snoc; reflexivity|]. split.
  - apply Forall_app. split; [exact Hall|]. constructor; [auto|constructor].
  - intros i p q Hp Hq.
    destruct (decide (S i < length ps)) as [Hi|Hi].
    + rewrite lookup_app_l in Hp by lia. rewrite lookup_app_l in Hq by lia. eauto.
    + pose proof (lookup_lt_Some _ _ _ Hq) as Hlt. rewrite length_app in Hlt. cbn in Hlt.
      assert (Hi' : S i = length ps) by lia.
      rewrite lookup_app_l in Hp by lia.
      rewrite lookup_app_r in Hq by lia.
      replace (S i - length ps) with 0 in Hq by lia. cbn in Hq. inversion Hq; subst q.
      assert (Hlast : last ps = Some p).
      { rewrite last_lookup. rewrite <- Hi'. cbn [pred]. exact Hp. }
      rewrite Hlast in Hprev. cbn in Hprev. subst prev. exact Es.
Qed.

Lemma paragraphs_of_ok (cleaned : jsstring) : Forall line_ok (paragraphs_of cleaned).
Proof.
  unfold paragraphs_of. apply Forall_forall. intros p Hp.
  apply list_elem_of_In, List.filter_In in Hp as [Hp _].
  apply in_map_iff in Hp as (piece & <- & Hpiece). apply list_elem_of_In in Hpiece.
  split; [|apply trim_trim].
  pose proof (DownloadGuard.split_on_pieces 10 cleaned [] ltac:(constructor)) as H.
  rewrite Forall_forall in H. specialize (H _ Hpiece).
  destruct (trim_spec piece) as ((pre & post & E) & _).
  rewrite E in H. apply Forall_app in H as [_ H]. apply Forall_app in H as [H _]. exact H.
Qed.

(** X19. A cleaned transcript is a list of paragraphs joined by empty lines.
    Every paragraph has at least three characters, holds no line feed, and
    neither starts nor ends with white space; no paragraph is more than 0.7
    similar to the one before it, so no paragraph repeats the one before it.
    A missing or empty transcript is cleaned to the empty text. *)
Theorem cleanTranscript_paragraphs (transcript : option jsstring) :
  exists ps,
    cleanTranscript transcript = join [10; 10]%N ps /\
    Forall (fun p => 3 <= length p /\ Forall (fun ch => ch <> 10%N) p /\ trim p = p) ps /\
    (forall i p q, ps !! i = Some p -> ps !! S i = Some q ->
                   above_0_7 (calculateSimilarity p q) = false /\ p <> q) /\
    (falsy transcript = true -> ps = []).
Proof.
  destruct transcript as [[|c t]|].
  1, 3: exists []; split; [reflexivity|]; split; [apply Forall_nil_2|];
    split; [intros i p q H; discriminate|reflexivity].
  unfold cleanTranscript. cbv zeta.
  set (paragraphs := paragraphs_of (strip_markup (c :: t))).
  assert (Hinv : loop_invariant (fold_left keep_paragraph paragraphs ([], []))).
  { assert (Hgen : forall l st, Forall line_ok l -> loop_invariant st ->
                                loop_invariant (fold_left keep_paragraph l st)).
    { induction l as [|p l IH]; intros st Hl Hst; cbn [fold_left]; [exact Hst|].
      inversion Hl; subst. apply IH; [assumption|]. apply keep_paragraph_invariant; assumption. }
    apply Hgen; [apply paragraphs_of_ok|].
    split; [reflexivity|]. split; [constructor|]. intros i p q H. discriminate. }
  destruct Hinv as (_ & Hall & Hd).
  exists (fst (fold_left keep_paragraph paragraphs ([], []))).
  split; [reflexivity|]. split; [|split].
  - eapply Forall_impl; [exact Hall|]. intros p (H3 & H10 & Htrim). auto.
  - intros i p q Hp Hq. pose proof (Hd i p q Hp Hq) as Hs. split; [exact Hs|].
    intros ->. rewrite Forall_lookup in Hall. destruct (Hall _ _ Hq) as [H3 _].
    destruct q as [|y q]; [simpl in H3; lia|].
    unfold calculateSimilarity in Hs. rewrite decide_True in Hs by reflexivity.
    vm_compute in Hs. discriminate.
  - discriminate.
Qed.

End TranscriptProofs.

(** ** Markup in a cleaned transcript *)

Module MarkupProofs.

Import Transcript TranscriptProofs MatcherRuns.

(** *** The scan of a global replacement *)

Section Scan.

Variable at_position : nat -> option nat.

Lemma find_sound : forall n i a e,
  find at_position n i = Some (a, e) ->
  i <= a <= i + n /\ at_position a = Some e /\
  forall x, i <= x < a -> at_position x = None.
Proof.
  induction n as [|n IH]; intros i a e H; cbn [find] in H;
    destruct (at_position i) as [e0|] eqn:E; try discriminate.
  - inversion H; subst. split; [lia|]. split; [exact E|]. intros x Hx. lia.
  - inversion H; subst. split; [lia|]. split; [exact E|]. intros x Hx. lia.
  - apply IH in H as (Hr & Ha & Hn). split; [lia|]. split; [exact Ha|].
    intros x Hx. destruct (decide (x = i)) as [->|Hne]; [exact E|]. apply Hn. lia.
Qed.

Lemma find_none : forall n i,
  find at_position n i = None -> forall x, i <= x <= i + n -> at_position x = None.
Proof.
  induction n as [|n IH]; intros i H x Hx; cbn [find] in H;
    destruct (at_position i) as [e0|] eqn:E; try discriminate.
  - replace x with i by lia. exact E.
  - destruct (decide (x = i)) as [->|Hne]; [exact E|]. apply (IH (S i) H). lia.
Qed.

End Scan.

(** *** Angle brackets *)

Definition opens (c : N) : bool := N.eqb c 60.
Definition closes (c : N) : bool := N.eqb c 62.

(** an opening bracket followed, anywhere later, by a closing one *)
Fixpoint has_tag (s : jsstring) : bool :=
  match s with
  | [] => false
  | c :: t => (opens c && existsb closes t) || has_tag t
  end.

Definition brackets (s : jsstring) : jsstring :=
  List.filter (fun c => opens c || closes c) s.

Lemma has_tag_app (a b : jsstring) :
  has_tag (a ++ b) = has_tag a || (existsb opens a && existsb closes b) || has_tag b.
Proof.
  induction a as [|c a IH]; cbn [app has_tag existsb]; [reflexivity|].
  rewrite IH, existsb_app. destruct (opens c), (existsb closes a), (has_tag a),
    (existsb opens a), (existsb closes b), (has_tag b); reflexivity.
Qed.

Lemma has_tag_opens (s : jsstring) : existsb opens s = false -> has_tag s = false.
Proof.
  induction s as [|c s IH]; cbn [has_tag existsb]; [reflexivity|].
  intros H. apply orb_false_iff in H as [-> H]. rewrite (IH H). reflexivity.
Qed.

Lemma existsb_brackets (f : N -> bool) (s : jsstring) :
  (forall c, f c = true -> opens c || closes c = true) ->
  existsb f (brackets s) = existsb f s.
Proof.
  intros Hf. induction s as [|c s IH]; cbn [brackets List.filter existsb]; [reflexivity|].
  fold (brackets s). destruct (opens c || closes c) eqn:E.
  - cbn [existsb]. rewrite IH. reflexivity.
  - rewrite IH. destruct (f c) eqn:Ec; [|reflexivity]. apply Hf in Ec. congruence.
Qed.

Lemma has_tag_brackets (s : jsstring) : has_tag (brackets s) = has_tag s.
Proof.
  induction s as [|c s IH]; cbn [brackets List.filter has_tag]; [reflexivity|].
  fold (brackets s). destruct (opens c || closes c) eqn:E.
  - cbn [has_tag]. rewrite IH, existsb_brackets; [reflexivity|].
    intros x Hx. rewrite Hx. apply orb_true_r.
  - apply orb_false_iff in E as [-> _]. rewrite IH. reflexivity.
Qed.

Lemma existsb_sublist (f : N -> bool) (a b : jsstring) :
  a `sublist_of` b -> existsb f a = true -> existsb f b = true.
Proof.
  induction 1 as [|x a b _ IH|x a b _ IH]; cbn [existsb]; intros H; [exact H| |].
  - apply orb_true_iff in H as [H|H]; [rewrite H; reflexivity|].
    rewrite (IH H). apply orb_true_r.
  - rewrite (IH H). apply orb_true_r.
Qed.

Lemma has_tag_sublist (a b : jsstring) :
  a `sublist_of` b -> has_tag a = true -> has_tag b = true.
Proof.
  induction 1 as [|x a b Hs IH|x a b _ IH]; cbn [has_tag]; intros H; [exact H| |].
  - apply orb_true_iff in H as [H|H].
    + apply andb_true_iff in H as [-> H]. rewrite (existsb_sublist _ _ _ Hs H). reflexivity.
    + rewrite (IH H). apply orb_true_r.
  - rewrite (IH H). apply orb_true_r.
Qed.

(** a text whose brackets are among those of a text without a tag, in the
    same order, has no tag *)
Lemma tagless_brackets (out s : jsstring) :
  brackets out `sublist_of` brackets s -> has_tag s = false -> has_tag out = false.
Proof.
  intros Hs Hno. destruct (has_tag out) eqn:E; [|reflexivity].
  rewrite <- has_tag_brackets in E. apply (has_tag_sublist _ _ Hs) in E.
  rewrite has_tag_brackets in E. congruence.
Qed.

Lemma brackets_app (a b : jsstring) : brackets (a ++ b) = brackets a ++ brackets b.
Proof. apply List.filter_app. Qed.

(** *** A replacement only removes brackets *)

Section Removal.

Variable at_position : nat -> option nat.
Variable s replacement : jsstring.
Hypothesis at_range : forall i e, i <= length s -> at_position i = Some e -> i <= e <= length s.
Hypothesis no_brackets : brackets replacement = [].

Lemma drop_substring (p a : nat) :
  p <= a <= length s -> drop p s = substring p a s ++ drop a s.
Proof.
  intros H. pose proof (ChunkerProofs.substring_split s p a a ltac:(lia) ltac:(lia)) as E.
  rewrite E. unfold substring at 2. rewrite Nat.sub_diag. reflexivity.
Qed.

Lemma replace_loop_brackets : forall fuel i p,
  p <= i ->
  brackets (replace_loop at_position s replacement fuel i p) `sublist_of` brackets (drop p s).
Proof.
  induction fuel as [|fuel IH]; intros i p Hp; cbn [replace_loop]; [reflexivity|].
  destruct (Nat.ltb_spec (length s) i) as [Hi|Hi]; [reflexivity|].
  destruct (find at_position (length s - i) i) as [[a e]|] eqn:Ef; [|reflexivity].
  apply find_sound in Ef as (Ha & Hat & _).
  pose proof (at_range a e ltac:(lia) Hat) as He.
  rewrite (drop_substring p a) by lia. rewrite (drop_substring a e) by lia.
  rewrite !brackets_app, no_brackets. cbn [app].
  apply sublist_app; [reflexivity|]. apply sublist_inserts_l.
  apply IH. destruct (e =? a); lia.
Qed.

Lemma replace_with_tagless :
  has_tag s = false -> has_tag (replace_with at_position s replacement) = false.
Proof.
  intros H. apply (tagless_brackets _ s); [|exact H].
  unfold replace_with.
  pose proof (replace_loop_brackets (length s + 1) 0 0 ltac:(lia)) as Hs.
  rewrite drop_0 in Hs. exact Hs.
Qed.

End Removal.

Lemma plain_range (r : regex) (s : jsstring) i e :
  i <= length s -> plain r s i = Some e -> i <= e <= length s.
Proof.
  unfold plain. intros Hi H.
  destruct (match_at s r i) as [[e0 c]|] eqn:E; [|discriminate]. inversion H; subst.
  exact (Adequacy.match_at_range r s i e c Hi E).
Qed.

Lemma replaceAll_tagless (r : regex) (replacement s : jsstring) :
  brackets replacement = [] -> has_tag s = false -> has_tag (replaceAll r replacement s) = false.
Proof.
  intros Hr Hs. apply replace_with_tagless; [|exact Hr|exact Hs].
  intros i e. apply plain_range.
Qed.

(** *** The pattern of a tag *)

Lemma m_chr (A : Type) s p i c (k : nat -> caps -> option A) :
  m s (Chr p) i c k =
    match s !! i with
    | Some ch => if p ch then k (S i) c else None
    | None => None
    end.
Proof. reflexivity. Qed.

Lemma m_star_run (A : Type) (s a run b : jsstring) (p : N -> bool)
  (k : nat -> caps -> option A) r c :
  s = a ++ run ++ b ->
  Forall (fun ch => p ch = true) run ->
  match b with ch :: _ => p ch = false | [] => True end ->
  k (length a + length run) c = Some r ->
  m s (Star true (Chr p)) (length a) c k = Some r.
Proof.
  intros -> Hrun Hstop Hk. cbn [m].
  apply (star_run _ _ _ _ _ _ (length run)); unfold jsstring in *.
  - intros i Hi. rewrite Forall_lookup in Hrun.
    destruct (lookup_lt_is_Some_2 run i Hi) as (ch & E).
    exists ch. split; [|exact (Hrun _ _ E)].
    rewrite lookup_app_r by lia.
    replace (length a + i - length a) with i by lia.
    rewrite lookup_app_l by exact Hi. exact E.
  - rewrite app_assoc. rewrite lookup_app_r by (rewrite length_app; lia).
    rewrite length_app. replace (length a + length run - (length a + length run)) with 0 by lia.
    destruct b; [exact I|exact Hstop].
  - rewrite !length_app. lia.
  - exact Hk.
Qed.

Lemma lookup_at (s front : list N) (x : N) (rest : list N) :
  s = front ++ x :: rest -> s !! length front = Some x.
Proof. intros ->. apply lookup_middle. Qed.

Lemma tag_pattern : tag = Seq (lit 60) (Seq (Star true (Chr (noneof ">"))) (lit 62)).
Proof. reflexivity. Qed.

Lemma tag_sound (s : jsstring) a e :
  plain tag s a = Some e ->
  s !! a = Some 60%N /\ a + 2 <= e <= length s /\ s !! (e - 1) = Some 62%N.
Proof.
  unfold plain. destruct (match_at s tag a) as [[e0 c]|] eqn:E; [|discriminate].
  intros H. inversion H; subst e0. clear H.
  unfold match_at in E. apply m_sound in E as (j & c' & Hs & Hk).
  inversion Hk; subst j c'. clear Hk. rewrite tag_pattern in Hs.
  apply IdentifierShape.sem_seq_inv in Hs as (k1 & c1 & H1 & Hs).
  apply IdentifierShape.sem_seq_inv in Hs as (k2 & c2 & H2 & H3).
  destruct H1 as (ch & E1 & Ep1 & -> & ->).
  apply N.eqb_eq in Ep1. subst ch.
  pose proof (lookup_lt_Some _ _ _ E1) as Hlt.
  apply IdentifierShape.sem_star_class in H2 as (-> & Hr & _); [|lia].
  destruct H3 as (ch & E3 & Ep3 & -> & _).
  apply N.eqb_eq in Ep3. subst ch.
  pose proof (lookup_lt_Some _ _ _ E3) as Hlt3.
  split; [exact E1|]. split; [lia|].
  replace (S k2 - 1) with k2 by lia. exact E3.
Qed.

Lemma tag_complete (s : jsstring) a j :
  s !! a = Some 60%N -> a < j -> s !! j = Some 62%N -> exists e, plain tag s a = Some e.
Proof.
  intros Ha Hj Hc.
  pose proof (lookup_lt_Some _ _ _ Ha) as Hlt.
  assert (Hs : s = take a s ++ 60%N :: drop (S a) s).
  { rewrite <- (take_drop a s) at 1. f_equal. apply drop_S. exact Ha. }
  assert (Hin : 62%N ∈ drop (S a) s).
  { apply list_elem_of_lookup. exists (j - S a). rewrite lookup_drop.
    replace (S a + (j - S a)) with j by lia. exact Hc. }
  apply list_elem_of_split_l in Hin as (mid & post & Hrest & Hmid).
  rewrite Hrest in Hs.
  assert (Hla : length (take a s ++ [60%N]) = S a).
  { rewrite length_app, length_take. cbn [length]. lia. }
  assert (Hs' : s = (take a s ++ [60%N]) ++ mid ++ 62%N :: post).
  { rewrite <- app_assoc. exact Hs. }
  assert (Hm : match_at s tag a = Some (S (S a + length mid), no_caps)).
  { unfold match_at. rewrite tag_pattern, m_seq. unfold lit at 1. rewrite m_chr, Ha.
    cbn [N.eqb Pos.eqb]. rewrite m_seq. rewrite <- Hla.
    apply (m_star_run _ s (take a s ++ [60%N]) mid (62%N :: post)); [exact Hs'| | |].
    - apply Forall_forall. intros ch Hch. unfold noneof, oneof.
      apply negb_true_iff. cbn. rewrite orb_false_r. apply N.eqb_neq. intros ->. contradiction.
    - reflexivity.
    - unfold lit. rewrite m_chr. rewrite <- length_app.
      assert (El : s !! length ((take a s ++ [60%N]) ++ mid) = Some 62%N).
      { apply (lookup_at s _ 62%N post). rewrite <- app_assoc. exact Hs'. }
      rewrite El. cbn [N.eqb Pos.eqb]. rewrite length_app. reflexivity. }
  unfold plain. rewrite Hm. eexists. reflexivity.
Qed.

(** *** After the removal of the tags no tag is left *)

Lemma existsb_lookup (f : N -> bool) (l : jsstring) :
  existsb f l = true -> exists y ch, l !! y = Some ch /\ f ch = true.
Proof.
  intros H. apply existsb_exists in H as (ch & Hin & Hf).
  apply list_elem_of_In, list_elem_of_lookup in Hin as (y & Hy). eauto.
Qed.

Lemma has_tag_found (l : jsstring) :
  has_tag l = true ->
  exists x y, x < y /\ l !! x = Some 60%N /\ l !! y = Some 62%N.
Proof.
  induction l as [|c l IH]; cbn [has_tag]; [discriminate|].
  intros H. apply orb_true_iff in H as [H|H].
  - apply andb_true_iff in H as [Hc H]. apply N.eqb_eq in Hc. subst c.
    apply existsb_lookup in H as (y & ch & Hy & Hch). apply N.eqb_eq in Hch. subst ch.
    exists 0, (S y). split; [lia|]. split; [reflexivity|exact Hy].
  - destruct (IH H) as (x & y & Hxy & Hx & Hy).
    exists (S x), (S y). split; [lia|]. split; assumption.
Qed.

Lemma lookup_substring (s : jsstring) (p a x : nat) (c : N) :
  substring p a s !! x = Some c -> s !! (p + x) = Some c /\ p + x < a.
Proof.
  unfold substring, jsstring in *. intros H.
  pose proof (lookup_lt_Some _ _ _ H) as Hlt. rewrite length_take in Hlt.
  rewrite lookup_take_lt in H by lia. rewrite lookup_drop in H. split; [exact H|lia].
Qed.

Lemma strip_tags_loop (s : jsstring) : forall fuel i,
  length s - i < fuel ->
  has_tag (replace_loop (plain tag s) s [] fuel i i) = false.
Proof.
  induction fuel as [|fuel IH]; intros i Hfuel; [lia|]. cbn [replace_loop].
  destruct (Nat.ltb_spec (length s) i) as [Hi|Hi].
  { rewrite drop_ge by lia. reflexivity. }
  destruct (find (plain tag s) (length s - i) i) as [[a e]|] eqn:Ef.
  - apply find_sound in Ef as (Ha & Hat & Hleft).
    destruct (tag_sound s a e Hat) as (Hopen & He & Hclose).
    assert (Hne : (e =? a) = false) by (apply Nat.eqb_neq; lia).
    rewrite Hne. cbn [app].
    rewrite has_tag_app, (IH e) by lia.
    assert (Hno : existsb opens (substring i a s) = false).
    { destruct (existsb opens (substring i a s)) eqn:E; [|reflexivity].
      apply existsb_lookup in E as (x & ch & Hx & Hch). apply N.eqb_eq in Hch. subst ch.
      apply lookup_substring in Hx as [Hx Hlt].
      destruct (tag_complete s (i + x) (e - 1) Hx ltac:(lia) Hclose) as (e' & He').
      rewrite (Hleft (i + x)) in He' by lia. discriminate. }
    rewrite Hno, (has_tag_opens _ Hno). reflexivity.
  - destruct (has_tag (drop i s)) eqn:E; [|reflexivity].
    apply has_tag_found in E as (x & y & Hxy & Hx & Hy).
    unfold jsstring in *. rewrite lookup_drop in Hx, Hy.
    pose proof (lookup_lt_Some _ _ _ Hx) as Hlt.
    destruct (tag_complete s (i + x) (i + y) Hx ltac:(lia) Hy) as (e' & He').
    rewrite (find_none _ _ _ Ef (i + x)) in He' by lia. discriminate.
Qed.

Lemma strip_tags_tagless (s : jsstring) : has_tag (replaceAll tag [] s) = false.
Proof. apply strip_tags_loop. lia. Qed.

(** *** The paragraphs hold the brackets of the text, in order *)

Lemma brackets_join (sep : jsstring) (l : list jsstring) :
  brackets sep = [] -> brackets (join sep l) = concat (map brackets l).
Proof.
  intros Hsep. induction l as [|x l IH]; [reflexivity|].
  destruct l as [|y l].
  - cbn [join map concat]. rewrite app_nil_r. reflexivity.
  - change (join sep (x :: y :: l)) with (x ++ sep ++ join sep (y :: l)).
    rewrite !brackets_app, Hsep, IH. reflexivity.
Qed.

Lemma concat_brackets_sublist (l1 l2 : list jsstring) :
  l1 `sublist_of` l2 -> concat (map brackets l1) `sublist_of` concat (map brackets l2).
Proof.
  induction 1 as [|x l1 l2 _ IH|x l1 l2 _ IH]; cbn [map concat]; [reflexivity| |].
  - apply sublist_app; [reflexivity|exact IH].
  - apply sublist_inserts_l. exact IH.
Qed.

Lemma filter_sublist {X : Type} (f : X -> bool) (l : list X) : List.filter f l `sublist_of` l.
Proof.
  induction l as [|x l IH]; cbn [List.filter]; [reflexivity|].
  destruct (f x); [apply sublist_skip|apply sublist_cons]; exact IH.
Qed.

Lemma kept_sublist (l : list jsstring) : forall st,
  exists k, fst (fold_left keep_paragraph l st) = fst st ++ k /\ k `sublist_of` l.
Proof.
  induction l as [|p l IH]; intros st; cbn [fold_left].
  - exists []. rewrite app_nil_r. split; reflexivity.
  - destruct (IH (keep_paragraph st p)) as (k & Hk & Hs). rewrite Hk.
    destruct st as [ps prev]. unfold keep_paragraph.
    destruct (length p <? 3); [exists k; split; [reflexivity|apply sublist_cons; exact Hs]|].
    destruct (above_0_7 _); [exists k; split; [reflexivity|apply sublist_cons; exact Hs]|].
    exists (p :: k). cbn [fst]. rewrite <- app_assoc. split; [reflexivity|].
    apply sublist_skip. exact Hs.
Qed.

Lemma brackets_trim (x : jsstring) : brackets (trim x) `sublist_of` brackets x.
Proof.
  destruct (trim_spec x) as ((pre & post & E) & _). rewrite E at 2.
  rewrite !brackets_app. apply sublist_inserts_l, sublist_inserts_r. reflexivity.
Qed.

Lemma concat_brackets_trim (l : list jsstring) :
  concat (map brackets (map trim l)) `sublist_of` concat (map brackets l).
Proof.
  induction l as [|x l IH]; cbn [map concat]; [reflexivity|].
  apply sublist_app; [apply brackets_trim|exact IH].
Qed.

Lemma brackets_split (s : jsstring) : forall cur,
  concat (map brackets (Path.split_on 10 cur s)) = brackets (rev cur ++ s).
Proof.
  induction s as [|x t IH]; intros cur; cbn [Path.split_on map concat].
  - rewrite !app_nil_r. reflexivity.
  - destruct (N.eqb_spec x 10) as [->|Hne]; cbn [map concat].
    + rewrite IH. cbn [rev app]. rewrite brackets_app. reflexivity.
    + rewrite IH. cbn [rev]. rewrite <- app_assoc. reflexivity.
Qed.

Lemma paragraphs_brackets (cleaned : jsstring) :
  brackets (join [10; 10]%N
              (fst (fold_left keep_paragraph (paragraphs_of cleaned) ([], []))))
    `sublist_of` brackets cleaned.
Proof.
  rewrite brackets_join by reflexivity.
  destruct (kept_sublist (paragraphs_of cleaned) ([], [])) as (k & -> & Hk). cbn [fst app].
  etransitivity; [apply concat_brackets_sublist; exact Hk|].
  unfold paragraphs_of.
  etransitivity; [apply concat_brackets_sublist, filter_sublist|].
  etransitivity; [apply concat_brackets_trim|].
  unfold Path.split_char. rewrite brackets_split. reflexivity.
Qed.

(** X20. A cleaned transcript holds no tag: no opening angle bracket of it is
    followed, anywhere later, by a closing one. *)
Theorem cleanTranscript_has_no_tag (transcript : option jsstring) (i j : nat) :
  i < j ->
  cleanTranscript transcript !! i = Some 60%N ->
  cleanTranscript transcript !! j <> Some 62%N.
Proof.
  intros Hij Hi Hj.
  assert (Hno : has_tag (cleanTranscript transcript) = false).
  { destruct transcript as [[|c t]|]; try reflexivity.
    unfold cleanTranscript. cbv zeta.
    apply (tagless_brackets _ (strip_markup (c :: t))); [apply paragraphs_brackets|].
    unfold strip_markup. cbv zeta.
    do 5 (apply replaceAll_tagless; [reflexivity|]).
    apply strip_tags_tagless. }
  assert (Hyes : has_tag (cleanTranscript transcript) = true).
  { clear Hno. revert i j Hij Hi Hj.
    induction (cleanTranscript transcript) as [|c l IH]; intros i j Hij Hi Hj; [discriminate|].
    cbn [has_tag]. destruct i as [|i].
    - cbn in Hi. inversion Hi; subst c. destruct j as [|j]; [lia|]. cbn in Hj.
      assert (E : existsb closes l = true).
      { apply existsb_exists. exists 62%N. split; [|reflexivity].
        apply list_elem_of_In, list_elem_of_lookup. eauto. }
      rewrite E. reflexivity.
    - destruct j as [|j]; [lia|]. cbn in Hi, Hj.
      rewrite (IH i j ltac:(lia) Hi Hj). apply orb_true_r. }
  congruence.
Qed.

Lemma cleanTranscript_has_no_tag_witness :
  cleanTranscript (Some (js "<i>Good</i> morning < everyone")) !! 13 = Some 60%N /\
  cleanTranscript (Some (js "<i>Good</i> morning < everyone")) !! 20 <> Some 62%N.
Proof.
  split; [vm_compute; reflexivity|].
  apply (cleanTranscript_has_no_tag _ 13 20); [lia|vm_compute; reflexivity].
Defined.

End MarkupProofs.

(** ** The remote-provider translation route *)

Module GoogleRouteProofs.

Import Chunker GoogleTranslate GoogleTranslateProofs GoogleRoute.

Section Endpoints.

Variable official alternative :
  nat -> jsstring -> jsval jsstring -> jsval jsstring -> option jsstring.
Variable addHebrewPunctuation : jsstring -> jsstring.

Lemma translate_from_unreachable sl tl chunks : forall i,
  (forall k chunk, official k chunk sl tl = None /\ alternative k chunk sl tl = None) ->
  fst (translate_from official alternative sl tl i chunks) = chunks.
Proof.
  induction chunks as [|chunk rest IH]; intros i Hdown; [reflexivity|].
  cbn [translate_from]. unfold translate_chunk.
  destruct (Hdown i chunk) as [-> ->].
  specialize (IH (S i) Hdown).
  destruct (translate_from official alternative sl tl (S i) rest) as [ts cs].
  cbn [fst] in *. rewrite IH. reflexivity.
Qed.

(** X25. The route answers a request that carries a text with status 200 and
    success set, whatever the two endpoints do. When both endpoints fail for
    every chunk and the target language is neither Hebrew nor Arabic, the
    translation it reports is the text itself, cut into chunks and joined
    again by single spaces: the text unchanged when it has at most 5000
    characters. *)
Theorem POST_reports_success (req : request) (original : jsstring) :
  Transcribe.truthy (text req) = Some original ->
  let answer := POST official alternative addHebrewPunctuation (Some req) in
  let sl := default (js "en") (sourceLang req) in
  let tl := default (js "he") (targetLang req) in
  (exists translation direction,
     answer = {| status := 200;
                 body := Translated original translation direction sl tl |}) /\
  ((forall k chunk lang lang',
      official k chunk lang lang' = None /\ alternative k chunk lang lang' = None) ->
   tl <> js "he" -> tl <> js "ar" ->
   answer = {| status := 200;
               body := Translated original
                         (join (js " ") (splitText original MAX_CHUNK_SIZE))
                         (js "ltr") sl tl |} /\
   (length original <= MAX_CHUNK_SIZE ->
    answer = {| status := 200; body := Translated original original (js "ltr") sl tl |})).
Proof.
  intros Ht answer sl tl. subst answer. unfold POST. rewrite Ht. cbv zeta. fold sl tl.
  split; [eauto|].
  intros Hdown Hhe Har.
  assert (E : POST official alternative addHebrewPunctuation (Some req)
              = {| status := 200;
                   body := Translated original
                             (join (js " ") (splitText original MAX_CHUNK_SIZE))
                             (js "ltr") sl tl |}).
  { unfold POST. rewrite Ht. cbv zeta. fold sl tl. unfold translateWithGoogle. cbv zeta.
    pose proof (translate_from_unreachable (getGoogleLanguageCode sl) (getGoogleLanguageCode tl)
                  (splitText original MAX_CHUNK_SIZE) 0
                  (fun k chunk => Hdown k chunk _ _)) as Hfst.
    destruct (translate_from official alternative _ _ 0 _) as [translated reqs].
    cbn [fst] in Hfst. subst translated.
    rewrite decide_False by exact Hhe.
    unfold setTextDirection. rewrite decide_False by tauto. reflexivity. }
  unfold POST in E. rewrite Ht in E. cbv zeta in E. fold sl tl in E.
  split; [exact E|].
  intros Hlen. rewrite E. unfold splitText.
  apply Nat.leb_le in Hlen. rewrite Hlen. reflexivity.
Qed.

End Endpoints.

Definition unreachable
  : nat -> jsstring -> jsval jsstring -> jsval jsstring -> option jsstring :=
  fun _ _ _ _ => None.

Lemma POST_reports_success_witness :
  POST unreachable unreachable (fun t => t)
       (Some {| text := Some (js "good morning"); sourceLang := None;
                targetLang := Some (js "es") |})
    = {| status := 200;
         body := Translated (js "good morning") (js "good morning") (js "ltr")
                            (js "en") (js "es") |}.
Proof.
  destruct (POST_reports_success unreachable unreachable (fun t => t)
              {| text := Some (js "good morning"); sourceLang := None;
                 targetLang := Some (js "es") |}
              (js "good morning") eq_refl) as [_ H].
  destruct H as [_ H].
  - intros k chunk lang lang'. split; reflexivity.
  - discriminate.
  - discriminate.
  - apply H. vm_compute. lia.
Defined.

End GoogleRouteProofs.

(** ** The case of letters in the language detector *)

Module LetterCase.

Import LangDetect LangDetectProofs WordBoundaries Adequacy.

Section Renaming.

(** a renaming of the characters of a text *)
Variable f : N -> N.
Hypothesis f_word : forall ch, is_word (f ch) = is_word ch.

(** every class of the pattern holds a character exactly when it holds
    its renaming *)
Fixpoint blind (r : regex) : Prop :=
  match r with
  | Chr p | Behind p => forall ch, p (f ch) = p ch
  | Seq r1 r2 | Alt r1 r2 => blind r1 /\ blind r2
  | Star _ r' | Group _ r' => blind r'
  | _ => True
  end.

Variable s : jsstring.

Lemma boundary_map i : boundary (map f s) i = boundary s i.
Proof.
  assert (Hw : forall j, word_at (map f s) j = word_at s j).
  { intros j. unfold word_at. unfold jsstring in *. rewrite list_lookup_fmap.
    destruct (s !! j); cbn; [apply f_word|reflexivity]. }
  unfold boundary. destruct i; rewrite !Hw; reflexivity.
Qed.

Lemma star_loop_map (A : Type)
  (body body' : nat -> caps -> (nat -> caps -> option A) -> option A) greedy :
  (forall i c k k', i <= length s -> agree s A i k k' -> body i c k = body' i c k') ->
  forall k k' fuel i c,
    i <= length s -> agree s A i k k' ->
    star_loop body greedy k fuel i c = star_loop body' greedy k' fuel i c.
Proof.
  intros Hbody k k' fuel. induction fuel as [|fuel IH]; intros i c Hi Hk; cbn [star_loop].
  - apply Hk. lia.
  - assert (Hagain :
      body i c (fun j c' => if Nat.eqb j i then None else star_loop body greedy k fuel j c')
      = body' i c (fun j c' => if Nat.eqb j i then None else star_loop body' greedy k' fuel j c')).
    { apply Hbody; [exact Hi|]. intros j c' Hj. destruct (Nat.eqb j i); [reflexivity|].
      apply IH; [lia|]. apply (agree_later s A i j); [lia|exact Hk]. }
    rewrite Hagain, (Hk i c) by lia. reflexivity.
Qed.

Lemma m_map (A : Type) (r : regex) :
  blind r ->
  forall i c (k k' : nat -> caps -> option A),
    i <= length s -> agree s A i k k' -> m (map f s) r i c k = m s r i c k'.
Proof.
  induction r as [|p|r1 IH1 r2 IH2|r1 IH1 r2 IH2|greedy r' IH|g r' IH| | | |p];
    cbn [blind]; intros Hb i c k k' Hi Hk; cbn [m].
  - apply Hk. lia.
  - unfold jsstring in *. rewrite list_lookup_fmap.
    destruct (s !! i) as [ch|] eqn:E; cbn; [|reflexivity].
    rewrite Hb. destruct (p ch); [|reflexivity].
    apply Hk. apply lookup_lt_Some in E. lia.
  - destruct Hb as [Hb1 Hb2]. apply IH1; [exact Hb1|exact Hi|].
    intros j c' Hj. apply IH2; [exact Hb2|lia|].
    apply (agree_later s A i j); [lia|exact Hk].
  - destruct Hb as [Hb1 Hb2].
    rewrite (IH1 Hb1 i c k k' Hi Hk), (IH2 Hb2 i c k k' Hi Hk). reflexivity.
  - rewrite length_map. apply star_loop_map; [|exact Hi|exact Hk].
    intros j cj kj kj' Hj Hkj. apply IH; assumption.
  - apply IH; [exact Hb|exact Hi|]. intros j c' Hj. apply Hk. exact Hj.
  - destruct (Nat.eqb i 0); [apply Hk; lia|reflexivity].
  - rewrite length_map. destruct (Nat.eqb i (length s)); [apply Hk; lia|reflexivity].
  - rewrite boundary_map. destruct (boundary s i); [apply Hk; lia|reflexivity].
  - destruct i as [|i']; [reflexivity|].
    unfold jsstring in *. rewrite list_lookup_fmap.
    destruct (s !! i') as [ch|]; cbn; [|reflexivity].
    rewrite Hb. destruct (p ch); [apply Hk; lia|reflexivity].
Qed.

Lemma exec_map (r : regex) :
  blind r ->
  match exec r (map f s), exec r s with
  | Some (a, b, _), Some (a', b', _) => a = a' /\ b = b'
  | None, None => True
  | _, _ => False
  end.
Proof.
  intros Hb. unfold exec. rewrite length_map.
  assert (Hgen : forall n i, i + n <= length s ->
    search (map f s) r n i = search s r n i).
  { induction n as [|n IH]; intros i Hi; cbn [search];
      unfold match_at; rewrite (m_map _ r Hb i no_caps _ (fun j c => Some (j, c)))
        by (try lia; intros j c' _; reflexivity);
      destruct (m s r i no_caps _) as [[j cj]|]; try reflexivity.
    apply IH. lia. }
  rewrite Hgen by lia. destruct (search s r (length s) 0) as [[[a b] c]|]; auto.
Qed.

End Renaming.

(** the upper-case form of an ASCII letter; every other character as it is *)
Definition ascii_upper (ch : N) : N := if is_lower ch then (ch - 32)%N else ch.

Lemma ascii_upper_word ch : is_word (ascii_upper ch) = is_word ch.
Proof.
  unfold ascii_upper. destruct (is_lower ch) eqn:E; [|reflexivity].
  assert (H : (ch < N.of_nat 123)%N).
  { unfold is_lower, in_range in E. apply andb_true_iff in E as [_ E].
    apply N.leb_le in E. lia. }
  revert E.
  apply (ResolverFacts.N_below
           (fun x => implb (is_lower x) (N.eqb (N.b2n (is_word (x - 32)%N)) (N.b2n (is_word x))))
           123 ltac:(vm_compute; reflexivity)) in H.
  intros E. rewrite E in H. cbn [implb] in H. apply N.eqb_eq in H.
  destruct (is_word (ch - 32)%N), (is_word ch); cbn in H; congruence.
Qed.

Lemma ascii_upper_canonicalize ch : canonicalize (ascii_upper ch) = canonicalize ch.
Proof.
  unfold ascii_upper. destruct (is_lower ch) eqn:E; [|reflexivity].
  assert (H : (ch < N.of_nat 123)%N).
  { unfold is_lower, in_range in E. apply andb_true_iff in E as [_ E].
    apply N.leb_le in E. lia. }
  apply (ResolverFacts.N_below
           (fun x => implb (is_lower x) (N.eqb (canonicalize (x - 32)%N) (canonicalize x)))
           123 ltac:(vm_compute; reflexivity)) in H.
  rewrite E in H. cbn [implb] in H. apply N.eqb_eq in H. exact H.
Qed.

Lemma blind_seqs f (rs : list regex) : Forall (blind f) rs -> blind f (seqs rs).
Proof.
  induction 1 as [|r rs Hr Hrs IH]; [exact I|].
  destruct rs as [|r' rs']; [exact Hr|]. split; [exact Hr|exact IH].
Qed.

Lemma blind_word_pattern (w : jsstring) : blind ascii_upper (word_pattern w).
Proof.
  unfold word_pattern. apply blind_seqs. constructor; [exact I|].
  apply Forall_app. split; [|repeat constructor].
  apply Forall_forall. intros r Hr. apply list_elem_of_In, in_map_iff in Hr as (a & <- & _).
  intros ch. cbn beta. rewrite ascii_upper_canonicalize. reflexivity.
Qed.

(** X6. The detected language does not depend on the case of the ASCII
    letters of the text: a text and the text with its ASCII letters in upper
    case get the same scores and the same language. *)
Theorem detectLanguage_ignores_ascii_case (text : jsstring) :
  scores (map ascii_upper text) = scores text /\
  detectLanguage (map ascii_upper text) = detectLanguage text.
Proof.
  assert (Hs : scores (map ascii_upper text) = scores text).
  { unfold scores. apply map_ext_Forall.
    eapply Forall_impl; [exact word_patterns|].
    intros [lang patterns] Hp. cbn [fst snd] in *. f_equal.
    unfold score.
    assert (Hgen : forall acc,
      fold_left (fun acc pattern => acc + match_array_length pattern (map ascii_upper text))
                patterns acc
      = fold_left (fun acc pattern => acc + match_array_length pattern text) patterns acc).
    { induction Hp as [|r rest (w & ->) _ IH]; intros acc; [reflexivity|].
      cbn [fold_left]. rewrite IH. do 2 f_equal.
      unfold match_array_length.
      pose proof (exec_map ascii_upper ascii_upper_word text (word_pattern w)
                    (blind_word_pattern w)) as H.
      destruct (exec (word_pattern w) (map ascii_upper text)) as [[[a b] c]|],
               (exec (word_pattern w) text) as [[[a' b'] c']|]; tauto. }
    apply Hgen. }
  split; [exact Hs|]. unfold detectLanguage. rewrite Hs. reflexivity.
Qed.

End LetterCase.
